(** * A shallow embedding of [ArrayPtr] and [SimpleVector]

    The two class templates of the repository are embedded as pure
    functions over an explicit representation of the heap block a raw
    pointer designates.

    - [size_t] is a 64-bit unsigned integer: a value of [N] below
      [SIZE_MODULUS], with the wrap-around of [*], [++] and [--] written
      out ([wrap]).
    - A heap block created by [new Type[n]] is a list of [n] slots.  A
      slot is [Some x] when the program stored [x] in it and [None] when
      its value is not determined by the program (fresh storage, or an
      element that has been moved from).
    - A raw pointer [Type*] to the start of a block is [Some block];
      [nullptr] is [None].  Every pointer the code forms is such a base
      pointer plus an element offset, so a pointer is a base and an offset
      of type [nat]; an [Iterator] of a vector is the offset from
      [data_.Get()].
    - Dereferencing outside the block (or through [nullptr]) is undefined
      behaviour: [RUndef] / [Undefined].  Exceptions are results too.
    - An argument of type [const Type&] or [Type&&] is a [reference]: it
      names an object outside the buffer of the vector, or a slot of that
      buffer.  It is read where the code reads it, in the buffer as it is
      then; a buffer that has been deleted cannot be read.
    - A member function whose body cannot be instantiated has no
      behaviour: [IllFormed]. *)

From Stdlib Require Import NArith Lia.
From stdpp Require Import base option list gmap.

Open Scope N_scope.

(** ** [size_t] *)

Definition SIZE_MODULUS : N := 18446744073709551616.

Definition wrap (x : N) : N := x mod SIZE_MODULUS.

(** [++x] and [--x] on a [size_t]. *)
Definition incr (x : N) : N := wrap (x + 1).
Definition decr (x : N) : N := wrap (x + (SIZE_MODULUS - 1)).

(** ** Results of computations *)

Inductive exn : Type := out_of_range | bad_alloc.

(** The result of a local computation: a value, a thrown exception, or
    undefined behaviour. *)
Inductive result (A : Type) : Type :=
| ROk (a : A)
| RThrow (e : exn)
| RUndef.
Arguments ROk {A} a.
Arguments RThrow {A} e.
Arguments RUndef {A}.

#[global] Instance result_ret : MRet result := fun A a => ROk a.
#[global] Instance result_bind : MBind result := fun A B f m =>
  match m with
  | ROk a => f a
  | RThrow e => RThrow e
  | RUndef => RUndef
  end.
#[global] Instance result_fmap : FMap result := fun A B f m =>
  match m with
  | ROk a => ROk (f a)
  | RThrow e => RThrow e
  | RUndef => RUndef
  end.

(** The outcome of a member function called on an object whose state has
    type [S]: the returned value and the state of the object afterwards,
    or an exception together with the state the object is left in, or
    undefined behaviour. *)
Inductive outcome (S A : Type) : Type :=
| Ok (a : A) (s : S)
| Throw (e : exn) (s : S)
| Undefined.
Arguments Ok {S A} a s.
Arguments Throw {S A} e s.
Arguments Undefined {S A}.

Definition method (S A : Type) : Type := S -> outcome S A.

Definition mreturn {S A} (a : A) : method S A := fun s => Ok a s.

Definition mseq {S A B} (m : method S A) (k : A -> method S B) : method S B :=
  fun s =>
    match m s with
    | Ok a s' => k a s'
    | Throw e s' => Throw e s'
    | Undefined => Undefined
    end.

(** A local computation run inside a member function: an exception
    leaves the object as it is at that point. *)
Definition lift {S A} (r : result A) : method S A :=
  fun s =>
    match r with
    | ROk a => Ok a s
    | RThrow e => Throw e s
    | RUndef => Undefined
    end.

Definition this {S} : method S S := fun s => Ok s s.
Definition assign {S} (s' : S) : method S unit := fun _ => Ok tt s'.

Declare Scope method_scope.
Delimit Scope method_scope with method.
Notation "x <- m ;; k" := (mseq m (fun x => k))
  (at level 100, m at next level, right associativity) : method_scope.
Notation "m ;;; k" := (mseq m (fun _ => k))
  (at level 100, right associativity) : method_scope.

(** ** Members of a class template

    The body of a member function of a class template is checked when
    the member is instantiated, that is, when a program calls it: the
    instantiation yields the body, or the program is ill-formed. *)
Inductive instantiation (A : Type) : Type :=
| WellFormed (body : A)
| IllFormed.
Arguments WellFormed {A} body.
Arguments IllFormed {A}.

(** An lvalue may be assigned to unless it is const. *)
Inductive lvalue : Type := Modifiable | Const.

(** A body that calls [std::exchange(obj, new_value)]: [std::exchange]
    assigns [new_value] to [obj], so its instantiation requires [obj] to
    be modifiable. *)
Definition calls_exchange_on {A : Type} (obj : lvalue) (body : A) : instantiation A :=
  match obj with
  | Modifiable => WellFormed body
  | Const => IllFormed
  end.

(** ** [ArrayPtr] (array_ptr.h) *)

Module ArrayPtr.
Section Handle.
(** [H] is what a non-null raw pointer stands for: an address when
    objects are told apart by identity, the block itself when the
    pointer is its only owner. *)
Context {H : Type}.

Record t : Type := mk { raw_ptr_ : option H }.

(** [ArrayPtr() = default]. *)
Definition null : t := mk None.

(** [explicit ArrayPtr(Type* raw_ptr)]. *)
Definition of_raw (raw_ptr : option H) : t := mk raw_ptr.

(** [Release()]: the raw pointer and the object afterwards. *)
Definition Release (a : t) : option H * t := (raw_ptr_ a, mk None).

(** [Get()]. *)
Definition Get (a : t) : option H := raw_ptr_ a.

(** [explicit operator bool()]. *)
Definition to_bool (a : t) : bool :=
  match raw_ptr_ a with
  | Some _ => true
  | None => false
  end.

(** [swap(ArrayPtr& other)]: the object and [other] afterwards. *)
Definition swap (a other : t) : t * t :=
  let previous_value := raw_ptr_ a in
  (mk (raw_ptr_ other), mk previous_value).

(** [explicit ArrayPtr(ArrayPtr&& other)]: the new object and [other]
    afterwards. *)
Definition move_construct (other : t) : t * t := (mk (raw_ptr_ other), mk None).

(** The assignment operators compare the addresses of the two objects,
    so they are functions on a store of [ArrayPtr] objects named by their
    address; the result is [None] when an address names no object.
    First [std::exchange(o.raw_ptr_, nullptr)] on the object at address
    [o]. *)
Definition exchange_null (o : nat) (st : gmap nat t) : option (option H * gmap nat t) :=
  match st !! o with
  | Some a => Some (raw_ptr_ a, <[o := mk None]> st)
  | None => None
  end.

(** [ArrayPtr& operator=(ArrayPtr&& other)]. *)
Definition move_assign (self other : nat) (st : gmap nat t) : option (gmap nat t) :=
  match st !! self, st !! other with
  | Some _, Some _ =>
      if decide (self = other) then Some st
      else
        match exchange_null other st with
        | Some (p, st') => Some (<[self := mk p]> st')
        | None => None
        end
  | _, _ => None
  end.

(** [ArrayPtr& operator=(const ArrayPtr& other)].  The body is, token
    for token, that of the move assignment, but [other] is a reference to
    const here: [other.raw_ptr_] is a const lvalue, and
    [std::exchange(other.raw_ptr_, nullptr)] would assign to it.  The
    instantiation of the member: *)
Definition copy_assign : instantiation (nat -> nat -> gmap nat t -> option (gmap nat t)) :=
  calls_exchange_on Const
    (fun self other st =>
       match st !! self, st !! other with
       | Some _, Some _ =>
           if decide (self = other) then Some st
           else
             match exchange_null other st with
             | Some (p, st') => Some (<[self := mk p]> st')
             | None => None
             end
       | _, _ => None
       end).

(** [explicit ArrayPtr(size_t size)]: no allocation for [size == 0],
    otherwise [new Type[size]], given here as [new_array]. *)
Definition create (new_array : N -> result H) (size : N) : result t :=
  if size =? 0 then ROk (mk None)
  else raw_ptr ← new_array size; ROk (mk (Some raw_ptr)).

End Handle.
Arguments t H : clear implicits.
End ArrayPtr.

(** *** [ArrayPtr] objects in a store *)

Section ArrayPtrStore.
Context {H : Type}.

(** [swap(ArrayPtr& other)] called on the object at address [self]:
    [previous_value = raw_ptr_; raw_ptr_ = other.raw_ptr_;
     other.raw_ptr_ = previous_value;]. *)
Definition swap_at (self other : nat) (st : gmap nat (ArrayPtr.t H))
  : option (gmap nat (ArrayPtr.t H)) :=
  match st !! self with
  | Some a =>
      let previous_value := ArrayPtr.raw_ptr_ a in
      match st !! other with
      | Some o =>
          let st1 := <[self := ArrayPtr.mk (ArrayPtr.raw_ptr_ o)]> st in
          Some (<[other := ArrayPtr.mk previous_value]> st1)
      | None => None
      end
  | None => None
  end.

(** [Release()] called on the object at address [self]: the pointer
    handed to the caller and the store afterwards. *)
Definition release_at (self : nat) (st : gmap nat (ArrayPtr.t H))
  : option (option H * gmap nat (ArrayPtr.t H)) :=
  match st !! self with
  | Some a =>
      let result := ArrayPtr.raw_ptr_ a in
      Some (result, <[self := ArrayPtr.mk None]> st)
  | None => None
  end.

(** The object at [c] holds the non-null pointer [p]. *)
Definition holds (st : gmap nat (ArrayPtr.t H)) (c : nat) (p : H) : Prop :=
  ArrayPtr.Get <$> st !! c = Some (Some p).

(** Exclusive ownership: no two objects hold the same non-null
    pointer. *)
Definition exclusive (st : gmap nat (ArrayPtr.t H)) : Prop :=
  forall a b p, holds st a p -> holds st b p -> a = b.

End ArrayPtrStore.

(** ** Memory: blocks, pointers and the standard algorithms *)

(** The slots of a heap block, and a raw pointer to the start of a
    block. *)
Abbreviation block T := (list (option T)).
Abbreviation ptr T := (option (list (option T))).

(** The object an argument of reference type ([const Type&] or
    [Type&&]) names: an object that is no slot of the buffer the vector
    has when the call is made, given by the value it holds; or the slot of
    that buffer at an offset, as [v[i]] or an iterator gives it. *)
Inductive reference (T : Type) : Type :=
| Outside (x : T)
| Slot (i : nat).
Arguments Outside {T} x.
Arguments Slot {T} i.

Section Memory.
Context {T : Type}.

(** Number of slots behind a pointer. *)
Definition block_len (p : ptr T) : nat :=
  match p with
  | Some b => length b
  | None => O
  end.

Definition block_of (p : ptr T) : list (option T) :=
  match p with
  | Some b => b
  | None => []
  end.

(** Reading [p[i]]. *)
Definition load (p : ptr T) (i : nat) : result (option T) :=
  match p with
  | Some b =>
      match b !! i with
      | Some c => ROk c
      | None => RUndef
      end
  | None => RUndef
  end.

(** Writing [p[i] = c]. *)
Definition store (p : ptr T) (i : nat) (c : option T) : result (ptr T) :=
  match p with
  | Some b => if decide (i < length b)%nat then ROk (Some (<[i := c]> b)) else RUndef
  | None => RUndef
  end.

(** Reading through a reference at a point of a call where the buffer
    the vector had when the call was made is [p] ([Some p]), or has been
    deleted ([None]): a reference into a deleted buffer dangles. *)
Definition read_reference (element : reference T) (buffer : option (ptr T))
  : result (option T) :=
  match element with
  | Outside x => ROk (Some x)
  | Slot i =>
      match buffer with
      | Some p => load p i
      | None => RUndef
      end
  end.

(** The buffer [p] after [std::move(element)] has been assigned from:
    the object the reference names is left moved-from. *)
Definition moved_from (element : reference T) (p : ptr T) : result (ptr T) :=
  match element with
  | Outside _ => ROk p
  | Slot i => store p i None
  end.

(** Number of steps of a loop [for (; first != last; ++first)] over
    pointers into one block: when [last] is before [first] the loop runs
    off the block. *)
Definition distance (first last : nat) : result nat :=
  if decide (first <= last)%nat then ROk (last - first)%nat else RUndef.

(** [std::fill(p + first, p + first + n, value)]. *)
Fixpoint std_fill (n : nat) (p : ptr T) (first : nat) (value : T) : result (ptr T) :=
  match n with
  | O => ROk p
  | S n' => p' ← store p first (Some value); std_fill n' p' (S first) value
  end.

(** [std::generate(p + first, p + first + n, g)]. *)
Fixpoint std_generate (n : nat) (p : ptr T) (first : nat) (g : unit -> T) : result (ptr T) :=
  match n with
  | O => ROk p
  | S n' => p' ← store p first (Some (g tt)); std_generate n' p' (S first) g
  end.

(** [std::copy(src + first, src + first + n, dst + d_first)] between two
    different blocks; the destination afterwards. *)
Fixpoint std_copy (n : nat) (src : ptr T) (first : nat) (dst : ptr T) (d_first : nat)
  : result (ptr T) :=
  match n with
  | O => ROk dst
  | S n' =>
      c ← load src first;
      dst' ← store dst d_first c;
      std_copy n' src (S first) dst' (S d_first)
  end.

(** [std::move(src + first, src + first + n, dst + d_first)] between two
    different blocks: each source slot is left moved-from.  Source and
    destination afterwards. *)
Fixpoint std_move (n : nat) (src : ptr T) (first : nat) (dst : ptr T) (d_first : nat)
  : result (ptr T * ptr T) :=
  match n with
  | O => ROk (src, dst)
  | S n' =>
      c ← load src first;
      dst' ← store dst d_first c;
      src' ← store src first None;
      std_move n' src' (S first) dst' (S d_first)
  end.

(** [std::copy_backward(p + last - n, p + last, p + d_last)] inside one
    block: [while (first != last) { --d_last; --last; d_last[0] = last[0]; }]. *)
Fixpoint std_copy_backward (n : nat) (p : ptr T) (last d_last : nat) : result (ptr T) :=
  match n with
  | O => ROk p
  | S n' =>
      c ← load p (pred last);
      p' ← store p (pred d_last) c;
      std_copy_backward n' p' (pred last) (pred d_last)
  end.

(** [std::move_backward], likewise, leaving each source slot moved-from. *)
Fixpoint std_move_backward (n : nat) (p : ptr T) (last d_last : nat) : result (ptr T) :=
  match n with
  | O => ROk p
  | S n' =>
      c ← load p (pred last);
      p' ← store p (pred d_last) c;
      p'' ← store p' (pred last) None;
      std_move_backward n' p'' (pred last) (pred d_last)
  end.

(** The loop of [Erase]:
    [for (auto begin = pos; begin != end() - 1; ++begin)
       begin[0] = std::move(begin[1]);] run for [n] steps. *)
Fixpoint erase_loop (n : nat) (p : ptr T) (begin : nat) : result (ptr T) :=
  match n with
  | O => ROk p
  | S n' =>
      c ← load p (S begin);
      p' ← store p begin c;
      p'' ← store p' (S begin) None;
      erase_loop n' p'' (S begin)
  end.

(** [std::equal(p1 + first1, p1 + first1 + n, p2 + first2)] with the
    element type's [operator==]. *)
Fixpoint std_equal (eqT : T -> T -> bool) (n : nat) (p1 : ptr T) (first1 : nat)
  (p2 : ptr T) (first2 : nat) : result bool :=
  match n with
  | O => ROk true
  | S n' =>
      a ← load p1 first1;
      b ← load p2 first2;
      match a, b with
      | Some x, Some y =>
          if eqT x y then std_equal eqT n' p1 (S first1) p2 (S first2)
          else ROk false
      | _, _ => RUndef
      end
  end.

(** [std::lexicographical_compare] over [n1] and [n2] elements with the
    element type's [operator<]:
    [for (; first1 != last1 && first2 != last2; ++first1, ++first2) {
       if (first1[0] < first2[0]) return true;
       if (first2[0] < first1[0]) return false; }
     return first1 == last1 && first2 != last2;] *)
Fixpoint std_lexicographical_compare (ltT : T -> T -> bool) (n1 n2 : nat)
  (p1 : ptr T) (first1 : nat) (p2 : ptr T) (first2 : nat) : result bool :=
  match n1, n2 with
  | S n1', S n2' =>
      a ← load p1 first1;
      b ← load p2 first2;
      match a, b with
      | Some x, Some y =>
          if ltT x y then ROk true
          else if ltT y x then ROk false
          else std_lexicographical_compare ltT n1' n2' p1 (S first1) p2 (S first2)
      | _, _ => RUndef
      end
  | O, S _ => ROk true
  | _, O => ROk false
  end.

End Memory.

(** Unfolding of the member-function combinators, and of a read through
    a reference once it is known what the reference names. *)
Ltac unfold_method :=
  unfold mseq, this, lift, assign, mreturn; cbn [read_reference moved_from].

(** ** [SimpleVector] *)

(** [struct ReserveProxyObj] and the free function [Reserve]. *)
Record ReserveProxyObj : Type := { capacity : N }.

Definition Reserve_proxy (capacity_to_reserve : N) : ReserveProxyObj :=
  {| capacity := capacity_to_reserve |}.

Section SimpleVector.
Context {T : Type}.

(** [Type()], the value-initialised element. *)
Variable Type_ : T.

(** [new Type[n]] succeeds exactly when [n] does not exceed
    [alloc_limit] and throws [std::bad_alloc] otherwise; the slots of the
    fresh block hold no determined value. *)
Variable alloc_limit : N.

Definition new_array (n : N) : result (block T) :=
  if n <=? alloc_limit then ROk (replicate (N.to_nat n) None)
  else RThrow bad_alloc.

Record SimpleVector : Type := {
  size_ : N;
  capacity_ : N;
  data_ : ArrayPtr.t (block T)
}.

#[local] Abbreviation Get := ArrayPtr.Get.
#[local] Abbreviation meth := (method SimpleVector).

(** A constructor body run on the default-initialised members. *)
Definition construct (init : SimpleVector) (body : meth unit) : result SimpleVector :=
  match body init with
  | Ok _ v => ROk v
  | Throw e _ => RThrow e
  | Undefined => RUndef
  end.

(** [SimpleVector() noexcept = default]. *)
Definition SimpleVector_default : SimpleVector :=
  {| size_ := 0; capacity_ := 0; data_ := ArrayPtr.null |}.

(** [explicit SimpleVector(size_t size)]. *)
Definition SimpleVector_count (size : N) : result SimpleVector :=
  data ← ArrayPtr.create new_array size;
  filled ← std_fill (N.to_nat size) (Get data) 0 Type_;
  ROk {| size_ := size; capacity_ := size; data_ := ArrayPtr.mk filled |}.

(** [SimpleVector(size_t size, const Type& value)]. *)
Definition SimpleVector_fill (size : N) (value : T) : result SimpleVector :=
  data ← ArrayPtr.create new_array size;
  filled ← std_fill (N.to_nat size) (Get data) 0 value;
  ROk {| size_ := size; capacity_ := size; data_ := ArrayPtr.mk filled |}.

(** [SimpleVector(std::initializer_list<Type> init)]. *)
Definition SimpleVector_init (init : list T) : result SimpleVector :=
  let n := N.of_nat (length init) in
  data ← ArrayPtr.create new_array n;
  copied ← std_copy (length init) (Some (Some <$> init)) 0 (Get data) 0;
  ROk {| size_ := n; capacity_ := n; data_ := ArrayPtr.mk copied |}.

(** Accessors. *)
Definition GetSize (v : SimpleVector) : N := size_ v.
Definition GetCapacity (v : SimpleVector) : N := capacity_ v.
Definition IsEmpty (v : SimpleVector) : bool := size_ v =? 0.

(** [begin()] and [end()] as offsets from [data_.Get()]. *)
Definition begin_ (v : SimpleVector) : nat := O.
Definition end_ (v : SimpleVector) : nat := N.to_nat (size_ v).

(** [operator[](size_t index)]. *)
Definition index (index : N) : meth (option T) :=
  (v <- this ;;
   lift (load (Get (data_ v)) (N.to_nat index)))%method.

(** [At(size_t index)]. *)
Definition At (index : N) : meth (option T) :=
  (v <- this ;;
   if size_ v <=? index then lift (RThrow out_of_range)
   else lift (load (Get (data_ v)) (N.to_nat index)))%method.

(** [Clear()]. *)
Definition Clear : meth unit :=
  (v <- this ;;
   assign {| size_ := 0; capacity_ := capacity_ v; data_ := data_ v |})%method.

(** [Resize(size_t new_size)]. *)
Definition Resize (new_size : N) : meth unit :=
  (v <- this ;;
   (if capacity_ v <? new_size then
      temp <- lift (ArrayPtr.create new_array new_size) ;;
      generated <- lift (std_generate (N.to_nat new_size) (Get temp) 0 (fun _ => Type_)) ;;
      moved <- lift (std_move (N.to_nat (size_ v)) (Get (data_ v)) 0 generated 0) ;;
      let swapped := ArrayPtr.swap (ArrayPtr.mk (fst moved)) (ArrayPtr.mk (snd moved)) in
      assign {| size_ := size_ v; capacity_ := new_size; data_ := fst swapped |}
    else mreturn tt) ;;;
   v <- this ;;
   (if size_ v <? new_size then
      generated <- lift (std_generate (N.to_nat new_size - N.to_nat (size_ v))
                           (Get (data_ v)) (N.to_nat (size_ v)) (fun _ => Type_)) ;;
      assign {| size_ := size_ v; capacity_ := capacity_ v;
                data_ := ArrayPtr.mk generated |}
    else mreturn tt) ;;;
   v <- this ;;
   assign {| size_ := new_size; capacity_ := capacity_ v; data_ := data_ v |})%method.

(** [capacity_ == 0 ? 1 : capacity_ * 2]. *)
Definition increased (capacity : N) : N :=
  if capacity =? 0 then 1 else wrap (capacity * 2).

(** [PushBack(const Type& element)].  In the reallocating branch the
    swap hands the buffer of the call to [temp], whose destructor deletes
    it at the closing brace of the [if]; [element] is read after that,
    in [data_[size_] = element]. *)
Definition PushBack (element : reference T) : meth unit :=
  (v <- this ;;
   buffer_kept <- (if capacity_ v <=? size_ v then
      let increased_capacity := increased (capacity_ v) in
      temp <- lift (ArrayPtr.create new_array increased_capacity) ;;
      filled <- lift (std_fill (N.to_nat increased_capacity) (Get temp) 0 Type_) ;;
      copied <- lift (std_copy (N.to_nat (size_ v)) (Get (data_ v)) 0 filled 0) ;;
      let swapped := ArrayPtr.swap (data_ v) (ArrayPtr.mk copied) in
      assign {| size_ := size_ v; capacity_ := increased_capacity;
                data_ := fst swapped |} ;;;
      mreturn false
    else mreturn true) ;;
   v <- this ;;
   c <- lift (read_reference element
                (if buffer_kept : bool then Some (Get (data_ v)) else None)) ;;
   written <- lift (store (Get (data_ v)) (N.to_nat (size_ v)) c) ;;
   assign {| size_ := incr (size_ v); capacity_ := capacity_ v;
             data_ := ArrayPtr.mk written |})%method.

(** [PushBack(Type&& element)]: likewise, and
    [data_[size_] = std::move(element)] leaves the object [element] names
    moved-from. *)
Definition PushBack_move (element : reference T) : meth unit :=
  (v <- this ;;
   buffer_kept <- (if capacity_ v <=? size_ v then
      let increased_capacity := increased (capacity_ v) in
      temp <- lift (ArrayPtr.create new_array increased_capacity) ;;
      generated <- lift (std_generate (N.to_nat increased_capacity) (Get temp) 0
                           (fun _ => Type_)) ;;
      moved <- lift (std_move (N.to_nat (size_ v)) (Get (data_ v)) 0 generated 0) ;;
      let swapped := ArrayPtr.swap (ArrayPtr.mk (fst moved)) (ArrayPtr.mk (snd moved)) in
      assign {| size_ := size_ v; capacity_ := increased_capacity;
                data_ := fst swapped |} ;;;
      mreturn false
    else mreturn true) ;;
   v <- this ;;
   c <- lift (read_reference element
                (if buffer_kept : bool then Some (Get (data_ v)) else None)) ;;
   written <- lift (store (Get (data_ v)) (N.to_nat (size_ v)) c) ;;
   left <- lift (moved_from element written) ;;
   assign {| size_ := incr (size_ v); capacity_ := capacity_ v;
             data_ := ArrayPtr.mk left |})%method.

(** [PopBack()]. *)
Definition PopBack : meth unit :=
  (v <- this ;;
   assign {| size_ := decr (size_ v); capacity_ := capacity_ v; data_ := data_ v |})%method.

(** [Reserve(size_t reserved_capacity)]. *)
Definition Reserve (reserved_capacity : N) : meth unit :=
  (v <- this ;;
   if reserved_capacity <=? capacity_ v then mreturn tt
   else
     new_data <- lift (ArrayPtr.create new_array reserved_capacity) ;;
     filled <- lift (std_fill (N.to_nat (capacity_ v)) (Get new_data) 0 Type_) ;;
     copied <- lift (std_copy (N.to_nat (size_ v)) (Get (data_ v)) 0 filled 0) ;;
     let swapped := ArrayPtr.swap (data_ v) (ArrayPtr.mk copied) in
     assign {| size_ := size_ v; capacity_ := reserved_capacity;
               data_ := fst swapped |})%method.

(** [SimpleVector(ReserveProxyObj obj)]. *)
Definition SimpleVector_reserve (obj : ReserveProxyObj) : result SimpleVector :=
  construct SimpleVector_default
    (v <- this ;;
     assign {| size_ := size_ v; capacity_ := capacity obj; data_ := data_ v |} ;;;
     v <- this ;;
     Reserve (capacity_ v))%method.

(** [Erase(Iterator pos)]: [end() - 1] does not exist for an empty
    vector. *)
Definition Erase (pos : nat) : meth nat :=
  (v <- this ;;
   let removing_index := pos in
   n <- lift (if size_ v =? 0 then RUndef else distance pos (pred (end_ v))) ;;
   shifted <- lift (erase_loop n (Get (data_ v)) pos) ;;
   assign {| size_ := decr (size_ v); capacity_ := capacity_ v;
             data_ := ArrayPtr.mk shifted |} ;;;
   mreturn removing_index)%method.

(** [swap(SimpleVector& other)]: the object and [other] afterwards. *)
Definition swap (v other : SimpleVector) : SimpleVector * SimpleVector :=
  let swapped := ArrayPtr.swap (data_ v) (data_ other) in
  ({| size_ := size_ other; capacity_ := capacity_ other; data_ := fst swapped |},
   {| size_ := size_ v; capacity_ := capacity_ v; data_ := snd swapped |}).

(** [SimpleVector(SimpleVector<Type>& other)]. *)
Definition SimpleVector_copy (other : SimpleVector) : result SimpleVector :=
  let capacity := N.of_nat (end_ other - begin_ other) in
  temp ← SimpleVector_count capacity;
  copied ← std_copy (end_ other - begin_ other) (Get (data_ other)) (begin_ other)
             (Get (data_ temp)) (begin_ temp);
  let temp := {| size_ := size_ temp; capacity_ := capacity_ temp;
                 data_ := ArrayPtr.mk copied |} in
  ROk (fst (swap SimpleVector_default temp)).

(** [SimpleVector(SimpleVector&& other)]: the new object and [other]
    afterwards. *)
Definition SimpleVector_move (other : SimpleVector) : SimpleVector * SimpleVector :=
  ({| size_ := size_ other; capacity_ := capacity_ other; data_ := data_ other |},
   {| size_ := 0; capacity_ := 0; data_ := ArrayPtr.mk None |}).

(** [Insert(Iterator pos, const Type& element)].  [element] is read
    while the buffer of the call is still owned by [data_]: before the
    swap in the reallocating branch, after the shift in the other. *)
Definition Insert (pos : nat) (element : reference T) : meth nat :=
  (v <- this ;;
   let inserting_index := pos in
   (if capacity_ v <=? size_ v then
      let increased_capacity := increased (capacity_ v) in
      temp <- lift (ArrayPtr.create new_array increased_capacity) ;;
      filled <- lift (std_fill (N.to_nat increased_capacity) (Get temp) 0 Type_) ;;
      head <- lift (std_copy pos (Get (data_ v)) 0 filled 0) ;;
      c <- lift (read_reference element (Some (Get (data_ v)))) ;;
      placed <- lift (store head inserting_index c) ;;
      n <- lift (distance pos (end_ v)) ;;
      tail <- lift (std_copy n (Get (data_ v)) pos placed (inserting_index + 1)) ;;
      let swapped := ArrayPtr.swap (data_ v) (ArrayPtr.mk tail) in
      assign {| size_ := size_ v; capacity_ := increased_capacity;
                data_ := fst swapped |}
    else
      n <- lift (distance pos (end_ v)) ;;
      shifted <- lift (std_copy_backward n (Get (data_ v)) (end_ v) (end_ v + 1)) ;;
      c <- lift (read_reference element (Some shifted)) ;;
      placed <- lift (store shifted inserting_index c) ;;
      assign {| size_ := size_ v; capacity_ := capacity_ v;
                data_ := ArrayPtr.mk placed |}) ;;;
   v <- this ;;
   assign {| size_ := incr (size_ v); capacity_ := capacity_ v; data_ := data_ v |} ;;;
   mreturn inserting_index)%method.

(** [Insert(Iterator pos, Type&& element)]. *)
Definition Insert_move (pos : nat) (element : reference T) : meth nat :=
  (v <- this ;;
   let inserting_index := pos in
   (if capacity_ v <=? size_ v then
      let increased_capacity := increased (capacity_ v) in
      temp <- lift (ArrayPtr.create new_array increased_capacity) ;;
      generated <- lift (std_generate (N.to_nat increased_capacity) (Get temp) 0
                           (fun _ => Type_)) ;;
      head <- lift (std_move pos (Get (data_ v)) 0 generated 0) ;;
      c <- lift (read_reference element (Some (fst head))) ;;
      placed <- lift (store (snd head) inserting_index c) ;;
      source <- lift (moved_from element (fst head)) ;;
      n <- lift (distance pos (end_ v)) ;;
      tail <- lift (std_move n source pos placed (inserting_index + 1)) ;;
      let swapped := ArrayPtr.swap (ArrayPtr.mk (fst tail)) (ArrayPtr.mk (snd tail)) in
      assign {| size_ := size_ v; capacity_ := increased_capacity;
                data_ := fst swapped |}
    else
      n <- lift (distance pos (end_ v)) ;;
      shifted <- lift (std_move_backward n (Get (data_ v)) (end_ v) (end_ v + 1)) ;;
      c <- lift (read_reference element (Some shifted)) ;;
      placed <- lift (store shifted inserting_index c) ;;
      left <- lift (moved_from element placed) ;;
      assign {| size_ := size_ v; capacity_ := capacity_ v;
                data_ := ArrayPtr.mk left |}) ;;;
   v <- this ;;
   assign {| size_ := incr (size_ v); capacity_ := capacity_ v; data_ := data_ v |} ;;;
   mreturn inserting_index)%method.

(** *** Comparison operators (free functions) *)

Section Compare.
(** The element type's [operator==] and [operator<]. *)
Variable eqT : T -> T -> bool.
Variable ltT : T -> T -> bool.

(** [operator==]. *)
Definition op_eq (lhs rhs : SimpleVector) : result bool :=
  if GetSize lhs =? GetSize rhs then
    std_equal eqT (end_ lhs - begin_ lhs) (Get (data_ lhs)) (begin_ lhs)
      (Get (data_ rhs)) (begin_ rhs)
  else ROk false.

(** [operator!=]. *)
Definition op_ne (lhs rhs : SimpleVector) : result bool :=
  negb <$> op_eq lhs rhs.

(** [operator<]. *)
Definition op_lt (lhs rhs : SimpleVector) : result bool :=
  std_lexicographical_compare ltT (end_ lhs - begin_ lhs) (end_ rhs - begin_ rhs)
    (Get (data_ lhs)) (begin_ lhs) (Get (data_ rhs)) (begin_ rhs).

(** [operator<=]: [lhs < rhs || lhs == rhs]. *)
Definition op_le (lhs rhs : SimpleVector) : result bool :=
  op_lt lhs rhs ≫= fun l : bool => if l then ROk true else op_eq lhs rhs.

(** [operator>]: [rhs < lhs]. *)
Definition op_gt (lhs rhs : SimpleVector) : result bool :=
  op_lt rhs lhs.

(** [operator>=]: [(rhs < lhs) || (rhs == lhs)]. *)
Definition op_ge (lhs rhs : SimpleVector) : result bool :=
  op_lt rhs lhs ≫= fun l : bool => if l then ROk true else op_eq rhs lhs.

End Compare.

(** *** The state of a vector as the claims speak of it *)

(** All allocated slots, and the slots [[0, size)] that hold the
    elements. *)
Definition cells (v : SimpleVector) : list (option T) := block_of (Get (data_ v)).
Definition live (v : SimpleVector) : list (option T) :=
  take (N.to_nat (size_ v)) (cells v).

(** The element sequence. *)
Definition items (v : SimpleVector) : list T := omap id (live v).

(** The representation invariant of the data model: [size <= capacity],
    the buffer has exactly [capacity] slots, and every element slot holds
    a value. *)
Record wf (v : SimpleVector) : Prop := {
  wf_size : size_ v <= capacity_ v;
  wf_fits : capacity_ v < SIZE_MODULUS;
  wf_block : N.of_nat (length (cells v)) = capacity_ v;
  wf_live : Forall is_Some (live v)
}.

(** What the caller of an operation taking a reference guarantees: the
    argument of an overload taking [const Type&] names an object outside
    the buffer or one of the elements of the vector; the argument of an
    overload taking [Type&&] is a temporary, no element of the vector
    (the specification speaks of a transferable temporary). *)
Definition names_element (element : reference T) (v : SimpleVector) : Prop :=
  match element with
  | Outside _ => True
  | Slot i => (i < end_ v)%nat
  end.

(** The value of the object a reference names when the call is made. *)
Definition referent (element : reference T) (v : SimpleVector) : option T :=
  match element with
  | Outside x => Some x
  | Slot i => items v !! i
  end.

Definition is_temporary (element : reference T) : Prop :=
  match element with
  | Outside _ => True
  | Slot _ => False
  end.

(** The mutating operations, their stated preconditions (an argument of
    type [size_t] is below [SIZE_MODULUS]) and their effect. *)
Inductive operation : Type :=
| OpPushBack (element : reference T)
| OpPushBack_move (element : reference T)
| OpPopBack
| OpInsert (pos : nat) (element : reference T)
| OpInsert_move (pos : nat) (element : reference T)
| OpErase (pos : nat)
| OpResize (new_size : N)
| OpReserve (reserved_capacity : N)
| OpClear.

Definition precondition (o : operation) (v : SimpleVector) : Prop :=
  match o with
  | OpPushBack element => names_element element v
  | OpPushBack_move element => is_temporary element
  | OpPopBack => 0 < size_ v
  | OpInsert pos element =>
      (begin_ v <= pos <= end_ v)%nat /\ names_element element v
  | OpInsert_move pos element =>
      (begin_ v <= pos <= end_ v)%nat /\ is_temporary element
  | OpErase pos => (begin_ v <= pos < end_ v)%nat
  | OpResize n | OpReserve n => n < SIZE_MODULUS
  | OpClear => True
  end.

(** The state the object is in after the call, if there is one. *)
Definition state_after {A} (o : outcome SimpleVector A) : option SimpleVector :=
  match o with
  | Ok _ v => Some v
  | Throw _ v => Some v
  | Undefined => None
  end.

Definition perform (o : operation) (v : SimpleVector) : option SimpleVector :=
  match o with
  | OpPushBack x => state_after (PushBack x v)
  | OpPushBack_move x => state_after (PushBack_move x v)
  | OpPopBack => state_after (PopBack v)
  | OpInsert pos x => state_after (Insert pos x v)
  | OpInsert_move pos x => state_after (Insert_move pos x v)
  | OpErase pos => state_after (Erase pos v)
  | OpResize n => state_after (Resize n v)
  | OpReserve n => state_after (Reserve n v)
  | OpClear => state_after (Clear v)
  end.

(** The allocation an operation makes, if it makes one, is within what
    the allocator grants. *)
Definition allocation_succeeds (o : operation) (v : SimpleVector) : Prop :=
  match o with
  | OpPushBack _ | OpPushBack_move _ | OpInsert _ _ | OpInsert_move _ _ =>
      size_ v = capacity_ v -> N.max 1 (capacity_ v * 2) <= alloc_limit
  | OpResize n | OpReserve n => capacity_ v < n -> n <= alloc_limit
  | _ => True
  end.

(** The calls that read their argument after the buffer it lies in has
    been deleted: [PushBack] of an element of a vector that is full. *)
Definition reads_deleted_buffer (o : operation) (v : SimpleVector) : Prop :=
  match o with
  | OpPushBack (Slot _) | OpPushBack_move (Slot _) => capacity_ v <= size_ v
  | _ => False
  end.

(** A vector as the [ReserveProxyObj] constructor leaves it: a capacity
    recorded, no buffer behind it. *)
Definition unbacked (v : SimpleVector) : Prop :=
  size_ v = 0 /\ Get (data_ v) = None /\
  0 < capacity_ v /\ capacity_ v < SIZE_MODULUS.

(** The vectors a program can build: any constructor, then any sequence
    of operations called with their preconditions, on arguments outside
    the vector or, where the parameter is a [const Type&], on elements of
    the vector itself. *)
Inductive reachable : SimpleVector -> Prop :=
| reach_default : reachable SimpleVector_default
| reach_count size v :
    size < SIZE_MODULUS -> SimpleVector_count size = ROk v -> reachable v
| reach_fill size value v :
    size < SIZE_MODULUS -> SimpleVector_fill size value = ROk v -> reachable v
| reach_init init v :
    N.of_nat (length init) < SIZE_MODULUS ->
    SimpleVector_init init = ROk v -> reachable v
| reach_reserve obj v :
    capacity obj < SIZE_MODULUS -> SimpleVector_reserve obj = ROk v -> reachable v
| reach_copy other v :
    reachable other -> SimpleVector_copy other = ROk v -> reachable v
| reach_move_to other :
    reachable other -> reachable (fst (SimpleVector_move other))
| reach_move_from other :
    reachable other -> reachable (snd (SimpleVector_move other))
| reach_operation o v v' :
    reachable v -> precondition o v -> perform o v = Some v' -> reachable v'
| reach_swap_left v other :
    reachable v -> reachable other -> reachable (fst (swap v other))
| reach_swap_right v other :
    reachable v -> reachable other -> reachable (snd (swap v other)).

(** What every call that returns maintains, whatever the buffer holds:
    the size is within the slots the buffer really has, and these are
    within the recorded capacity. *)
Definition sized (v : SimpleVector) : Prop :=
  size_ v <= N.of_nat (length (cells v)) /\
  N.of_nat (length (cells v)) <= capacity_ v /\
  capacity_ v < SIZE_MODULUS.

(** [v.PushBack(x1); ...; v.PushBack(xn);] for the elements of a
    list. *)
Fixpoint PushBack_all (xs : list T) : meth unit :=
  match xs with
  | [] => mreturn tt
  | x :: xs' => (PushBack (Outside x) ;;; PushBack_all xs')%method
  end.

(** The assignment operators compare addresses, so they act on a store
    of vectors named by address; a call through an address that names no
    vector is undefined.

    [SimpleVector& operator=(SimpleVector&& other)].  The [data_] members
    of two different vectors are different [ArrayPtr] objects, so the move
    assignment of [ArrayPtr] takes the pointer and leaves [other.data_]
    null. *)
Definition SimpleVector_move_assign (self other : nat) (st : gmap nat SimpleVector)
  : result (gmap nat SimpleVector) :=
  match st !! self, st !! other with
  | Some _, Some o =>
      if decide (self = other) then ROk st
      else
        let moved := ArrayPtr.move_construct (data_ o) in
        ROk (<[self := {| size_ := size_ o; capacity_ := capacity_ o;
                          data_ := fst moved |}]>
               (<[other := {| size_ := 0; capacity_ := 0; data_ := snd moved |}]> st))
  | _, _ => RUndef
  end.

(** [SimpleVector& operator=(SimpleVector<Type>& other)]:
    [SimpleVector<Type> temp(other); swap(temp);]. *)
Definition SimpleVector_copy_assign (self other : nat) (st : gmap nat SimpleVector)
  : result (gmap nat SimpleVector) :=
  match st !! self, st !! other with
  | Some v, Some o =>
      if decide (self = other) then ROk st
      else temp ← SimpleVector_copy o; ROk (<[self := fst (swap v temp)]> st)
  | _, _ => RUndef
  end.

(** The capacity a vector has when it grew by [PushBack] alone: none
    while empty, otherwise a power of two less than twice the size. *)
Definition doubled (v : SimpleVector) : Prop :=
  (size_ v = 0 /\ capacity_ v = 0) \/
  (exists k : N, capacity_ v = 2 ^ k /\ capacity_ v < 2 * size_ v).

(** The slots of a block with [n] of them, from [first] on, set to
    moved-from. *)
Fixpoint vacate (n : nat) (p : ptr T) (first : nat) : ptr T :=
  match n with
  | O => p
  | S n' => vacate n' ((fun b => <[first := None]> b) <$> p) (S first)
  end.

(** *** The comparison operators as the specification words them *)

Section CompareSpec.
Variable eqT : T -> T -> bool.
Variable ltT : T -> T -> bool.

(** Equal: the sizes match and all corresponding elements compare equal,
    in order. *)
Definition spec_equal (l1 l2 : list T) : Prop :=
  length l1 = length l2 /\
  forall i x y, l1 !! i = Some x -> l2 !! i = Some y -> eqT x y = true.

(** Lexicographic order with element-wise less-than: the sequences agree
    (neither element is less than the other) up to some position, where
    either the first sequence ends and the second goes on, or the element
    of the first is less than that of the second. *)
Definition spec_lex_less (l1 l2 : list T) : Prop :=
  exists k : nat,
    (forall i x y, (i < k)%nat -> l1 !! i = Some x -> l2 !! i = Some y ->
       ltT x y = false /\ ltT y x = false) /\
    ((k = length l1 /\ (k < length l2)%nat) \/
     (exists x y, l1 !! k = Some x /\ l2 !! k = Some y /\ ltT x y = true)).

End CompareSpec.

(** Projections of record literals and of [ArrayPtr] values. *)
Ltac vsimpl :=
  cbn [ArrayPtr.Get ArrayPtr.raw_ptr_ ArrayPtr.swap fst snd data_ size_ capacity_] in *.

(** ** Facts about [size_t] arithmetic *)

Lemma wrap_small (x : N) : x < SIZE_MODULUS -> wrap x = x.
Proof. intros Hx. unfold wrap. by apply N.mod_small. Qed.

Lemma wrap_lt (x : N) : wrap x < SIZE_MODULUS.
Proof. unfold wrap. apply N.mod_lt. unfold SIZE_MODULUS. lia. Qed.

Lemma incr_small (x : N) : x + 1 < SIZE_MODULUS -> incr x = x + 1.
Proof. apply wrap_small. Qed.

Lemma decr_pos (x : N) : 0 < x -> x < SIZE_MODULUS -> decr x = x - 1.
Proof.
  intros H0 Hx. unfold decr, wrap.
  replace (x + (SIZE_MODULUS - 1)) with ((x - 1) + 1 * SIZE_MODULUS)
    by (unfold SIZE_MODULUS in *; lia).
  rewrite N.Div0.mod_add. apply N.mod_small. lia.
Qed.

Lemma increased_lt (c : N) : increased c < SIZE_MODULUS.
Proof.
  unfold increased. destruct (c =? 0); [by unfold SIZE_MODULUS | apply wrap_lt].
Qed.

Lemma increased_max (c : N) :
  c * 2 < SIZE_MODULUS -> increased c = N.max 1 (c * 2).
Proof.
  intros Hc. unfold increased. destruct (N.eqb_spec c 0) as [->|Hne]; [done|].
  rewrite wrap_small by done. lia.
Qed.

(** ** Facts about loads, stores and the standard algorithms *)

Lemma load_Some (b : list (option T)) (i : nat) (c : option T) :
  b !! i = Some c -> load (Some b) i = ROk c.
Proof. intros Hi. simpl. by rewrite Hi. Qed.

Lemma store_Some (b : list (option T)) (i : nat) (c : option T) :
  (i < length b)%nat -> store (Some b) i c = ROk (Some (<[i := c]> b)).
Proof. intros Hi. simpl. by rewrite decide_True. Qed.

Lemma load_inv (p : ptr T) (i : nat) (c : option T) :
  load p i = ROk c -> exists b, p = Some b /\ b !! i = Some c.
Proof.
  destruct p as [b|]; simpl; [|done].
  destruct (b !! i) eqn:E; [|done]. intros [= <-]. eauto.
Qed.

Lemma load_block (p : ptr T) (i : nat) (c : option T) :
  block_of p !! i = Some c -> load p i = ROk c.
Proof. destruct p as [b|]; simpl; [|done]. by intros ->. Qed.

Lemma store_inv (p p' : ptr T) (i : nat) (c : option T) :
  store p i c = ROk p' ->
  exists b, p = Some b /\ (i < length b)%nat /\ p' = Some (<[i := c]> b).
Proof.
  destruct p as [b|]; simpl; [|done].
  case_decide; [|done]. intros [= <-]. eauto.
Qed.

Lemma store_len (p p' : ptr T) (i : nat) (c : option T) :
  store p i c = ROk p' -> (i < block_len p)%nat /\ block_len p' = block_len p.
Proof.
  intros (b & -> & Hi & ->)%store_inv. simpl. by rewrite length_insert.
Qed.

Lemma std_generate_fill (n : nat) (p : ptr T) (first : nat) (g : unit -> T) :
  std_generate n p first g = std_fill n p first (g tt).
Proof.
  revert p first. induction n as [|n IH]; intros p first; simpl; [done|].
  destruct (store p first (Some (g tt))); simpl; auto.
Qed.

Lemma std_fill_spec (n : nat) (b : list (option T)) (first : nat) (value : T) :
  (first + n <= length b)%nat ->
  std_fill n (Some b) first value =
  ROk (Some (take first b ++ replicate n (Some value) ++ drop (first + n) b)).
Proof.
  revert b first. induction n as [|n IH]; intros b first Hlen.
  - simpl. by rewrite Nat.add_0_r, take_drop.
  - cbn [std_fill]. rewrite store_Some by lia. cbn [mbind result_bind].
    rewrite IH by (rewrite length_insert; lia).
    do 2 f_equal.
    rewrite (take_S_r _ _ (Some value)) by (apply list_lookup_insert_eq; lia).
    rewrite take_insert_ge by lia.
    rewrite drop_insert_lt by lia.
    rewrite <- app_assoc. simpl.
    repeat f_equal. lia.
Qed.

Lemma std_fill_len (n : nat) (p p' : ptr T) (first : nat) (value : T) :
  std_fill n p first value = ROk p' ->
  block_len p' = block_len p /\ (n = O \/ (first + n <= block_len p)%nat).
Proof.
  revert p first. induction n as [|n IH]; intros p first; simpl.
  - intros [= <-]. auto.
  - destruct (store p first (Some value)) as [q| |] eqn:E; simpl; try done.
    intros Hrec. apply store_len in E as [Hi Hq].
    apply IH in Hrec as [Hlen Hn]. split; [lia|]. right. lia.
Qed.

Lemma std_copy_spec (n : nat) (bs bd : list (option T)) (first d_first : nat) :
  (first + n <= length bs)%nat -> (d_first + n <= length bd)%nat ->
  std_copy n (Some bs) first (Some bd) d_first =
  ROk (Some (take d_first bd ++ take n (drop first bs) ++ drop (d_first + n) bd)).
Proof.
  revert bd first d_first. induction n as [|n IH]; intros bd first d_first Hs Hd.
  - simpl. by rewrite Nat.add_0_r, take_drop.
  - destruct (lookup_lt_is_Some_2 bs first) as [c Hc]; [lia|].
    cbn [std_copy]. rewrite (load_Some _ _ _ Hc). cbn [mbind result_bind].
    rewrite store_Some by lia. cbn [mbind result_bind].
    rewrite IH by (rewrite ?length_insert; lia).
    do 2 f_equal.
    rewrite (take_S_r _ _ c) by (apply list_lookup_insert_eq; lia).
    rewrite take_insert_ge by lia.
    rewrite drop_insert_lt by lia.
    rewrite (drop_S _ _ _ Hc). rewrite <- app_assoc. simpl.
    repeat f_equal. lia.
Qed.

Lemma std_copy_len (n : nat) (src dst dst' : ptr T) (first d_first : nat) :
  std_copy n src first dst d_first = ROk dst' ->
  block_len dst' = block_len dst /\
  (n = O \/ ((d_first + n <= block_len dst)%nat /\ (first + n <= block_len src)%nat)).
Proof.
  revert dst first d_first. induction n as [|n IH]; intros dst first d_first; simpl.
  - intros [= <-]. auto.
  - destruct (load src first) as [c| |] eqn:El; simpl; try done.
    destruct (store dst d_first c) as [q| |] eqn:Es; simpl; try done.
    intros Hrec. apply store_len in Es as [Hi Hq].
    apply load_inv in El as (b & -> & Hb). apply lookup_lt_Some in Hb.
    apply IH in Hrec as [Hlen Hn]. simpl in *. split; [lia|]. right. lia.
Qed.

Lemma std_copy_src_insert (n : nat) (bs : list (option T)) (i : nat) (c : option T)
  (first : nat) (dst : ptr T) (d_first : nat) :
  (i < first)%nat ->
  std_copy n (Some (<[i := c]> bs)) first dst d_first =
  std_copy n (Some bs) first dst d_first.
Proof.
  revert first dst d_first. induction n as [|n IH]; intros first dst d_first Hi; [done|].
  cbn [std_copy load]. rewrite list_lookup_insert_ne by lia.
  destruct (bs !! first); [|done]. cbn [mbind result_bind].
  destruct (store dst d_first o); cbn [mbind result_bind]; [|done..].
  apply IH. lia.
Qed.

Lemma std_copy_vacate (n k : nat) (src : ptr T) (first0 first : nat) (dst : ptr T)
  (d_first : nat) :
  (first0 + k <= first)%nat ->
  std_copy n (vacate k src first0) first dst d_first = std_copy n src first dst d_first.
Proof.
  revert src first0. induction k as [|k IH]; intros src first0 Hk; [done|].
  simpl. rewrite IH by lia. destruct src as [bs|]; [|done]. simpl.
  apply std_copy_src_insert. lia.
Qed.

Lemma std_move_copy (n : nat) (src : ptr T) (first : nat) (dst : ptr T) (d_first : nat) :
  std_move n src first dst d_first =
  (fun dst' => (vacate n src first, dst')) <$> std_copy n src first dst d_first.
Proof.
  revert src first dst d_first. induction n as [|n IH]; intros src first dst d_first.
  - done.
  - cbn [std_move std_copy vacate].
    destruct (load src first) as [c| |] eqn:El; cbn [mbind result_bind]; [|done..].
    destruct (store dst d_first c) as [q| |] eqn:Es; cbn [mbind result_bind]; [|done..].
    apply load_inv in El as (b & -> & Hb).
    rewrite store_Some by (by eapply lookup_lt_Some). cbn [mbind result_bind].
    rewrite IH. simpl. by rewrite std_copy_src_insert by lia.
Qed.

Lemma std_copy_backward_spec (n : nat) (b : list (option T)) (last : nat) :
  (n <= last)%nat -> (last < length b)%nat ->
  std_copy_backward n (Some b) last (S last) =
  ROk (Some (take (S (last - n)) b ++ take n (drop (last - n) b) ++ drop (S last) b)).
Proof.
  revert b last. induction n as [|n IH]; intros b last Hn Hlast.
  - simpl. by rewrite Nat.sub_0_r, take_drop.
  - destruct last as [|l]; [lia|].
    destruct (lookup_lt_is_Some_2 b l) as [c Hc]; [lia|].
    cbn [std_copy_backward pred]. rewrite (load_Some _ _ _ Hc). cbn [mbind result_bind].
    rewrite store_Some by lia. cbn [mbind result_bind].
    rewrite IH by (rewrite ?length_insert; lia).
    do 2 f_equal. replace (S l - S n)%nat with (l - n)%nat by lia.
    rewrite take_insert_ge by lia.
    rewrite (take_drop_commute (<[S l:=c]> b)), take_insert_ge by lia.
    rewrite <- take_drop_commute.
    rewrite (drop_S (<[S l:=c]> b) c (S l)) by (apply list_lookup_insert_eq; lia).
    rewrite drop_insert_lt by lia.
    rewrite (take_S_r (drop (l - n) b) n c)
      by (rewrite lookup_drop; replace (l - n + n)%nat with l by lia; done).
    by rewrite <- !app_assoc.
Qed.

Lemma std_copy_backward_len (n : nat) (p p' : ptr T) (last d_last : nat) :
  std_copy_backward n p last d_last = ROk p' ->
  block_len p' = block_len p /\ (n = O \/ (pred d_last < block_len p)%nat).
Proof.
  revert p last d_last. induction n as [|n IH]; intros p last d_last; simpl.
  - intros [= <-]. auto.
  - destruct (load p (pred last)) as [c| |]; simpl; try done.
    destruct (store p (pred d_last) c) as [q| |] eqn:Es; simpl; try done.
    intros Hrec. apply store_len in Es as [Hi Hq].
    apply IH in Hrec as [Hlen _]. split; [lia|]. by right.
Qed.

Lemma store_insert_same (b : list (option T)) (i : nat) (c0 c : option T) :
  store (Some (<[i := c0]> b)) i c = store (Some b) i c.
Proof.
  simpl. rewrite length_insert. case_decide; [|done].
  by rewrite list_insert_insert_eq.
Qed.

Lemma std_copy_backward_overwrite (k : nat) (b : list (option T)) (l : nat)
  (x : option T) :
  (1 <= l)%nat ->
  std_copy_backward (S k) (Some (<[l := x]> b)) l (S l) =
  std_copy_backward (S k) (Some b) l (S l).
Proof.
  intros Hl. cbn [std_copy_backward pred load].
  rewrite list_lookup_insert_ne by lia.
  destruct (b !! pred l) as [c|]; [|done]. cbn [mbind result_bind].
  by rewrite store_insert_same.
Qed.

(** [std::move_backward] by one slot is [std::copy_backward] with the
    first source slot left moved-from. *)
Lemma std_move_backward_copy (m : nat) (p : ptr T) (last : nat) :
  (S m <= last)%nat ->
  std_move_backward (S m) p last (S last) =
  (fun q : ptr T => (fun b : list (option T) => <[(last - S m)%nat := None]> b) <$> q)
    <$> std_copy_backward (S m) p last (S last).
Proof.
  revert p last. induction m as [|m IH]; intros p last Hm.
  - destruct last as [|l]; [lia|].
    cbn [std_move_backward std_copy_backward pred].
    destruct (load p l) as [c| |] eqn:El; cbn [mbind result_bind]; [|done..].
    destruct (store p (S l) c) as [q| |] eqn:Es; cbn [mbind result_bind]; [|done..].
    apply load_inv in El as (b & -> & Hb). apply store_inv in Es as (? & [= <-] & Hi & ->).
    rewrite store_Some by (rewrite length_insert; by eapply lookup_lt_Some).
    simpl. by rewrite Nat.sub_0_r.
  - destruct last as [|l]; [lia|].
    remember (S m) as k eqn:Hk.
    cbn [std_move_backward std_copy_backward pred].
    destruct (load p l) as [c| |] eqn:El; cbn [mbind result_bind]; [|done..].
    destruct (store p (S l) c) as [q| |] eqn:Es; cbn [mbind result_bind]; [|done..].
    apply load_inv in El as (b & -> & Hb). apply store_inv in Es as (? & [= <-] & Hi & ->).
    rewrite store_Some by (rewrite length_insert; by eapply lookup_lt_Some).
    cbn [mbind result_bind]. subst k.
    rewrite IH by lia. rewrite std_copy_backward_overwrite by lia.
    by replace (S l - S (S m))%nat with (l - S m)%nat by lia.
Qed.

Lemma erase_loop_spec (n : nat) (b : list (option T)) (begin : nat) :
  (begin + n < length b)%nat ->
  exists b', erase_loop n (Some b) begin = ROk (Some b') /\
    length b' = length b /\
    take (begin + n) b' = take begin b ++ take n (drop (S begin) b).
Proof.
  revert b begin. induction n as [|n IH]; intros b begin Hlen.
  - exists b. simpl. by rewrite Nat.add_0_r, app_nil_r.
  - destruct (lookup_lt_is_Some_2 b (S begin)) as [c Hc]; [lia|].
    cbn [erase_loop]. rewrite (load_Some _ _ _ Hc). cbn [mbind result_bind].
    rewrite store_Some by lia. cbn [mbind result_bind].
    rewrite store_Some by (rewrite length_insert; lia). cbn [mbind result_bind].
    destruct (IH (<[S begin:=None]> (<[begin:=c]> b)) (S begin)) as (b' & -> & Hl & Ht).
    { rewrite !length_insert. lia. }
    exists b'. split; [done|]. rewrite !length_insert in Hl. split; [done|].
    replace (begin + S n)%nat with (S begin + n)%nat by lia. rewrite Ht.
    rewrite take_insert_ge by lia.
    rewrite (take_S_r (<[begin:=c]> b) begin c) by (apply list_lookup_insert_eq; lia).
    rewrite take_insert_ge by lia.
    rewrite !drop_insert_lt by lia.
    rewrite (drop_S b c (S begin)) by done.
    by rewrite <- app_assoc.
Qed.

Lemma erase_loop_len (n : nat) (p p' : ptr T) (begin : nat) :
  erase_loop n p begin = ROk p' -> block_len p' = block_len p.
Proof.
  revert p begin. induction n as [|n IH]; intros p begin; simpl.
  - by intros [= <-].
  - destruct (load p (S begin)) as [c| |]; simpl; try done.
    destruct (store p begin c) as [q| |] eqn:Es; simpl; try done.
    destruct (store q (S begin) None) as [q'| |] eqn:Es'; simpl; try done.
    intros Hrec%IH. apply store_len in Es as [_ Hq]. apply store_len in Es' as [_ Hq'].
    lia.
Qed.

(** ** The overloads taking [Type&&] agree with those taking [const Type&] *)

Lemma PushBack_move_eq (x : T) (v : SimpleVector) :
  PushBack_move (Outside x) v = PushBack (Outside x) v.
Proof.
  unfold PushBack_move, PushBack, mseq, this, lift, assign, mreturn.
  destruct (capacity_ v <=? size_ v); [|done].
  destruct (ArrayPtr.create new_array (increased (capacity_ v))) as [temp| |]; [|done..].
  rewrite std_generate_fill.
  destruct (std_fill _ _ _ _) as [filled| |]; [|done..].
  rewrite std_move_copy.
  destruct (std_copy _ _ _ _ _) as [copied| |]; done.
Qed.

Lemma Insert_move_eq (pos : nat) (x : T) (v : SimpleVector) :
  Insert_move pos (Outside x) v = Insert pos (Outside x) v.
Proof.
  unfold Insert_move, Insert, mseq, this, lift, assign, mreturn.
  destruct (capacity_ v <=? size_ v).
  - destruct (ArrayPtr.create new_array (increased (capacity_ v))) as [temp| |]; [|done..].
    rewrite std_generate_fill.
    destruct (std_fill _ _ _ _) as [filled| |]; [|done..].
    rewrite std_move_copy.
    destruct (std_copy pos _ _ _ _) as [head| |]; [|done..].
    cbn [fmap result_fmap fst snd read_reference moved_from].
    destruct (store head pos (Some x)) as [placed| |]; [|done..].
    destruct (distance pos (end_ v)) as [n| |] eqn:Hn; [|done..].
    rewrite std_move_copy, std_copy_vacate by lia.
    destruct (std_copy n _ _ _ _) as [tail| |]; done.
  - destruct (distance pos (end_ v)) as [n| |] eqn:Hn; [|done..].
    destruct n as [|m]; [done|].
    unfold distance in Hn. case_decide; [|done]. injection Hn as Hn.
    replace (end_ v + 1)%nat with (S (end_ v)) by lia.
    rewrite std_move_backward_copy by lia.
    destruct (std_copy_backward _ _ _ _) as [[shifted|]| |]; [|done..].
    cbn [fmap result_fmap option_fmap option_map].
    replace (end_ v - S m)%nat with pos by lia.
    cbn [read_reference]. rewrite store_insert_same.
    by destruct (store (Some shifted) pos (Some x)).
Qed.

(** ** Allocation *)

Lemma create_ok (n : N) :
  0 < n -> n <= alloc_limit ->
  ArrayPtr.create new_array n = ROk (ArrayPtr.mk (Some (replicate (N.to_nat n) None))).
Proof.
  intros H0 Hn. unfold ArrayPtr.create, new_array.
  destruct (N.eqb_spec n 0); [lia|].
  destruct (N.leb_spec n alloc_limit); [done|lia].
Qed.

Lemma create_len (n : N) (a : ArrayPtr.t (block T)) :
  ArrayPtr.create new_array n = ROk a ->
  block_len (Get a) = N.to_nat n /\ (n = 0 \/ n <= alloc_limit).
Proof.
  unfold ArrayPtr.create, new_array.
  destruct (N.eqb_spec n 0) as [->|Hn].
  - intros [= <-]. auto.
  - destruct (N.leb_spec n alloc_limit); [|done].
    intros [= <-]. simpl. rewrite length_replicate. auto.
Qed.

(** ** Lists of slots *)

Lemma take_succ_insert (l : list (option T)) (s : nat) (c : option T) :
  (s < length l)%nat -> take (S s) (<[s := c]> l) = take s l ++ [c].
Proof.
  intros Hs. rewrite (take_S_r _ _ c) by (apply list_lookup_insert_eq; lia).
  by rewrite take_insert_ge by lia.
Qed.

Lemma Forall_is_Some_fmap (l : list (option T)) :
  Forall is_Some l -> l = Some <$> omap id l.
Proof.
  induction 1 as [|c l [x ->] _ IH]; [done|]. simpl. f_equal. exact IH.
Qed.

(** ** Well-formed vectors *)

Lemma block_len_cells (v : SimpleVector) : block_len (Get (data_ v)) = length (cells v).
Proof. unfold cells. by destruct (Get (data_ v)). Qed.

Lemma block_len_of (p : ptr T) : block_len p = length (block_of p).
Proof. by destruct p. Qed.

Lemma live_length (v : SimpleVector) :
  wf v -> length (live v) = N.to_nat (size_ v).
Proof.
  intros [Hs _ Hb _]. unfold live. rewrite length_take. lia.
Qed.

Lemma live_items (v : SimpleVector) : wf v -> live v = Some <$> items v.
Proof. intros [_ _ _ Hl]. by apply Forall_is_Some_fmap. Qed.

Lemma items_of_live (v : SimpleVector) (l : list T) :
  live v = Some <$> l -> items v = l.
Proof.
  unfold items. intros ->. induction l as [|x l IH]; [done|].
  simpl. f_equal. exact IH.
Qed.

Lemma items_length (v : SimpleVector) :
  wf v -> length (items v) = N.to_nat (size_ v).
Proof.
  intros Hwf. rewrite <- (live_length v Hwf), (live_items v Hwf) at 1.
  by rewrite length_fmap.
Qed.

(** ** The algorithms on pointers that may be null *)

Lemma store_block (p : ptr T) (i : nat) (c : option T) :
  (i < block_len p)%nat -> store p i c = ROk (Some (<[i := c]> (block_of p))).
Proof. destruct p as [b|]; simpl; [|lia]. intros Hi. by rewrite decide_True. Qed.

Lemma std_fill_block (n : nat) (p : ptr T) (first : nat) (value : T) :
  (first + n <= block_len p)%nat ->
  exists p', std_fill n p first value = ROk p' /\
    block_of p' =
    take first (block_of p) ++ replicate n (Some value) ++ drop (first + n) (block_of p).
Proof.
  destruct p as [b|]; simpl; intros Hn.
  - eexists. split; [by apply std_fill_spec|done].
  - assert (n = O) as -> by lia. exists None. simpl. by rewrite take_nil, drop_nil.
Qed.

Lemma std_copy_block (n : nat) (src : ptr T) (first : nat) (dst : ptr T) (d_first : nat) :
  (first + n <= block_len src)%nat -> (d_first + n <= block_len dst)%nat ->
  exists dst', std_copy n src first dst d_first = ROk dst' /\
    block_of dst' =
    take d_first (block_of dst) ++ take n (drop first (block_of src)) ++
    drop (d_first + n) (block_of dst).
Proof.
  intros Hs Hd. destruct n as [|n].
  - exists dst. split; [done|]. simpl. by rewrite Nat.add_0_r, take_drop.
  - destruct src as [bs|], dst as [bd|]; cbn [block_len block_of] in *; try lia.
    eexists. split; [by apply std_copy_spec|done].
Qed.

Lemma std_copy_backward_block (n : nat) (p : ptr T) (last : nat) :
  (n <= last)%nat -> (last < block_len p)%nat ->
  exists p', std_copy_backward n p last (S last) = ROk p' /\
    block_of p' =
    take (S (last - n)) (block_of p) ++ take n (drop (last - n) (block_of p)) ++
    drop (S last) (block_of p).
Proof.
  destruct p as [b|]; simpl; intros Hn Hl; [|lia].
  eexists. split; [by apply std_copy_backward_spec|done].
Qed.

Lemma erase_loop_block (n : nat) (p : ptr T) (begin : nat) :
  (begin + n < block_len p)%nat ->
  exists p', erase_loop n p begin = ROk p' /\
    length (block_of p') = block_len p /\
    take (begin + n) (block_of p') =
    take begin (block_of p) ++ take n (drop (S begin) (block_of p)).
Proof.
  destruct p as [b|]; simpl; intros Hn; [|lia].
  destruct (erase_loop_spec n b begin Hn) as (b' & -> & Hl & Ht).
  by exists (Some b').
Qed.

(** ** [PushBack] *)

Lemma PushBack_ok (x : T) (v : SimpleVector) :
  alloc_limit < SIZE_MODULUS ->
  wf v ->
  (size_ v = capacity_ v -> N.max 1 (capacity_ v * 2) <= alloc_limit) ->
  exists v', PushBack (Outside x) v = Ok tt v' /\
    size_ v' = size_ v + 1 /\
    capacity_ v' =
      (if size_ v =? capacity_ v then N.max 1 (capacity_ v * 2) else capacity_ v) /\
    live v' = live v ++ [Some x] /\
    wf v'.
Proof.
  intros Hfit Hwf Halloc. pose proof (live_length v Hwf) as Hlive.
  destruct Hwf as [Hs Hc Hb Hl].
  unfold PushBack. unfold_method.
  destruct (N.leb_spec (capacity_ v) (size_ v)) as [Hge|Hlt].
  - assert (size_ v = capacity_ v) as Heq by lia. specialize (Halloc Heq).
    rewrite increased_max by lia. set (inc := N.max 1 (capacity_ v * 2)) in *.
    assert (size_ v < inc) as Hinc by (unfold inc; lia).
    rewrite create_ok by lia. vsimpl.
    destruct (std_fill_block (N.to_nat inc) (Some (replicate (N.to_nat inc) None)) 0 Type_)
      as (filled & -> & Hfilled); [simpl; rewrite length_replicate; lia|].
    simpl in Hfilled. rewrite drop_ge, app_nil_r in Hfilled
      by (rewrite length_replicate; lia).
    destruct (std_copy_block (N.to_nat (size_ v)) (Get (data_ v)) 0 filled 0)
      as (copied & -> & Hcopied).
    { rewrite (block_len_cells v). lia. }
    { rewrite block_len_of, Hfilled, length_replicate. lia. }
    rewrite Hfilled, drop_replicate, drop_0 in Hcopied. simpl in Hcopied.
    fold (cells v) in Hcopied. fold (live v) in Hcopied. vsimpl.
    assert (length (live v ++ replicate (N.to_nat inc - N.to_nat (size_ v)) (Some Type_))
            = N.to_nat inc) as Hlen
      by (rewrite length_app, length_replicate, Hlive; lia).
    rewrite store_block by (rewrite block_len_of, Hcopied, Hlen; lia).
    eexists. split; [reflexivity|]. rewrite Hcopied.
    cbn [size_ capacity_]. rewrite incr_small by lia.
    split; [done|]. split; [by rewrite Heq, N.eqb_refl|].
    assert (live {| size_ := size_ v + 1; capacity_ := inc;
                    data_ := ArrayPtr.mk (Some (<[N.to_nat (size_ v) := Some x]>
                      (live v ++ replicate (N.to_nat inc - N.to_nat (size_ v))
                         (Some Type_)))) |}
            = live v ++ [Some x]) as Hnew.
    { unfold live at 1, cells. simpl.
      replace (N.to_nat (size_ v + 1)) with (S (N.to_nat (size_ v))) by lia.
      rewrite take_succ_insert by lia. by rewrite take_app_length'. }
    split; [done|]. split; cbn [size_ capacity_].
    + lia.
    + lia.
    + unfold cells. simpl. rewrite length_insert, Hlen. lia.
    + rewrite Hnew. apply Forall_app. split; [done|]. repeat constructor. by eexists.
  - assert (N.to_nat (size_ v) < length (cells v))%nat as Hroom by lia.
    rewrite store_block by (cbn [Get]; rewrite (block_len_cells v); lia).
    eexists. split; [reflexivity|]. cbn [size_ capacity_].
    rewrite incr_small by lia. split; [done|].
    destruct (N.eqb_spec (size_ v) (capacity_ v)) as [?|_]; [lia|]. split; [done|].
    assert (live {| size_ := size_ v + 1; capacity_ := capacity_ v;
                    data_ := ArrayPtr.mk (Some (<[N.to_nat (size_ v) := Some x]>
                      (block_of (Get (data_ v))))) |}
            = live v ++ [Some x]) as Hnew.
    { unfold live at 1, cells. simpl.
      replace (N.to_nat (size_ v + 1)) with (S (N.to_nat (size_ v))) by lia.
      by rewrite take_succ_insert by done. }
    split; [done|]. split; cbn [size_ capacity_].
    + lia.
    + lia.
    + unfold cells at 1. simpl. rewrite length_insert. done.
    + rewrite Hnew. apply Forall_app. split; [done|]. repeat constructor. by eexists.
Qed.

(** ** [Resize] *)

Lemma Resize_ok (n : N) (v : SimpleVector) :
  alloc_limit < SIZE_MODULUS ->
  wf v ->
  (capacity_ v < n -> n <= alloc_limit) ->
  exists v', Resize n v = Ok tt v' /\
    size_ v' = n /\
    capacity_ v' = (if capacity_ v <? n then n else capacity_ v) /\
    live v' =
      take (N.to_nat n) (live v) ++
      replicate (N.to_nat n - N.to_nat (size_ v)) (Some Type_) /\
    wf v'.
Proof.
  intros Hfit Hwf Halloc. pose proof (live_length v Hwf) as Hlive.
  destruct Hwf as [Hs Hc Hb Hl].
  unfold Resize. unfold_method.
  destruct (N.ltb_spec (capacity_ v) n) as [Hgrow|Hroom].
  - specialize (Halloc Hgrow).
    rewrite create_ok by lia. vsimpl. rewrite std_generate_fill.
    destruct (std_fill_block (N.to_nat n) (Some (replicate (N.to_nat n) None)) 0 Type_)
      as (filled & -> & Hfilled); [simpl; rewrite length_replicate; lia|].
    simpl in Hfilled. rewrite drop_ge, app_nil_r in Hfilled
      by (rewrite length_replicate; lia).
    rewrite std_move_copy.
    destruct (std_copy_block (N.to_nat (size_ v)) (Get (data_ v)) 0 filled 0)
      as (copied & -> & Hcopied).
    { rewrite (block_len_cells v). lia. }
    { rewrite block_len_of, Hfilled, length_replicate. lia. }
    rewrite Hfilled, drop_replicate, drop_0 in Hcopied. simpl in Hcopied.
    fold (cells v) in Hcopied. fold (live v) in Hcopied.
    cbn [fmap result_fmap]. vsimpl.
    assert (length (block_of copied) = N.to_nat n) as Hlen
      by (rewrite Hcopied, length_app, length_replicate, Hlive; lia).
    destruct (N.ltb_spec (size_ v) n) as [_|?]; [|lia].
    rewrite std_generate_fill.
    destruct (std_fill_block (N.to_nat n - N.to_nat (size_ v)) copied
                (N.to_nat (size_ v)) Type_) as (again & -> & Hagain).
    { rewrite block_len_of, Hlen. lia. }
    rewrite Hcopied in Hagain.
    rewrite take_app_length', drop_ge, app_nil_r in Hagain
      by (rewrite ?length_app, ?length_replicate, ?Hlive; lia).
    vsimpl. eexists. split; [reflexivity|]. vsimpl.
    assert (live {| size_ := n; capacity_ := n; data_ := ArrayPtr.mk again |}
            = take (N.to_nat n) (live v) ++
              replicate (N.to_nat n - N.to_nat (size_ v)) (Some Type_)) as Hnew.
    { unfold live at 1, cells. vsimpl. rewrite Hagain.
      rewrite take_ge by (rewrite length_app, length_replicate, Hlive; lia).
      by rewrite (take_ge (live v)) by lia. }
    split; [done|]. split; [done|]. split; [done|]. split; vsimpl.
    + lia.
    + lia.
    + unfold cells. vsimpl. rewrite Hagain, length_app, length_replicate, Hlive. lia.
    + rewrite Hnew, take_ge by lia. apply Forall_app. split; [done|].
      apply Forall_replicate. by eexists.
  - vsimpl. destruct (N.ltb_spec (size_ v) n) as [Hmore|Hless].
    + rewrite std_generate_fill.
      destruct (std_fill_block (N.to_nat n - N.to_nat (size_ v)) (Get (data_ v))
                  (N.to_nat (size_ v)) Type_) as (filled & -> & Hfilled).
      { rewrite (block_len_cells v). lia. }
      fold (cells v) in Hfilled. fold (live v) in Hfilled.
      vsimpl. eexists. split; [reflexivity|]. vsimpl.
      assert (live {| size_ := n; capacity_ := capacity_ v; data_ := ArrayPtr.mk filled |}
              = take (N.to_nat n) (live v) ++
                replicate (N.to_nat n - N.to_nat (size_ v)) (Some Type_)) as Hnew.
      { unfold live at 1, cells. vsimpl. rewrite Hfilled.
        rewrite app_assoc, take_app_length'
          by (rewrite length_app, length_replicate, Hlive; lia).
        by rewrite (take_ge (live v)) by lia. }
      split; [done|]. split; [done|]. split; [done|]. split; vsimpl.
      * lia.
      * lia.
      * unfold cells. vsimpl. rewrite Hfilled, !length_app, length_replicate, Hlive.
        rewrite length_drop. lia.
      * rewrite Hnew, take_ge by lia. apply Forall_app. split; [done|].
        apply Forall_replicate. by eexists.
    + eexists. split; [reflexivity|]. vsimpl.
      assert (live {| size_ := n; capacity_ := capacity_ v; data_ := data_ v |}
              = take (N.to_nat n) (live v) ++
                replicate (N.to_nat n - N.to_nat (size_ v)) (Some Type_)) as Hnew.
      { unfold live, cells. vsimpl.
        replace (N.to_nat n - N.to_nat (size_ v))%nat with O by lia.
        rewrite take_take, app_nil_r. f_equal. lia. }
      split; [done|]. split; [done|]. split; [done|]. split; vsimpl.
      * lia.
      * lia.
      * done.
      * rewrite Hnew. replace (N.to_nat n - N.to_nat (size_ v))%nat with O by lia.
        rewrite app_nil_r. by apply Forall_take.
Qed.

(** ** [Insert] and [Erase] *)

Lemma distance_ok (first last : nat) :
  (first <= last)%nat -> distance first last = ROk (last - first)%nat.
Proof. intros H. unfold distance. by rewrite decide_True. Qed.

Lemma live_take (v : SimpleVector) (k : nat) :
  (k <= N.to_nat (size_ v))%nat -> take k (cells v) = take k (live v).
Proof. intros Hk. unfold live. rewrite take_take. f_equal. lia. Qed.

Lemma live_drop (v : SimpleVector) (k : nat) :
  (k <= N.to_nat (size_ v))%nat ->
  take (N.to_nat (size_ v) - k) (drop k (cells v)) = drop k (live v).
Proof.
  intros Hk. unfold live. rewrite take_drop_commute. do 2 f_equal. lia.
Qed.

Lemma Insert_ok (pos : nat) (x : T) (v : SimpleVector) :
  alloc_limit < SIZE_MODULUS ->
  wf v ->
  (pos <= end_ v)%nat ->
  (size_ v = capacity_ v -> N.max 1 (capacity_ v * 2) <= alloc_limit) ->
  exists v', Insert pos (Outside x) v = Ok pos v' /\
    size_ v' = size_ v + 1 /\
    capacity_ v' =
      (if size_ v =? capacity_ v then N.max 1 (capacity_ v * 2) else capacity_ v) /\
    live v' = take pos (live v) ++ Some x :: drop pos (live v) /\
    wf v'.
Proof.
  intros Hfit Hwf Hpos Halloc. pose proof (live_length v Hwf) as Hlive.
  destruct Hwf as [Hs Hc Hb Hl]. unfold end_ in Hpos.
  assert (Forall is_Some (take pos (live v) ++ Some x :: drop pos (live v))) as Hall.
  { apply Forall_app. split; [by apply Forall_take|].
    constructor; [by eexists|by apply Forall_drop]. }
  unfold Insert. unfold_method. unfold end_.
  destruct (N.leb_spec (capacity_ v) (size_ v)) as [Hge|Hlt].
  - assert (size_ v = capacity_ v) as Heq by lia. specialize (Halloc Heq).
    rewrite increased_max by lia. set (inc := N.max 1 (capacity_ v * 2)) in *.
    assert (size_ v < inc) as Hinc by (unfold inc; lia).
    rewrite create_ok by lia. vsimpl.
    destruct (std_fill_block (N.to_nat inc) (Some (replicate (N.to_nat inc) None)) 0 Type_)
      as (filled & -> & Hfilled); [simpl; rewrite length_replicate; lia|].
    simpl in Hfilled. rewrite drop_ge, app_nil_r in Hfilled
      by (rewrite length_replicate; lia).
    destruct (std_copy_block pos (Get (data_ v)) 0 filled 0) as (head & -> & Hhead).
    { rewrite (block_len_cells v). lia. }
    { rewrite block_len_of, Hfilled, length_replicate. lia. }
    rewrite Hfilled, drop_replicate, drop_0 in Hhead. simpl in Hhead.
    fold (cells v) in Hhead. rewrite live_take in Hhead by lia.
    assert (length (take pos (live v)) = pos) as Hpre by (rewrite length_take; lia).
    assert (length (block_of head) = N.to_nat inc) as Hlen
      by (rewrite Hhead, length_app, length_replicate, Hpre; lia).
    rewrite store_block by (rewrite block_len_of, Hlen; lia).
    rewrite distance_ok by lia.
    destruct (std_copy_block (N.to_nat (size_ v) - pos) (Get (data_ v)) pos
                (Some (<[pos:=Some x]> (block_of head))) (pos + 1)) as (tail & -> & Htail).
    { rewrite (block_len_cells v). lia. }
    { simpl. rewrite length_insert, Hlen. lia. }
    fold (cells v) in Htail. rewrite live_drop in Htail by lia.
    simpl in Htail. replace (pos + 1)%nat with (S pos) in Htail by lia.
    rewrite take_succ_insert in Htail by lia.
    rewrite Hhead, take_app_length' in Htail by done.
    vsimpl. eexists. split; [reflexivity|]. vsimpl.
    rewrite incr_small by lia. split; [done|]. split; [by rewrite Heq, N.eqb_refl|].
    assert (length (drop pos (live v)) = (N.to_nat (size_ v) - pos)%nat) as Hsuf
      by (rewrite length_drop; lia).
    assert (live {| size_ := size_ v + 1; capacity_ := inc; data_ := ArrayPtr.mk tail |}
            = take pos (live v) ++ Some x :: drop pos (live v)) as Hnew.
    { unfold live at 1, cells. vsimpl. rewrite Htail, app_assoc.
      rewrite take_app_length'; [by rewrite <- app_assoc|].
      rewrite !length_app, Hpre, Hsuf. simpl. lia. }
    split; [by rewrite Hnew|]. split; vsimpl.
    + lia.
    + lia.
    + unfold cells. vsimpl. rewrite Htail, !length_app, Hpre, Hsuf, length_drop.
      rewrite length_insert, length_app, Hpre, length_replicate. simpl. lia.
    + by rewrite Hnew.
  - assert (N.to_nat (size_ v) < length (cells v))%nat as Hroom by lia.
    rewrite distance_ok by lia.
    replace (N.to_nat (size_ v) + 1)%nat with (S (N.to_nat (size_ v))) by lia.
    destruct (std_copy_backward_block (N.to_nat (size_ v) - pos) (Get (data_ v))
                (N.to_nat (size_ v))) as (shifted & -> & Hshifted).
    { lia. }
    { rewrite (block_len_cells v). lia. }
    fold (cells v) in Hshifted.
    replace (N.to_nat (size_ v) - (N.to_nat (size_ v) - pos))%nat with pos
      in Hshifted by lia.
    rewrite live_drop in Hshifted by lia.
    assert (length (drop pos (live v)) = (N.to_nat (size_ v) - pos)%nat) as Hsuf
      by (rewrite length_drop; lia).
    assert (length (block_of shifted) = length (cells v)) as Hlen.
    { rewrite Hshifted, !length_app, length_take, Hsuf, length_drop. lia. }
    rewrite store_block by (rewrite block_len_of, Hlen; lia).
    vsimpl. eexists. split; [reflexivity|]. vsimpl.
    rewrite incr_small by lia. split; [done|].
    destruct (N.eqb_spec (size_ v) (capacity_ v)) as [?|_]; [lia|]. split; [done|].
    assert (live {| size_ := size_ v + 1; capacity_ := capacity_ v;
                    data_ := ArrayPtr.mk (Some (<[pos:=Some x]> (block_of shifted))) |}
            = take pos (live v) ++ Some x :: drop pos (live v)) as Hnew.
    { unfold live at 1, cells. vsimpl. cbn [block_of]. rewrite Hshifted.
      rewrite insert_app_l by (rewrite length_take; lia).
      rewrite <- take_insert_lt by lia.
      rewrite take_succ_insert by lia. rewrite live_take by lia.
      rewrite <- !app_assoc, !app_assoc. rewrite take_app_length'; [|].
      - by rewrite <- app_assoc.
      - rewrite !length_app, length_take, Hsuf. simpl. lia. }
    split; [by rewrite Hnew|]. split; vsimpl.
    + lia.
    + lia.
    + unfold cells. vsimpl. cbn [block_of]. rewrite length_insert, Hlen. done.
    + by rewrite Hnew.
Qed.

Lemma Erase_ok (pos : nat) (v : SimpleVector) :
  wf v ->
  (pos < end_ v)%nat ->
  exists v', Erase pos v = Ok pos v' /\
    size_ v' = size_ v - 1 /\
    capacity_ v' = capacity_ v /\
    live v' = take pos (live v) ++ drop (S pos) (live v) /\
    wf v'.
Proof.
  intros Hwf Hpos. pose proof (live_length v Hwf) as Hlive.
  destruct Hwf as [Hs Hc Hb Hl]. unfold end_ in Hpos.
  unfold Erase. unfold_method. unfold end_.
  destruct (N.eqb_spec (size_ v) 0) as [?|Hne]; [lia|].
  rewrite distance_ok by lia.
  destruct (erase_loop_block (pred (N.to_nat (size_ v)) - pos) (Get (data_ v)) pos)
    as (shifted & -> & Hlen & Hshifted).
  { rewrite (block_len_cells v). lia. }
  rewrite (block_len_cells v) in Hlen. fold (cells v) in Hshifted.
  replace (pos + (pred (N.to_nat (size_ v)) - pos))%nat
    with (pred (N.to_nat (size_ v))) in Hshifted by lia.
  vsimpl. eexists. split; [reflexivity|]. vsimpl.
  rewrite decr_pos by lia. split; [done|]. split; [done|].
  assert (live {| size_ := size_ v - 1; capacity_ := capacity_ v;
                  data_ := ArrayPtr.mk shifted |}
          = take pos (live v) ++ drop (S pos) (live v)) as Hnew.
  { unfold live at 1, cells. vsimpl.
    replace (N.to_nat (size_ v - 1)) with (pred (N.to_nat (size_ v))) by lia.
    rewrite Hshifted, live_take by lia. f_equal.
    rewrite <- live_drop by lia. f_equal. lia. }
  split; [done|]. split; vsimpl.
  - lia.
  - lia.
  - unfold cells. vsimpl. by rewrite Hlen.
  - rewrite Hnew. apply Forall_app. split; [by apply Forall_take|by apply Forall_drop].
Qed.

(** ** [Reserve], [PopBack] and [Clear] *)

Lemma Reserve_ok (n : N) (v : SimpleVector) :
  alloc_limit < SIZE_MODULUS ->
  wf v ->
  (capacity_ v < n -> n <= alloc_limit) ->
  exists v', Reserve n v = Ok tt v' /\
    size_ v' = size_ v /\
    capacity_ v' = N.max (capacity_ v) n /\
    live v' = live v /\
    wf v'.
Proof.
  intros Hfit Hwf Halloc. pose proof (live_length v Hwf) as Hlive.
  destruct Hwf as [Hs Hc Hb Hl].
  unfold Reserve. unfold_method.
  destruct (N.leb_spec n (capacity_ v)) as [Hle|Hgt].
  - exists v. split; [done|]. split; [done|]. split; [lia|]. split; [done|].
    by split.
  - specialize (Halloc Hgt). rewrite create_ok by lia. vsimpl.
    destruct (std_fill_block (N.to_nat (capacity_ v))
                (Some (replicate (N.to_nat n) None)) 0 Type_)
      as (filled & -> & Hfilled); [simpl; rewrite length_replicate; lia|].
    simpl in Hfilled. rewrite drop_replicate in Hfilled.
    assert (length (block_of filled) = N.to_nat n) as Hlen
      by (rewrite Hfilled, length_app, !length_replicate; lia).
    destruct (std_copy_block (N.to_nat (size_ v)) (Get (data_ v)) 0 filled 0)
      as (copied & -> & Hcopied).
    { rewrite (block_len_cells v). lia. }
    { rewrite block_len_of, Hlen. lia. }
    rewrite drop_0 in Hcopied. simpl in Hcopied.
    fold (cells v) in Hcopied. fold (live v) in Hcopied.
    vsimpl. eexists. split; [reflexivity|]. vsimpl.
    split; [done|]. split; [lia|].
    assert (live {| size_ := size_ v; capacity_ := n; data_ := ArrayPtr.mk copied |}
            = live v) as Hnew.
    { unfold live at 1, cells. vsimpl. rewrite Hcopied. by apply take_app_length'. }
    split; [done|]. split; vsimpl.
    + lia.
    + lia.
    + unfold cells. vsimpl.
      rewrite Hcopied, length_app, Hlive, length_drop, Hlen. lia.
    + by rewrite Hnew.
Qed.

Lemma PopBack_ok (v : SimpleVector) :
  wf v -> 0 < size_ v ->
  exists v', PopBack v = Ok tt v' /\
    size_ v' = size_ v - 1 /\ capacity_ v' = capacity_ v /\
    live v' = take (N.to_nat (size_ v) - 1) (live v) /\
    wf v'.
Proof.
  intros [Hs Hc Hb Hl] Hpos. unfold PopBack. unfold_method.
  eexists. split; [reflexivity|]. vsimpl. rewrite decr_pos by lia.
  assert (live {| size_ := size_ v - 1; capacity_ := capacity_ v; data_ := data_ v |}
          = take (N.to_nat (size_ v) - 1) (live v)) as Hnew.
  { unfold live, cells. vsimpl. rewrite take_take. f_equal. lia. }
  split; [done|]. split; [done|]. split; [done|]. split; vsimpl.
  - lia.
  - lia.
  - done.
  - rewrite Hnew. by apply Forall_take.
Qed.

Lemma Clear_ok (v : SimpleVector) :
  wf v ->
  exists v', Clear v = Ok tt v' /\
    size_ v' = 0 /\ capacity_ v' = capacity_ v /\ cells v' = cells v /\ wf v'.
Proof.
  intros [Hs Hc Hb Hl]. unfold Clear. unfold_method.
  eexists. split; [reflexivity|]. vsimpl. do 3 (split; [done|]). split; vsimpl.
  - lia.
  - lia.
  - done.
  - unfold live. vsimpl. change (N.to_nat 0) with O. by rewrite take_0.
Qed.

(** On a well-formed vector every operation called with its
    precondition returns, leaving a well-formed vector, provided the
    allocation it may need succeeds. *)

(** ** Only allocation throws *)

Lemma load_no_throw (p : ptr T) (i : nat) (e : exn) : load p i = RThrow e -> False.
Proof. destruct p as [b|]; simpl; [|done]. by destruct (b !! i). Qed.

Lemma store_no_throw (p : ptr T) (i : nat) (c : option T) (e : exn) :
  store p i c = RThrow e -> False.
Proof. destruct p as [b|]; simpl; [|done]. by case_decide. Qed.

Lemma distance_no_throw (first last : nat) (e : exn) :
  distance first last = RThrow e -> False.
Proof. unfold distance. by case_decide. Qed.

Lemma std_fill_no_throw (n : nat) (p : ptr T) (first : nat) (value : T) (e : exn) :
  std_fill n p first value = RThrow e -> False.
Proof.
  revert p first. induction n as [|n IH]; intros p first; simpl; [done|].
  destruct (store p first (Some value)) as [q| |] eqn:Es; simpl; [by eauto| |done].
  intros [= <-]. by eapply store_no_throw.
Qed.

Lemma std_copy_no_throw (n : nat) (src : ptr T) (first : nat) (dst : ptr T)
  (d_first : nat) (e : exn) :
  std_copy n src first dst d_first = RThrow e -> False.
Proof.
  revert dst first d_first. induction n as [|n IH]; intros dst first d_first; simpl; [done|].
  destruct (load src first) as [c| |] eqn:El; simpl;
    [|intros [= <-]; by eapply load_no_throw|done].
  destruct (store dst d_first c) as [q| |] eqn:Es; simpl; [by eauto| |done].
  intros [= <-]. by eapply store_no_throw.
Qed.

Lemma std_copy_backward_no_throw (n : nat) (p : ptr T) (last d_last : nat) (e : exn) :
  std_copy_backward n p last d_last = RThrow e -> False.
Proof.
  revert p last d_last. induction n as [|n IH]; intros p last d_last; simpl; [done|].
  destruct (load p (pred last)) as [c| |] eqn:El; simpl;
    [|intros [= <-]; by eapply load_no_throw|done].
  destruct (store p (pred d_last) c) as [q| |] eqn:Es; simpl; [by eauto| |done].
  intros [= <-]. by eapply store_no_throw.
Qed.

Lemma erase_loop_no_throw (n : nat) (p : ptr T) (begin : nat) (e : exn) :
  erase_loop n p begin = RThrow e -> False.
Proof.
  revert p begin. induction n as [|n IH]; intros p begin; simpl; [done|].
  destruct (load p (S begin)) as [c| |] eqn:El; simpl;
    [|intros [= <-]; by eapply load_no_throw|done].
  destruct (store p begin c) as [q| |] eqn:Es; simpl;
    [|intros [= <-]; by eapply store_no_throw|done].
  destruct (store q (S begin) None) as [q'| |] eqn:Es'; simpl; [by eauto| |done].
  intros [= <-]. by eapply store_no_throw.
Qed.

Lemma read_reference_no_throw (element : reference T) (buffer : option (ptr T))
  (e : exn) : read_reference element buffer = RThrow e -> False.
Proof.
  destruct element as [x|i]; [done|]. destruct buffer as [p|]; [|done].
  apply load_no_throw.
Qed.

Lemma moved_from_no_throw (element : reference T) (p : ptr T) (e : exn) :
  moved_from element p = RThrow e -> False.
Proof. destruct element as [x|i]; [done|]. apply store_no_throw. Qed.

Create HintDb no_throw.
#[local] Hint Resolve load_no_throw store_no_throw distance_no_throw std_fill_no_throw
  std_copy_no_throw std_copy_backward_no_throw erase_loop_no_throw
  read_reference_no_throw moved_from_no_throw : no_throw.

(** The case of a step that throws: either the object is as before, or
    the step is one that cannot throw. *)
Ltac throw_case := first [ by intros [= <-] | exfalso; eauto with no_throw ].

(** ** Arguments that are elements of the vector *)

Lemma cells_of_items (v : SimpleVector) (i : nat) (x : T) :
  wf v -> items v !! i = Some x -> block_of (Get (data_ v)) !! i = Some (Some x).
Proof.
  intros Hwf Hi. fold (cells v).
  assert (live v !! i = Some (Some x)) as Hlive
    by (rewrite (live_items v Hwf), list_lookup_fmap, Hi; done).
  unfold live in Hlive. by apply lookup_take_Some in Hlive as [? _].
Qed.

(** In place, [PushBack] of an element stores the value of that
    element. *)
Lemma PushBack_Slot (i : nat) (y : T) (v : SimpleVector) :
  size_ v < capacity_ v -> block_of (Get (data_ v)) !! i = Some (Some y) ->
  PushBack (Slot i) v = PushBack (Outside y) v.
Proof.
  intros Hroom Hi. unfold PushBack. unfold_method.
  destruct (N.leb_spec (capacity_ v) (size_ v)); [lia|].
  cbn [read_reference]. by rewrite (load_block _ _ _ Hi).
Qed.

(** When it reallocates, [PushBack] of an element reads the element in
    the buffer it has just deleted: the call throws (the allocation
    refused, the vector unchanged) or its behaviour is undefined. *)
Lemma PushBack_Slot_full (i : nat) (v : SimpleVector) :
  capacity_ v <= size_ v ->
  (forall v', state_after (PushBack (Slot i) v) = Some v' -> v' = v) /\
  (forall v', state_after (PushBack_move (Slot i) v) = Some v' -> v' = v) /\
  (increased (capacity_ v) <= alloc_limit ->
   PushBack (Slot i) v = Undefined /\ PushBack_move (Slot i) v = Undefined).
Proof.
  intros Hfull.
  assert (forall g, std_generate (N.to_nat (increased (capacity_ v)))
                      g 0 (fun _ => Type_) =
                    std_fill (N.to_nat (increased (capacity_ v))) g 0 Type_) as Hgen
    by (intros g; apply std_generate_fill).
  unfold PushBack_move, PushBack. unfold_method.
  destruct (N.leb_spec (capacity_ v) (size_ v)); [|lia].
  destruct (ArrayPtr.create _ _) as [temp| |] eqn:Ec.
  - rewrite Hgen. destruct (std_fill _ _ _ _) as [filled| |] eqn:Ef.
    + rewrite std_move_copy.
      destruct (std_copy _ _ _ _ _) as [copied| |] eqn:Ecp; cbn.
      * done.
      * exfalso; eauto with no_throw.
      * done.
    + exfalso; eauto with no_throw.
    + done.
  - split; [by intros v' [= <-]|]. split; [by intros v' [= <-]|].
    intros Hn. exfalso. unfold ArrayPtr.create, new_array in Ec.
    destruct (_ =? 0); [done|].
    by destruct (N.leb_spec (increased (capacity_ v)) alloc_limit); [|lia].
  - done.
Qed.

Lemma shifted_lookup (b : list (option T)) (n last i : nat) :
  (n <= last)%nat -> (last < length b)%nat -> (i <= last)%nat ->
  (take (S (last - n)) b ++ take n (drop (last - n) b) ++ drop (S last) b) !! i =
  b !! (if decide (i <= last - n)%nat then i else (i - 1)%nat).
Proof.
  intros Hn Hlast Hi. case_decide as Hle.
  - rewrite lookup_app_l by (rewrite length_take; lia). apply lookup_take_lt. lia.
  - rewrite lookup_app_r by (rewrite length_take; lia).
    rewrite length_take, Nat.min_l by lia.
    rewrite lookup_app_l by (rewrite length_take, length_drop; lia).
    rewrite lookup_take_lt by lia. rewrite lookup_drop. f_equal. lia.
Qed.

(** [Insert] of an element stores the value it finds in the slot when it
    reads it: that of the element, except in place with the element
    behind the position, where the shift has put the element before it
    there. *)
Lemma Insert_Slot (pos i : nat) (y : T) (v : SimpleVector) :
  wf v -> (pos <= end_ v)%nat -> (i < end_ v)%nat ->
  items v !! (if (size_ v <? capacity_ v) && (pos <? i)%nat then (i - 1)%nat else i)
    = Some y ->
  Insert pos (Slot i) v = Insert pos (Outside y) v.
Proof.
  intros Hwf Hpos Hi Hy. unfold Insert. unfold_method.
  pose proof (wf_block v Hwf) as Hbk. pose proof (wf_size v Hwf) as Hsc.
  destruct (N.leb_spec (capacity_ v) (size_ v)) as [Hfull|Hroom].
  - destruct (N.ltb_spec (size_ v) (capacity_ v)); [lia|]. cbn [andb] in Hy.
    by rewrite (load_block _ _ _ (cells_of_items v i y Hwf Hy)).
  - destruct (N.ltb_spec (size_ v) (capacity_ v)); [|lia]. cbn [andb] in Hy.
    unfold distance. rewrite decide_True by done. cbn.
    replace (end_ v + 1)%nat with (S (end_ v)) by lia.
    destruct (std_copy_backward_block (end_ v - pos) (Get (data_ v)) (end_ v))
      as (shifted & -> & Hshifted); [lia| |].
    { rewrite block_len_cells. unfold end_. lia. }
    assert (block_of shifted !! i = Some (Some y)) as Hload.
    { rewrite Hshifted, shifted_lookup; [| lia | | lia].
      2:{ fold (cells v). unfold end_. lia. }
      replace (end_ v - (end_ v - pos))%nat with pos by lia.
      apply (cells_of_items v _ y Hwf).
      destruct (Nat.ltb_spec pos i); case_decide; try lia; done. }
    by rewrite (load_block _ _ _ Hload).
Qed.

Lemma referent_names (element : reference T) (x : T) (v : SimpleVector) :
  wf v -> referent element v = Some x -> names_element element v.
Proof.
  intros Hwf Hx. destruct element as [y|i]; [done|]. cbn in *.
  apply lookup_lt_Some in Hx. pose proof (items_length v Hwf). unfold end_. lia.
Qed.

Lemma PushBack_reference_ok (element : reference T) (x : T) (v : SimpleVector) :
  alloc_limit < SIZE_MODULUS ->
  wf v ->
  (size_ v = capacity_ v -> N.max 1 (capacity_ v * 2) <= alloc_limit) ->
  referent element v = Some x ->
  is_temporary element \/ size_ v < capacity_ v ->
  exists v', PushBack element v = Ok tt v' /\
    size_ v' = size_ v + 1 /\
    capacity_ v' =
      (if size_ v =? capacity_ v then N.max 1 (capacity_ v * 2) else capacity_ v) /\
    live v' = live v ++ [Some x] /\
    wf v'.
Proof.
  intros Hfit Hwf Halloc Hx Hsafe. destruct element as [y|i].
  - injection Hx as ->. by apply PushBack_ok.
  - destruct Hsafe as [[]|Hroom].
    rewrite (PushBack_Slot i x) by (done || by apply cells_of_items).
    by apply PushBack_ok.
Qed.

(** The value [Insert(pos, element)] stores: the value [element] has
    when it is read. *)
Lemma Insert_reference_ok (pos : nat) (element : reference T) (x : T) (v : SimpleVector) :
  alloc_limit < SIZE_MODULUS ->
  wf v ->
  (pos <= end_ v)%nat ->
  (size_ v = capacity_ v -> N.max 1 (capacity_ v * 2) <= alloc_limit) ->
  names_element element v ->
  match element with
  | Outside y => y = x
  | Slot i =>
      items v !! (if (size_ v <? capacity_ v) && (pos <? i)%nat then (i - 1)%nat else i)
        = Some x
  end ->
  exists v', Insert pos element v = Ok pos v' /\
    size_ v' = size_ v + 1 /\
    capacity_ v' =
      (if size_ v =? capacity_ v then N.max 1 (capacity_ v * 2) else capacity_ v) /\
    live v' = take pos (live v) ++ Some x :: drop pos (live v) /\
    wf v'.
Proof.
  intros Hfit Hwf Hpos Halloc Hel Hx. destruct element as [y|i].
  - subst y. by apply Insert_ok.
  - rewrite (Insert_Slot pos i x) by done. by apply Insert_ok.
Qed.

Lemma perform_returns (o : operation) (v : SimpleVector) :
  alloc_limit < SIZE_MODULUS ->
  wf v -> precondition o v -> allocation_succeeds o v ->
  ~ reads_deleted_buffer o v ->
  exists v', perform o v = Some v' /\ wf v'.
Proof.
  intros Hfit Hwf Hpre Halloc Hkept.
  pose proof (items_length v Hwf) as Hlen.
  destruct o as [[x|i]|[x|i]| |pos [x|i]|pos [x|i]|pos|n|n| ];
    cbn [perform precondition allocation_succeeds reads_deleted_buffer
         names_element is_temporary] in *; try done.
  - destruct (PushBack_ok x v Hfit Hwf Halloc) as (v' & -> & _ & _ & _ & Hwf').
    by exists v'.
  - destruct (lookup_lt_is_Some_2 (items v) i) as [y Hy]; [unfold end_ in Hpre; lia|].
    rewrite (PushBack_Slot i y) by (by apply cells_of_items || lia).
    destruct (PushBack_ok y v Hfit Hwf Halloc) as (v' & -> & _ & _ & _ & Hwf').
    by exists v'.
  - rewrite PushBack_move_eq.
    destruct (PushBack_ok x v Hfit Hwf Halloc) as (v' & -> & _ & _ & _ & Hwf').
    by exists v'.
  - destruct (PopBack_ok v Hwf Hpre) as (v' & -> & _ & _ & _ & Hwf'). by exists v'.
  - destruct (Insert_ok pos x v Hfit Hwf) as (v' & -> & _ & _ & _ & Hwf');
      [lia|done|]. by exists v'.
  - destruct Hpre as [Hpos Hi].
    destruct (lookup_lt_is_Some_2 (items v)
                (if (size_ v <? capacity_ v) && (pos <? i)%nat then (i - 1)%nat else i))
      as [y Hy]; [unfold end_ in Hi; destruct (_ && _); lia|].
    rewrite (Insert_Slot pos i y) by (done || lia).
    destruct (Insert_ok pos y v Hfit Hwf) as (v' & -> & _ & _ & _ & Hwf');
      [lia|done|]. by exists v'.
  - rewrite Insert_move_eq.
    destruct (Insert_ok pos x v Hfit Hwf) as (v' & -> & _ & _ & _ & Hwf');
      [lia|done|]. by exists v'.
  - by destruct Hpre.
  - destruct (Erase_ok pos v Hwf) as (v' & -> & _ & _ & _ & Hwf'); [lia|].
    by exists v'.
  - destruct (Resize_ok n v Hfit Hwf Halloc) as (v' & -> & _ & _ & _ & Hwf').
    by exists v'.
  - destruct (Reserve_ok n v Hfit Hwf Halloc) as (v' & -> & _ & _ & _ & Hwf').
    by exists v'.
  - destruct (Clear_ok v Hwf) as (v' & -> & _ & _ & _ & Hwf'). by exists v'.
Qed.

(** ** Every returning call keeps the size within the buffer *)

Lemma wf_sized (v : SimpleVector) : wf v -> sized v.
Proof. intros [Hs Hc Hb _]. unfold sized. lia. Qed.

Lemma sized_le (v : SimpleVector) : sized v -> size_ v <= capacity_ v.
Proof. unfold sized. lia. Qed.

Lemma PushBack_sized (element : reference T) (v v' : SimpleVector) :
  sized v -> state_after (PushBack element v) = Some v' -> sized v'.
Proof.
  intros Hv. unfold PushBack. unfold_method.
  destruct (N.leb_spec (capacity_ v) (size_ v)) as [Hge|Hlt].
  - pose proof (increased_lt (capacity_ v)) as Hinc.
    destruct (ArrayPtr.create _ _) as [temp| |] eqn:Ec;
      [|throw_case|done].
    destruct (std_fill _ _ _ _) as [filled| |] eqn:Ef; [|throw_case|done].
    destruct (std_copy _ _ _ _ _) as [copied| |] eqn:Ecp; [|throw_case|done].
    vsimpl.
    destruct (read_reference _ _) as [c| |] eqn:Er; [|throw_case|done].
    destruct (store _ _ _) as [written| |] eqn:Es; [|throw_case|done].
    intros [= <-].
    apply create_len in Ec as [Ec _]. apply std_fill_len in Ef as [Ef _].
    apply std_copy_len in Ecp as [Ecp _]. apply store_len in Es as [Hi Es].
    unfold sized, cells in *. vsimpl. rewrite <- block_len_of in *.
    rewrite incr_small by lia. lia.
  - destruct (read_reference _ _) as [c| |] eqn:Er; [|throw_case|done].
    destruct (store _ _ _) as [written| |] eqn:Es; [|throw_case|done].
    intros [= <-]. apply store_len in Es as [Hi Es].
    unfold sized, cells in *. vsimpl. rewrite <- block_len_of in *.
    rewrite incr_small by lia. lia.
Qed.

Lemma Insert_sized (pos : nat) (element : reference T) (v v' : SimpleVector) :
  sized v -> state_after (Insert pos element v) = Some v' -> sized v'.
Proof.
  intros Hv. unfold Insert. unfold_method. unfold end_.
  destruct (N.leb_spec (capacity_ v) (size_ v)) as [Hge|Hlt].
  - pose proof (increased_lt (capacity_ v)) as Hinc.
    destruct (ArrayPtr.create _ _) as [temp| |] eqn:Ec;
      [|throw_case|done].
    destruct (std_fill _ _ _ _) as [filled| |] eqn:Ef; [|throw_case|done].
    destruct (std_copy pos _ _ _ _) as [head| |] eqn:Eh; [|throw_case|done].
    destruct (read_reference _ _) as [c| |] eqn:Er; [|throw_case|done].
    destruct (store _ _ _) as [placed| |] eqn:Es; [|throw_case|done].
    destruct (distance _ _) as [n| |] eqn:En; [|throw_case|done].
    destruct (std_copy n _ _ _ _) as [tail| |] eqn:Et; [|throw_case|done].
    vsimpl. intros [= <-].
    unfold distance in En. case_decide; [|done]. injection En as <-.
    apply create_len in Ec as [Ec _]. apply std_fill_len in Ef as [Ef _].
    apply std_copy_len in Eh as [Eh _]. apply store_len in Es as [Hi Es].
    apply std_copy_len in Et as [Et Hn].
    unfold sized, cells in *. vsimpl. rewrite <- block_len_of in *.
    rewrite incr_small by lia. lia.
  - destruct (distance _ _) as [n| |] eqn:En; [|throw_case|done].
    destruct (std_copy_backward _ _ _ _) as [shifted| |] eqn:Eb; [|throw_case|done].
    destruct (read_reference _ _) as [c| |] eqn:Er; [|throw_case|done].
    destruct (store _ _ _) as [placed| |] eqn:Es; [|throw_case|done].
    vsimpl. intros [= <-].
    unfold distance in En. case_decide; [|done]. injection En as <-.
    apply std_copy_backward_len in Eb as [Eb Hn]. apply store_len in Es as [Hi Es].
    replace (pred (N.to_nat (size_ v) + 1)) with (N.to_nat (size_ v)) in Hn by lia.
    unfold sized, cells in *. vsimpl. rewrite <- block_len_of in *.
    rewrite incr_small by lia. lia.
Qed.

Lemma Erase_sized (pos : nat) (v v' : SimpleVector) :
  sized v -> state_after (Erase pos v) = Some v' -> sized v'.
Proof.
  intros Hv. unfold Erase. unfold_method.
  destruct (N.eqb_spec (size_ v) 0) as [?|Hne]; [done|].
  destruct (distance _ _) as [n| |] eqn:En; [|throw_case|done].
  destruct (erase_loop _ _ _) as [shifted| |] eqn:Ee; [|throw_case|done].
  vsimpl. intros [= <-]. apply erase_loop_len in Ee.
  unfold sized, cells in *. vsimpl. rewrite <- block_len_of in *.
  rewrite decr_pos by lia. lia.
Qed.

Lemma Resize_sized (n : N) (v v' : SimpleVector) :
  n < SIZE_MODULUS ->
  sized v -> state_after (Resize n v) = Some v' -> sized v'.
Proof.
  intros Hfit Hv. unfold Resize. unfold_method.
  destruct (N.ltb_spec (capacity_ v) n) as [Hgrow|Hroom].
  - destruct (ArrayPtr.create _ _) as [temp| |] eqn:Ec;
      [|throw_case|done].
    rewrite std_generate_fill.
    destruct (std_fill _ _ _ _) as [filled| |] eqn:Ef; [|throw_case|done].
    rewrite std_move_copy.
    destruct (std_copy _ _ _ _ _) as [copied| |] eqn:Ecp; [|throw_case|done].
    cbn [fmap result_fmap]. vsimpl.
    apply create_len in Ec as [Ec Hn]. apply std_fill_len in Ef as [Ef _].
    apply std_copy_len in Ecp as [Ecp _].
    destruct (N.ltb_spec (size_ v) n) as [_|?].
    + rewrite std_generate_fill.
      destruct (std_fill _ copied _ _) as [again| |] eqn:Ea; [|throw_case|done].
      vsimpl. intros [= <-]. apply std_fill_len in Ea as [Ea _].
      unfold sized, cells in *. vsimpl. rewrite <- block_len_of in *. lia.
    + vsimpl. intros [= <-].
      unfold sized, cells in *. vsimpl. rewrite <- block_len_of in *. lia.
  - vsimpl. destruct (N.ltb_spec (size_ v) n) as [Hmore|Hless].
    + rewrite std_generate_fill.
      destruct (std_fill _ _ _ _) as [filled| |] eqn:Ef; [|throw_case|done].
      vsimpl. intros [= <-]. apply std_fill_len in Ef as [Ef Hn].
      unfold sized, cells in *. vsimpl. rewrite <- block_len_of in *. lia.
    + intros [= <-]. unfold sized, cells in *. vsimpl. lia.
Qed.

Lemma Reserve_sized (n : N) (v v' : SimpleVector) :
  n < SIZE_MODULUS ->
  sized v -> state_after (Reserve n v) = Some v' -> sized v'.
Proof.
  intros Hfit Hv. unfold Reserve. unfold_method.
  destruct (N.leb_spec n (capacity_ v)) as [Hle|Hgt]; [by intros [= <-]|].
  destruct (ArrayPtr.create _ _) as [new_data| |] eqn:Ec; [|throw_case|done].
  destruct (std_fill _ _ _ _) as [filled| |] eqn:Ef; [|throw_case|done].
  destruct (std_copy _ _ _ _ _) as [copied| |] eqn:Ecp; [|throw_case|done].
  vsimpl. intros [= <-].
  apply create_len in Ec as [Ec Hn]. apply std_fill_len in Ef as [Ef _].
  apply std_copy_len in Ecp as [Ecp _].
  unfold sized, cells in *. vsimpl. rewrite <- block_len_of in *. lia.
Qed.

Lemma PopBack_sized (v v' : SimpleVector) :
  sized v -> 0 < size_ v -> state_after (PopBack v) = Some v' -> sized v'.
Proof.
  intros Hv Hpos. unfold PopBack. unfold_method. intros [= <-].
  unfold sized, cells in *. vsimpl. rewrite decr_pos by lia. lia.
Qed.

Lemma Clear_sized (v v' : SimpleVector) :
  sized v -> state_after (Clear v) = Some v' -> sized v'.
Proof.
  intros Hv. unfold Clear. unfold_method. intros [= <-].
  unfold sized, cells in *. vsimpl. lia.
Qed.

Lemma perform_sized (o : operation) (v v' : SimpleVector) :
  sized v -> precondition o v -> perform o v = Some v' -> sized v'.
Proof.
  intros Hv Hpre. destruct o as [x|[x|i]| |pos x|pos [x|i]|pos|n|n| ]; simpl;
    cbn [precondition is_temporary] in Hpre; try (by destruct Hpre).
  - by apply PushBack_sized.
  - rewrite PushBack_move_eq. by apply PushBack_sized.
  - by apply PopBack_sized.
  - by apply Insert_sized.
  - rewrite Insert_move_eq. by apply Insert_sized.
  - by apply Erase_sized.
  - by apply Resize_sized.
  - by apply Reserve_sized.
  - by apply Clear_sized.
Qed.

Lemma default_sized : sized SimpleVector_default.
Proof. unfold sized, cells. simpl. unfold SIZE_MODULUS. lia. Qed.

Lemma SimpleVector_fill_sized (n : N) (value : T) (v : SimpleVector) :
  n < SIZE_MODULUS -> SimpleVector_fill n value = ROk v -> sized v.
Proof.
  intros Hn. unfold SimpleVector_fill.
  destruct (ArrayPtr.create _ _) as [data| |] eqn:Ec; [|done..].
  cbn [mbind result_bind].
  destruct (std_fill _ _ _ _) as [filled| |] eqn:Ef; [|done..].
  intros [= <-]. apply create_len in Ec as [Ec _]. apply std_fill_len in Ef as [Ef _].
  unfold sized, cells. vsimpl. rewrite <- block_len_of. lia.
Qed.

Lemma SimpleVector_count_sized (n : N) (v : SimpleVector) :
  n < SIZE_MODULUS -> SimpleVector_count n = ROk v -> sized v.
Proof. apply SimpleVector_fill_sized. Qed.

Lemma SimpleVector_init_sized (init : list T) (v : SimpleVector) :
  N.of_nat (length init) < SIZE_MODULUS -> SimpleVector_init init = ROk v -> sized v.
Proof.
  intros Hn. unfold SimpleVector_init.
  destruct (ArrayPtr.create _ _) as [data| |] eqn:Ec; [|done..].
  cbn [mbind result_bind].
  destruct (std_copy _ _ _ _ _) as [copied| |] eqn:Ecp; [|done..].
  intros [= <-]. apply create_len in Ec as [Ec _]. apply std_copy_len in Ecp as [Ecp _].
  unfold sized, cells. vsimpl. rewrite <- block_len_of. lia.
Qed.

Lemma SimpleVector_reserve_eq (obj : ReserveProxyObj) :
  SimpleVector_reserve obj =
  ROk {| size_ := 0; capacity_ := capacity obj; data_ := ArrayPtr.null |}.
Proof.
  unfold SimpleVector_reserve, construct, Reserve. unfold_method. vsimpl.
  by rewrite N.leb_refl.
Qed.

Lemma SimpleVector_reserve_sized (obj : ReserveProxyObj) (v : SimpleVector) :
  capacity obj < SIZE_MODULUS -> SimpleVector_reserve obj = ROk v -> sized v.
Proof.
  intros Hn. rewrite SimpleVector_reserve_eq. intros [= <-].
  unfold sized, cells. simpl. lia.
Qed.

Lemma SimpleVector_copy_sized (other v : SimpleVector) :
  sized other -> SimpleVector_copy other = ROk v -> sized v.
Proof.
  intros Ho. unfold SimpleVector_copy.
  destruct (SimpleVector_count _) as [temp| |] eqn:Et; [|done..].
  cbn [mbind result_bind].
  destruct (std_copy _ _ _ _ _) as [copied| |] eqn:Ecp; [|done..].
  intros [= <-]. apply std_copy_len in Ecp as [Ecp _].
  apply SimpleVector_count_sized in Et;
    [|unfold end_, begin_, sized in *; lia].
  unfold sized, cells, swap in *. vsimpl. rewrite <- block_len_of in *. lia.
Qed.

Lemma reachable_sized (v : SimpleVector) : reachable v -> sized v.
Proof.
  induction 1 as [ | n v Hn Hv | n x v Hn Hv | init v Hn Hv | obj v Hn Hv
                 | other v _ IH Hv | other _ IH | other _ IH
                 | o v v' _ IH Hpre Hv | v other _ IHv _ IHo | v other _ IHv _ IHo ].
  - apply default_sized.
  - by eapply SimpleVector_count_sized.
  - by eapply SimpleVector_fill_sized.
  - by eapply SimpleVector_init_sized.
  - by eapply SimpleVector_reserve_sized.
  - by eapply SimpleVector_copy_sized.
  - unfold sized, cells in *. simpl. done.
  - unfold sized, cells. simpl. unfold SIZE_MODULUS. lia.
  - by eapply perform_sized.
  - unfold sized, cells, swap in *. vsimpl. done.
  - unfold sized, cells, swap in *. vsimpl. done.
Qed.

(** ** When the allocation is refused *)

Lemma create_throws (n : N) :
  0 < n -> alloc_limit < n -> ArrayPtr.create new_array n = RThrow bad_alloc.
Proof.
  intros H0 Hn. unfold ArrayPtr.create, new_array.
  destruct (N.eqb_spec n 0); [lia|].
  destruct (N.leb_spec n alloc_limit); [lia|done].
Qed.

Lemma increased_wraps (c : N) :
  c < SIZE_MODULUS -> SIZE_MODULUS <= c * 2 -> increased c < c.
Proof.
  intros Hc Hw. unfold increased.
  destruct (N.eqb_spec c 0) as [->|_]; [unfold SIZE_MODULUS in *; lia|].
  unfold wrap.
  assert (c * 2 - SIZE_MODULUS = c * 2 mod SIZE_MODULUS) as <-.
  { apply (N.mod_unique _ _ 1); lia. }
  lia.
Qed.

Lemma PushBack_refused (element : reference T) (v v' : SimpleVector) :
  wf v -> size_ v = capacity_ v -> alloc_limit < N.max 1 (capacity_ v * 2) ->
  state_after (PushBack element v) = Some v' -> v' = v.
Proof.
  intros [Hs Hc Hb Hl] Heq Hno. unfold PushBack. unfold_method.
  destruct (N.leb_spec (capacity_ v) (size_ v)) as [_|?]; [|lia].
  destruct (ArrayPtr.create _ _) as [temp| |] eqn:Ec; [|by intros [= <-]|done].
  destruct (std_fill _ _ _ _) as [filled| |] eqn:Ef; [|throw_case|done].
  destruct (std_copy _ _ _ _ _) as [copied| |] eqn:Ecp; [|throw_case|done].
  exfalso. apply create_len in Ec as [Ec Hn]. apply std_fill_len in Ef as [Ef _].
  apply std_copy_len in Ecp as [_ Hcp].
  destruct (N.lt_ge_cases (capacity_ v * 2) SIZE_MODULUS) as [Hsmall|Hwrap].
  - rewrite increased_max in * by done. lia.
  - pose proof (increased_wraps _ Hc Hwrap). unfold SIZE_MODULUS in *. lia.
Qed.

Lemma Insert_refused (pos : nat) (element : reference T) (v v' : SimpleVector) :
  wf v -> size_ v = capacity_ v -> alloc_limit < N.max 1 (capacity_ v * 2) ->
  state_after (Insert pos element v) = Some v' -> v' = v.
Proof.
  intros [Hs Hc Hb Hl] Heq Hno. unfold Insert. unfold_method. unfold end_.
  destruct (N.leb_spec (capacity_ v) (size_ v)) as [_|?]; [|lia].
  destruct (ArrayPtr.create _ _) as [temp| |] eqn:Ec; [|by intros [= <-]|done].
  destruct (std_fill _ _ _ _) as [filled| |] eqn:Ef; [|throw_case|done].
  destruct (std_copy pos _ _ _ _) as [head| |] eqn:Eh; [|throw_case|done].
  destruct (read_reference _ _) as [c| |] eqn:Er; [|throw_case|done].
  destruct (store _ _ _) as [placed| |] eqn:Es; [|throw_case|done].
  destruct (distance _ _) as [n| |] eqn:En; [|throw_case|done].
  destruct (std_copy n _ _ _ _) as [tail| |] eqn:Et; [|throw_case|done].
  exfalso. unfold distance in En. case_decide; [|done]. injection En as <-.
  apply create_len in Ec as [Ec Hn]. apply std_fill_len in Ef as [Ef _].
  apply std_copy_len in Eh as [Eh _]. apply store_len in Es as [Hi Es].
  apply std_copy_len in Et as [_ Ht].
  destruct (N.lt_ge_cases (capacity_ v * 2) SIZE_MODULUS) as [Hsmall|Hwrap].
  - rewrite increased_max in * by done. lia.
  - pose proof (increased_wraps _ Hc Hwrap). unfold SIZE_MODULUS in *. lia.
Qed.

Lemma Resize_refused (n : N) (v v' : SimpleVector) :
  capacity_ v < n -> alloc_limit < n ->
  state_after (Resize n v) = Some v' -> v' = v.
Proof.
  intros Hgrow Hno. unfold Resize. unfold_method.
  destruct (N.ltb_spec (capacity_ v) n) as [_|?]; [|lia].
  rewrite create_throws by lia. by intros [= <-].
Qed.

Lemma Reserve_refused (n : N) (v v' : SimpleVector) :
  capacity_ v < n -> alloc_limit < n ->
  state_after (Reserve n v) = Some v' -> v' = v.
Proof.
  intros Hgrow Hno. unfold Reserve. unfold_method.
  destruct (N.leb_spec n (capacity_ v)) as [?|_]; [lia|].
  rewrite create_throws by lia. by intros [= <-].
Qed.

(** A call on a well-formed vector that leaves a vector at all (it
    returns, or throws [std::bad_alloc]) leaves a well-formed one. *)
Lemma perform_wf (o : operation) (v v' : SimpleVector) :
  alloc_limit < SIZE_MODULUS ->
  wf v -> precondition o v -> perform o v = Some v' -> wf v'.
Proof.
  intros Hfit Hwf Hpre Hv'.
  assert (allocation_succeeds o v \/ v' = v) as [Halloc| ->]; [|..|done].
  { destruct o as [x|x| |pos x|pos x|pos|n|n| ];
      cbn [allocation_succeeds perform precondition] in *; auto.
    - destruct (N.le_gt_cases (N.max 1 (capacity_ v * 2)) alloc_limit); [by left|].
      destruct (N.eq_dec (size_ v) (capacity_ v)); [|by left].
      right. by eapply PushBack_refused.
    - destruct x as [x|i]; [|done].
      destruct (N.le_gt_cases (N.max 1 (capacity_ v * 2)) alloc_limit); [by left|].
      destruct (N.eq_dec (size_ v) (capacity_ v)); [|by left].
      right. rewrite PushBack_move_eq in Hv'. by eapply PushBack_refused.
    - destruct (N.le_gt_cases (N.max 1 (capacity_ v * 2)) alloc_limit); [by left|].
      destruct (N.eq_dec (size_ v) (capacity_ v)); [|by left].
      right. by eapply Insert_refused.
    - destruct x as [x|i]; [|by destruct Hpre].
      destruct (N.le_gt_cases (N.max 1 (capacity_ v * 2)) alloc_limit); [by left|].
      destruct (N.eq_dec (size_ v) (capacity_ v)); [|by left].
      right. rewrite Insert_move_eq in Hv'. by eapply Insert_refused.
    - destruct (N.le_gt_cases n alloc_limit); [by left|].
      destruct (N.lt_ge_cases (capacity_ v) n); [|left; lia].
      right. by eapply Resize_refused.
    - destruct (N.le_gt_cases n alloc_limit); [by left|].
      destruct (N.lt_ge_cases (capacity_ v) n); [|left; lia].
      right. by eapply Reserve_refused. }
  assert (~ reads_deleted_buffer o v \/ v' = v) as [Hkept| ->]; [|..|done].
  { destruct o as [[x|i]|[x|i]| |pos x|pos x|pos|n|n| ];
      cbn [reads_deleted_buffer perform precondition is_temporary] in *; auto;
      try (by destruct Hpre).
    destruct (N.le_gt_cases (capacity_ v) (size_ v)) as [Hfull|Hroom]; [|left; lia].
    right. destruct (PushBack_Slot_full i v Hfull) as [Hsame _]. by apply Hsame. }
  destruct (perform_returns o v Hfit Hwf Hpre Halloc Hkept) as (v'' & Hv'' & Hwf'').
  congruence.
Qed.

(** ** Reachable vectors are well formed, or unbacked *)

Lemma wf_same (v v' : SimpleVector) :
  size_ v' = size_ v -> capacity_ v' = capacity_ v ->
  Get (data_ v') = Get (data_ v) -> wf v -> wf v'.
Proof.
  intros Hs Hc Hd [? ? ? ?].
  split; unfold live, cells in *; rewrite ?Hs, ?Hc, ?Hd; done.
Qed.

Lemma unbacked_same (v v' : SimpleVector) :
  size_ v' = size_ v -> capacity_ v' = capacity_ v ->
  Get (data_ v') = Get (data_ v) -> unbacked v -> unbacked v'.
Proof. unfold unbacked. by intros -> -> ->. Qed.

Lemma wf_or_unbacked_same (v v' : SimpleVector) :
  size_ v' = size_ v -> capacity_ v' = capacity_ v ->
  Get (data_ v') = Get (data_ v) ->
  wf v \/ unbacked v -> wf v' \/ unbacked v'.
Proof.
  intros Hs Hc Hd [?|?]; [left; by eapply wf_same|right; by eapply unbacked_same].
Qed.

Lemma empty_wf : wf {| size_ := 0; capacity_ := 0; data_ := ArrayPtr.mk None |}.
Proof. split; simpl; [lia|done|done|by constructor]. Qed.

Lemma SimpleVector_fill_wf (n : N) (value : T) (v : SimpleVector) :
  n < SIZE_MODULUS -> SimpleVector_fill n value = ROk v ->
  wf v /\ size_ v = n /\ cells v = replicate (N.to_nat n) (Some value).
Proof.
  intros Hn. unfold SimpleVector_fill.
  destruct (N.eq_dec n 0) as [->|Hpos].
  - simpl. intros [= <-]. split; [apply empty_wf|done].
  - destruct (N.le_gt_cases n alloc_limit) as [Hfits|Hno];
      [|by rewrite create_throws by lia].
    rewrite create_ok by lia. cbn [mbind result_bind]. vsimpl.
    destruct (std_fill_block (N.to_nat n) (Some (replicate (N.to_nat n) None)) 0 value)
      as (filled & -> & Hfilled); [simpl; rewrite length_replicate; lia|].
    simpl in Hfilled. rewrite drop_ge, app_nil_r in Hfilled
      by (rewrite length_replicate; lia).
    cbn [mbind result_bind]. intros [= <-]. unfold cells. vsimpl.
    split; [|done]. split; unfold live, cells; vsimpl.
    + lia.
    + done.
    + rewrite Hfilled, length_replicate. lia.
    + rewrite Hfilled. apply Forall_take, Forall_replicate. by eexists.
Qed.

Lemma SimpleVector_init_wf (init : list T) (v : SimpleVector) :
  N.of_nat (length init) < SIZE_MODULUS -> SimpleVector_init init = ROk v ->
  wf v /\ items v = init.
Proof.
  intros Hn. unfold SimpleVector_init.
  destruct init as [|x init].
  - simpl. intros [= <-]. split; [apply empty_wf|done].
  - remember (x :: init) as l eqn:El.
    assert (0 < N.of_nat (length l)) as Hpos by (subst l; simpl; lia).
    clear El.
    destruct (N.le_gt_cases (N.of_nat (length l)) alloc_limit) as [Hfits|Hno];
      [|by rewrite create_throws by lia].
    rewrite create_ok by lia. cbn [mbind result_bind]. vsimpl.
    rewrite Nat2N.id.
    destruct (std_copy_block (length l) (Some (Some <$> l)) 0
                (Some (replicate (length l) None)) 0) as (copied & -> & Hcopied).
    { simpl. rewrite length_fmap. lia. }
    { simpl. rewrite length_replicate. lia. }
    cbn [block_of] in Hcopied. rewrite take_0, drop_0, take_ge, drop_ge in Hcopied
      by (rewrite ?length_fmap, ?length_replicate; lia).
    rewrite app_nil_r in Hcopied. cbn [app] in Hcopied.
    cbn [mbind result_bind]. intros [= <-].
    assert (live {| size_ := N.of_nat (length l); capacity_ := N.of_nat (length l);
                    data_ := ArrayPtr.mk copied |} = Some <$> l) as Hlive.
    { unfold live, cells. vsimpl. rewrite Hcopied, Nat2N.id.
      apply take_ge. by rewrite length_fmap. }
    split; [|by apply items_of_live]. split; vsimpl.
    + lia.
    + done.
    + unfold cells. vsimpl. by rewrite Hcopied, length_fmap.
    + rewrite Hlive. apply Forall_fmap, Forall_true. by eexists.
Qed.

Lemma SimpleVector_copy_wf (other v : SimpleVector) :
  wf other \/ unbacked other -> SimpleVector_copy other = ROk v ->
  wf v /\ live v = live other.
Proof.
  intros Ho. unfold SimpleVector_copy, end_, begin_.
  rewrite Nat.sub_0_r, N2Nat.id.
  assert (size_ other < SIZE_MODULUS) as Hsize.
  { destruct Ho as [[Hs Hc _ _]|(-> & _)]; [lia|done]. }
  assert (N.to_nat (size_ other) <= block_len (Get (data_ other)))%nat as Hsrc.
  { destruct Ho as [[Hs _ Hb _]|(-> & _)]; [|simpl; lia].
    rewrite (block_len_cells other). lia. }
  assert (Forall is_Some (live other)) as Hlive.
  { destruct Ho as [[_ _ _ Hl]|(Hz & _)]; [done|].
    unfold live. rewrite Hz. by constructor. }
  destruct (SimpleVector_count _) as [temp| |] eqn:Et; [|done..].
  apply SimpleVector_fill_wf in Et as (Htemp & Hts & Htc); [|done].
  cbn [mbind result_bind].
  destruct (std_copy_block (N.to_nat (size_ other)) (Get (data_ other)) 0
              (Get (data_ temp)) 0) as (copied & -> & Hcopied).
  { lia. }
  { rewrite (block_len_cells temp), Htc, length_replicate. lia. }
  fold (cells temp) in Hcopied. fold (cells other) in Hcopied.
  rewrite drop_0, Htc, drop_replicate in Hcopied. simpl in Hcopied.
  rewrite Nat.sub_diag, app_nil_r in Hcopied. fold (live other) in Hcopied.
  cbn [mbind result_bind]. intros [= <-]. unfold swap. vsimpl.
  pose proof (wf_size _ Htemp). pose proof (wf_fits _ Htemp).
  pose proof (wf_block _ Htemp) as Hblock. rewrite Htc, length_replicate in Hblock.
  assert (length (live other) = N.to_nat (size_ other)) as Hlen
    by (unfold live; rewrite length_take, <- block_len_cells; lia).
  assert (live {| size_ := size_ temp; capacity_ := capacity_ temp;
                  data_ := ArrayPtr.mk copied |} = live other) as Hnew.
  { unfold live at 1, cells. vsimpl. rewrite Hcopied, Hts. by apply take_ge; lia. }
  split; [|done]. split; vsimpl.
  - done.
  - done.
  - unfold cells. vsimpl. rewrite Hcopied, Hlen. lia.
  - by rewrite Hnew.
Qed.

(** What the operations do to an unbacked vector: all that write an
    element dereference the null pointer. *)
Lemma perform_unbacked (o : operation) (v v' : SimpleVector) :
  unbacked v -> precondition o v -> perform o v = Some v' -> wf v' \/ unbacked v'.
Proof.
  intros (Hsize & Hnull & Hpos & Hfit) Hpre.
  assert (unbacked v) as Hv by done.
  destruct o as [x|x| |pos x|pos x|pos|n|n| ];
    cbn [perform precondition is_temporary] in *.
  - unfold PushBack. unfold_method.
    destruct (N.leb_spec (capacity_ v) (size_ v)) as [?|_]; [lia|].
    rewrite Hnull. by destruct x.
  - destruct x as [x|i]; [|done].
    rewrite PushBack_move_eq. unfold PushBack. unfold_method.
    destruct (N.leb_spec (capacity_ v) (size_ v)) as [?|_]; [lia|].
    by rewrite Hnull.
  - lia.
  - destruct Hpre as [Hpre _].
    unfold Insert. unfold_method. unfold end_ in *.
    destruct (N.leb_spec (capacity_ v) (size_ v)) as [?|_]; [lia|].
    rewrite distance_ok by lia. rewrite Hsize in *.
    assert (pos = O) as -> by (change (N.to_nat 0) with O in Hpre; lia).
    rewrite Hnull. by destruct x.
  - destruct Hpre as [Hpre Htemp]. destruct x as [x|i]; [|done].
    rewrite Insert_move_eq. unfold Insert. unfold_method. unfold end_ in *.
    destruct (N.leb_spec (capacity_ v) (size_ v)) as [?|_]; [lia|].
    rewrite distance_ok by lia. rewrite Hsize in *.
    assert (pos = O) as -> by (change (N.to_nat 0) with O in Hpre; lia).
    by rewrite Hnull.
  - unfold Erase. unfold_method. by rewrite Hsize.
  - unfold Resize. unfold_method.
    destruct (N.ltb_spec (capacity_ v) n) as [Hgrow|Hroom].
    + destruct (N.le_gt_cases n alloc_limit) as [Hfits|Hno];
        [|rewrite create_throws by lia; intros [= <-]; by right].
      rewrite create_ok by lia. vsimpl. rewrite std_generate_fill.
      destruct (std_fill_block (N.to_nat n) (Some (replicate (N.to_nat n) None)) 0 Type_)
        as (filled & -> & Hfilled); [simpl; rewrite length_replicate; lia|].
      simpl in Hfilled. rewrite drop_ge, app_nil_r in Hfilled
        by (rewrite length_replicate; lia).
      rewrite Hsize. change (N.to_nat 0) with O. cbn [std_move fst snd]. vsimpl.
      destruct (N.ltb_spec 0 n) as [_|?]; [|lia].
      rewrite std_generate_fill, Nat.sub_0_r. change (N.to_nat 0) with O.
      destruct (std_fill_block (N.to_nat n) filled 0 Type_)
        as (again & -> & Hagain);
        [rewrite block_len_of, Hfilled, length_replicate; lia|].
      rewrite Hfilled in Hagain. simpl in Hagain.
      rewrite drop_ge, app_nil_r in Hagain by (rewrite length_replicate; lia).
      vsimpl. intros [= <-]. left. split; unfold live, cells; vsimpl.
      * lia.
      * done.
      * rewrite Hagain, length_replicate. lia.
      * rewrite Hagain. apply Forall_take, Forall_replicate. by eexists.
    + vsimpl. rewrite Hsize, Hnull.
      destruct (N.ltb_spec 0 n) as [Hmore|Hzero].
      * rewrite std_generate_fill, Nat.sub_0_r.
        destruct (N.to_nat n) as [|m] eqn:Em; [lia|]. done.
      * intros [= <-]. right. assert (n = 0) as -> by lia.
        unfold unbacked. vsimpl. by rewrite Hnull.
  - unfold Reserve. unfold_method.
    destruct (N.leb_spec n (capacity_ v)) as [Hle|Hgrow];
      [intros [= <-]; by right|].
    destruct (N.le_gt_cases n alloc_limit) as [Hfits|Hno];
      [|rewrite create_throws by lia; intros [= <-]; by right].
    rewrite create_ok by lia. vsimpl.
    destruct (std_fill_block (N.to_nat (capacity_ v))
                (Some (replicate (N.to_nat n) None)) 0 Type_)
      as (filled & -> & Hfilled); [simpl; rewrite length_replicate; lia|].
    simpl in Hfilled. rewrite drop_replicate in Hfilled.
    rewrite Hsize. change (N.to_nat 0) with O. cbn [std_copy]. vsimpl.
    intros [= <-]. left. split; unfold live, cells; vsimpl.
    + lia.
    + done.
    + rewrite Hfilled, length_app, !length_replicate. lia.
    + change (N.to_nat 0) with O. rewrite take_0. by constructor.
  - unfold Clear. unfold_method. intros [= <-]. right.
    unfold unbacked. by vsimpl.
Qed.

(** A vector a program can build is well formed, unless it is as the
    [ReserveProxyObj] constructor left it. *)
Lemma reachable_wf_or_unbacked (v : SimpleVector) :
  alloc_limit < SIZE_MODULUS -> reachable v -> wf v \/ unbacked v.
Proof.
  intros Hfit.
  induction 1 as [ | n v Hn Hv | n x v Hn Hv | init v Hn Hv | obj v Hn Hv
                 | other v _ IH Hv | other _ IH | other _ IH
                 | o v v' _ IH Hpre Hv | v other _ IHv _ IHo | v other _ IHv _ IHo ].
  - left. apply empty_wf.
  - left. by apply SimpleVector_fill_wf in Hv as [? _].
  - left. by apply SimpleVector_fill_wf in Hv as [? _].
  - left. by apply SimpleVector_init_wf in Hv as [? _].
  - rewrite SimpleVector_reserve_eq in Hv. injection Hv as <-.
    destruct (N.eq_dec (capacity obj) 0) as [->|Hpos].
    + left. apply empty_wf.
    + right. unfold unbacked. simpl. repeat split; try done. lia.
  - left. by apply SimpleVector_copy_wf in Hv as [? _].
  - by apply (wf_or_unbacked_same other).
  - left. apply empty_wf.
  - destruct IH as [IH|IH]; [left; by eapply perform_wf|by eapply perform_unbacked].
  - by apply (wf_or_unbacked_same other).
  - by apply (wf_or_unbacked_same v).
Qed.

(** ** The comparison algorithms *)

Lemma std_equal_spec (eqT : T -> T -> bool) (xs ys : list T)
  (p1 : ptr T) (first1 : nat) (p2 : ptr T) (first2 : nat) :
  length xs = length ys ->
  (forall i x, xs !! i = Some x -> block_of p1 !! (first1 + i)%nat = Some (Some x)) ->
  (forall i y, ys !! i = Some y -> block_of p2 !! (first2 + i)%nat = Some (Some y)) ->
  exists r, std_equal eqT (length xs) p1 first1 p2 first2 = ROk r /\
    (r = true <->
     forall i x y, xs !! i = Some x -> ys !! i = Some y -> eqT x y = true).
Proof.
  revert ys first1 first2.
  induction xs as [|x xs IH]; intros [|y ys] first1 first2 Hlen H1 H2; try done.
  - exists true. split; [done|]. split; [|done]. by intros _ i x y [=].
  - cbn [length std_equal].
    rewrite (load_block p1 first1 (Some x))
      by (rewrite <- (Nat.add_0_r first1); by apply H1).
    rewrite (load_block p2 first2 (Some y))
      by (rewrite <- (Nat.add_0_r first2); by apply H2).
    cbn [mbind result_bind].
    destruct (eqT x y) eqn:Exy.
    + destruct (IH ys (S first1) (S first2)) as (r & -> & Hr).
      * simpl in Hlen. lia.
      * intros i x' Hi. replace (S first1 + i)%nat with (first1 + S i)%nat by lia.
        by apply H1.
      * intros i y' Hi. replace (S first2 + i)%nat with (first2 + S i)%nat by lia.
        by apply H2.
      * exists r. split; [done|]. rewrite Hr. split.
        -- intros Hall [|i] x' y'; simpl; [by intros [= <-] [= <-]|by apply Hall].
        -- intros Hall i x' y'. apply (Hall (S i)).
    + exists false. split; [done|]. split; [done|].
      intros Hall. specialize (Hall O x y eq_refl eq_refl). congruence.
Qed.

Lemma spec_lex_less_cons (ltT : T -> T -> bool) (x y : T) (xs ys : list T) :
  ltT x y = false -> ltT y x = false ->
  spec_lex_less ltT (x :: xs) (y :: ys) <-> spec_lex_less ltT xs ys.
Proof.
  intros Hxy Hyx. split.
  - intros ([|k] & Hagree & Hk).
    + destruct Hk as [[? _]|(x' & y' & [= <-] & [= <-] & ?)]; [done|congruence].
    + exists k. split.
      * intros i x' y' Hi. apply (Hagree (S i)). lia.
      * destruct Hk as [[Hk1 Hk2]|Hk]; [left|by right].
        simpl in *. lia.
  - intros (k & Hagree & Hk). exists (S k). split.
    + intros [|i] x' y' Hi; simpl; [by intros [= <-] [= <-]|].
      apply Hagree. lia.
    + destruct Hk as [[Hk1 Hk2]|Hk]; [left|by right].
      simpl. lia.
Qed.

Lemma std_lexicographical_compare_spec (ltT : T -> T -> bool) (xs ys : list T)
  (p1 : ptr T) (first1 : nat) (p2 : ptr T) (first2 : nat) :
  (forall i x, xs !! i = Some x -> block_of p1 !! (first1 + i)%nat = Some (Some x)) ->
  (forall i y, ys !! i = Some y -> block_of p2 !! (first2 + i)%nat = Some (Some y)) ->
  exists r,
    std_lexicographical_compare ltT (length xs) (length ys) p1 first1 p2 first2 = ROk r /\
    (r = true <-> spec_lex_less ltT xs ys).
Proof.
  revert ys first1 first2.
  induction xs as [|x xs IH]; intros [|y ys] first1 first2 H1 H2.
  - exists false. split; [done|]. split; [done|].
    intros (k & _ & [[_ Hk]|(x & y & Hx & _)]); [simpl in Hk; lia|done].
  - exists true. split; [done|]. split; [|done]. intros _.
    exists O. split; [intros; lia|]. left. simpl. split; [done|lia].
  - exists false. split; [done|]. split; [done|].
    intros (k & _ & [[_ Hk]|(x' & y & _ & Hy & _)]); [simpl in Hk; lia|done].
  - cbn [length std_lexicographical_compare].
    rewrite (load_block p1 first1 (Some x))
      by (rewrite <- (Nat.add_0_r first1); by apply H1).
    rewrite (load_block p2 first2 (Some y))
      by (rewrite <- (Nat.add_0_r first2); by apply H2).
    cbn [mbind result_bind].
    destruct (ltT x y) eqn:Exy; [|destruct (ltT y x) eqn:Eyx].
    + exists true. split; [done|]. split; [|done]. intros _.
      exists O. split; [intros; lia|]. right. by exists x, y.
    + exists false. split; [done|]. split; [done|].
      intros ([|k] & Hagree & Hk).
      * destruct Hk as [[? _]|(x' & y' & [= <-] & [= <-] & ?)]; [done|congruence].
      * destruct (Hagree O x y) as [_ ?]; [lia|done|done|congruence].
    + destruct (IH ys (S first1) (S first2)) as (r & -> & Hr).
      * intros i x' Hi. replace (S first1 + i)%nat with (first1 + S i)%nat by lia.
        by apply H1.
      * intros i y' Hi. replace (S first2 + i)%nat with (first2 + S i)%nat by lia.
        by apply H2.
      * exists r. split; [done|]. by rewrite Hr, spec_lex_less_cons.
Qed.

Lemma unbacked_items (v : SimpleVector) : unbacked v -> items v = [].
Proof. intros (Hsize & _). unfold items, live. by rewrite Hsize. Qed.

Lemma items_size (v : SimpleVector) :
  wf v \/ unbacked v -> length (items v) = N.to_nat (size_ v).
Proof.
  intros [Hwf|Hun]; [by apply items_length|].
  rewrite (unbacked_items v Hun). by destruct Hun as (-> & _).
Qed.

Lemma items_cells (v : SimpleVector) (i : nat) (x : T) :
  wf v \/ unbacked v ->
  items v !! i = Some x -> block_of (Get (data_ v)) !! (0 + i)%nat = Some (Some x).
Proof.
  intros [Hwf|Hun] Hi; [|by rewrite (unbacked_items v Hun) in Hi].
  fold (cells v). simpl.
  assert (live v !! i = Some (Some x)) as Hlive
    by (rewrite (live_items v Hwf), list_lookup_fmap, Hi; done).
  unfold live in Hlive. by apply lookup_take_Some in Hlive as [? _].
Qed.

Lemma op_eq_spec (eqT : T -> T -> bool) (lhs rhs : SimpleVector) :
  wf lhs \/ unbacked lhs -> wf rhs \/ unbacked rhs ->
  exists r, op_eq eqT lhs rhs = ROk r /\
    (r = true <-> spec_equal eqT (items lhs) (items rhs)).
Proof.
  intros Hl Hr. unfold op_eq, GetSize, spec_equal.
  pose proof (items_size lhs Hl) as Hnl. pose proof (items_size rhs Hr) as Hnr.
  destruct (N.eqb_spec (size_ lhs) (size_ rhs)) as [Heq|Hne].
  - unfold end_, begin_. rewrite Nat.sub_0_r, <- Hnl.
    destruct (std_equal_spec eqT (items lhs) (items rhs)
                (Get (data_ lhs)) 0 (Get (data_ rhs)) 0) as (r & -> & Hspec).
    + lia.
    + intros i x. by apply items_cells.
    + intros i y. by apply items_cells.
    + exists r. split; [done|]. rewrite Hspec. split; [|tauto].
      intros Hall. split; [lia|done].
  - exists false. split; [done|]. split; [done|]. intros [Hlen _]. lia.
Qed.

Lemma op_lt_spec (ltT : T -> T -> bool) (lhs rhs : SimpleVector) :
  wf lhs \/ unbacked lhs -> wf rhs \/ unbacked rhs ->
  exists r, op_lt ltT lhs rhs = ROk r /\
    (r = true <-> spec_lex_less ltT (items lhs) (items rhs)).
Proof.
  intros Hl Hr. unfold op_lt, end_, begin_.
  rewrite !Nat.sub_0_r, <- (items_size lhs Hl), <- (items_size rhs Hr).
  apply std_lexicographical_compare_spec; intros i x; by apply items_cells.
Qed.

(** ** Elements of a well-formed vector *)

Lemma index_live (v : SimpleVector) (i : N) (c : option T) :
  live v !! N.to_nat i = Some c -> index i v = Ok c v.
Proof.
  intros Hi. unfold live in Hi. apply lookup_take_Some in Hi as [Hi _].
  unfold index. unfold_method. by rewrite (load_block _ _ c).
Qed.

Lemma Reserve_default (n : N) :
  0 < n -> n <= alloc_limit ->
  Reserve n SimpleVector_default =
  Ok tt {| size_ := 0; capacity_ := n;
           data_ := ArrayPtr.mk (Some (replicate (N.to_nat n) None)) |}.
Proof.
  intros H0 Hn. unfold Reserve. unfold_method. simpl.
  destruct (N.leb_spec n 0) as [?|_]; [lia|].
  by rewrite create_ok by done.
Qed.

(** * The claims *)

(** C1 (the code departs from the claim).  For [n > 0] the constructor
    taking a [ReserveProxyObj] of capacity [n] yields size [0] and
    capacity [n], but its buffer is the null pointer: it sets [capacity_]
    before it calls [Reserve(capacity_)], which then returns at once.  No
    slot backs the capacity, and a following [PushBack] writes through the
    null pointer.  Calling [Reserve(n)] on a default-constructed vector
    does what the claim says: [n] slots, and [PushBack] stores at index 0
    without reallocating. *)
Theorem reserve_constructor_allocates_nothing (n : N) (x : T) :
  0 < n ->
  (exists v, SimpleVector_reserve (Reserve_proxy n) = ROk v /\
     GetSize v = 0 /\ GetCapacity v = n /\
     Get (data_ v) = None /\ cells v = [] /\
     forall element,
       PushBack element v = Undefined /\ PushBack_move element v = Undefined) /\
  (n <= alloc_limit ->
   exists v v', Reserve n SimpleVector_default = Ok tt v /\
     GetSize v = 0 /\ GetCapacity v = n /\
     length (cells v) = N.to_nat n /\
     PushBack (Outside x) v = Ok tt v' /\
     GetCapacity v' = n /\ live v' = [Some x]).
Proof.
  intros H0. split.
  - eexists. split; [apply SimpleVector_reserve_eq|].
    do 4 (split; [done|]). intros element.
    unfold PushBack_move, PushBack, Reserve_proxy. unfold_method. vsimpl.
    cbn [capacity]. destruct (N.leb_spec n 0) as [?|_]; [lia|].
    by destruct element.
  - intros Hn. eexists. eexists. split; [by apply Reserve_default|].
    unfold GetSize, GetCapacity, cells. vsimpl. cbn [block_of].
    rewrite length_replicate. do 3 (split; [done|]).
    unfold PushBack. unfold_method. vsimpl.
    destruct (N.leb_spec n 0) as [?|_]; [lia|]. vsimpl.
    change (N.to_nat 0) with O.
    rewrite store_Some by (rewrite length_replicate; lia).
    split; [reflexivity|]. vsimpl. split; [done|].
    unfold live, cells. vsimpl. cbn [block_of].
    destruct (N.to_nat n) as [|m] eqn:Em; [lia|]. done.
Qed.

(** C3.  [At(i)] throws [std::out_of_range] exactly when
    [i >= GetSize()], whatever the capacity is, so an index into
    reserved but unused capacity fails too; it throws nothing else, and
    the vector is unchanged by the failing call; for [i < GetSize()] it
    gives what [operator[](i)] gives. *)
Theorem At_checks_size (v : SimpleVector) (i : N) :
  (At i v = Throw out_of_range v <-> GetSize v <= i) /\
  (forall e s, At i v = Throw e s -> e = out_of_range /\ s = v /\ GetSize v <= i) /\
  (GetSize v <= i -> i < GetCapacity v -> At i v = Throw out_of_range v) /\
  (i < GetSize v -> At i v = index i v).
Proof.
  unfold At, index, GetSize, GetCapacity. unfold_method.
  destruct (N.leb_spec (size_ v) i) as [Hge|Hlt].
  - split; [done|]. split; [by intros e s [= <- <-]|]. split; [done|lia].
  - assert (forall e s,
              match load (Get (data_ v)) (N.to_nat i) with
              | ROk a => Ok a v
              | RThrow e' => Throw e' v
              | RUndef => Undefined
              end = Throw e s -> False) as Hno.
    { intros e s. destruct (load _ _) eqn:El; try done. by apply load_no_throw in El. }
    split; [|split; [|split]].
    + split; [intros H; by apply Hno in H|lia].
    + intros e s H. by apply Hno in H.
    + lia.
    + done.
Qed.

(** C4 (the code departs from the claim).  On a well-formed vector,
    when the allocation of the grown buffer succeeds, [PushBack(value)]
    does what the claim says when [value] is an object outside the buffer
    (either overload), and when it is an element of the vector and the
    vector is not full: the call returns; if [size == capacity] before
    the call the capacity becomes exactly [max(1, capacity * 2)]
    (otherwise it is unchanged); the value is at the index equal to the
    old size, the size grows by exactly one, and the elements stored
    before are unchanged and in the same order.  But when the vector is
    full and [value] is one of its own elements, as in
    [v.PushBack(v[0])], both overloads read [value] in the buffer they
    have just deleted: undefined behaviour.  [Insert(end(), value)],
    which reads [value] before it gives the old buffer up, does append
    it. *)
Theorem PushBack_appends (element : reference T) (x : T) (v : SimpleVector) :
  alloc_limit < SIZE_MODULUS ->
  wf v ->
  (size_ v = capacity_ v -> N.max 1 (capacity_ v * 2) <= alloc_limit) ->
  referent element v = Some x ->
  (is_temporary element \/ size_ v < capacity_ v ->
   exists v', PushBack element v = Ok tt v' /\
     (is_temporary element -> PushBack_move element v = Ok tt v') /\
     (GetSize v = GetCapacity v -> GetCapacity v' = N.max 1 (GetCapacity v * 2)) /\
     (GetSize v < GetCapacity v -> GetCapacity v' = GetCapacity v) /\
     GetSize v' = GetSize v + 1 /\
     index (GetSize v) v' = Ok (Some x) v' /\
     items v' = items v ++ [x] /\
     wf v') /\
  (~ is_temporary element -> size_ v = capacity_ v ->
   PushBack element v = Undefined /\ PushBack_move element v = Undefined /\
   exists v', Insert (end_ v) element v = Ok (end_ v) v' /\
     items v' = items v ++ [x] /\ GetSize v' = GetSize v + 1).
Proof.
  intros Hfit Hwf Halloc Hx. pose proof (live_length v Hwf) as Hlen. split.
  - intros Hsafe.
    destruct (PushBack_reference_ok element x v Hfit Hwf Halloc Hx Hsafe)
      as (v' & Hpush & Hsize & Hcap & Hlive & Hwf').
    exists v'. unfold GetSize, GetCapacity.
    split; [done|]. split; [|split; [|split; [|split; [done|split; [|split]]]]].
    + intros Htemp. destruct element as [y|i]; [|done].
      by rewrite PushBack_move_eq.
    + intros Heq. by rewrite Hcap, Heq, N.eqb_refl.
    + intros Hlt. rewrite Hcap. by destruct (N.eqb_spec (size_ v) (capacity_ v)); [lia|].
    + apply index_live. rewrite Hlive.
      rewrite lookup_app_r by lia. by rewrite Hlen, Nat.sub_diag.
    + apply items_of_live. by rewrite Hlive, (live_items v Hwf), fmap_app.
    + done.
  - intros Hown Hfull. destruct element as [y|i]; [by destruct Hown|].
    assert (increased (capacity_ v) <= alloc_limit) as Hinc.
    { specialize (Halloc Hfull). rewrite increased_max; [done|]. lia. }
    destruct (PushBack_Slot_full i v) as (_ & _ & Hundef); [lia|].
    destruct (Hundef Hinc) as [-> ->]. do 2 (split; [done|]).
    destruct (Insert_reference_ok (end_ v) (Slot i) x v Hfit Hwf)
      as (v' & Hins & Hsize & _ & Hlive & _); [lia|done|by eapply referent_names| |].
    { destruct (N.ltb_spec (size_ v) (capacity_ v)); [lia|]. done. }
    exists v'. unfold GetSize. split; [done|]. split; [|done].
    apply items_of_live. rewrite Hlive. unfold end_.
    rewrite take_ge, drop_ge by lia. by rewrite (live_items v Hwf), fmap_app.
Qed.

Lemma Resize_items (n : N) (v : SimpleVector) :
  alloc_limit < SIZE_MODULUS ->
  wf v ->
  (capacity_ v < n -> n <= alloc_limit) ->
  exists v', Resize n v = Ok tt v' /\
    size_ v' = n /\
    capacity_ v' = (if capacity_ v <? n then n else capacity_ v) /\
    items v' =
      take (N.to_nat n) (items v) ++ replicate (N.to_nat n - N.to_nat (size_ v)) Type_ /\
    wf v'.
Proof.
  intros Hfit Hwf Halloc.
  destruct (Resize_ok n v Hfit Hwf Halloc) as (v' & Hre & Hsize & Hcap & Hlive & Hwf').
  exists v'. do 3 (split; [done|]). split; [|done].
  apply items_of_live.
  by rewrite Hlive, (live_items v Hwf), fmap_app, fmap_take, fmap_replicate.
Qed.

(** C5.  On a well-formed vector with size [s] and capacity [c], when
    the allocation (needed only if [newSize > c]) succeeds,
    [Resize(newSize)] returns with [GetSize() == newSize]; if
    [newSize > c] the capacity becomes exactly [newSize], the first [s]
    elements are kept and the slots from [s] to [newSize] hold [Type()];
    if [s < newSize <= c] the same holds with the capacity unchanged; if
    [newSize <= s] the first [newSize] elements and the capacity are
    unchanged.  Hence [Resize(k)] then [Resize(j)] with [j <= k <= s]
    leaves the first [j] elements and [GetSize() == j]. *)
Theorem Resize_sets_size (n : N) (v : SimpleVector) :
  alloc_limit < SIZE_MODULUS ->
  wf v ->
  (capacity_ v < n -> n <= alloc_limit) ->
  (exists v', Resize n v = Ok tt v' /\
     GetSize v' = n /\
     (GetCapacity v < n ->
        GetCapacity v' = n /\
        items v' = items v ++ replicate (N.to_nat n - N.to_nat (GetSize v)) Type_) /\
     (GetSize v < n -> n <= GetCapacity v ->
        GetCapacity v' = GetCapacity v /\
        items v' = items v ++ replicate (N.to_nat n - N.to_nat (GetSize v)) Type_) /\
     (n <= GetSize v ->
        GetCapacity v' = GetCapacity v /\
        items v' = take (N.to_nat n) (items v)) /\
     wf v') /\
  (forall k j, j <= k -> k <= GetSize v ->
     exists v1 v2, Resize k v = Ok tt v1 /\ Resize j v1 = Ok tt v2 /\
       GetSize v2 = j /\ items v2 = take (N.to_nat j) (items v)).
Proof.
  intros Hfit Hwf Halloc. pose proof (items_length v Hwf) as Hlen.
  pose proof (wf_size v Hwf) as Hsc. unfold GetSize, GetCapacity. split.
  - destruct (Resize_items n v Hfit Hwf Halloc) as (v' & Hre & Hsize & Hcap & Hit & Hwf').
    exists v'. do 2 (split; [done|]). split; [|split; [|split; [|done]]].
    + intros Hgrow. destruct (N.ltb_spec (capacity_ v) n); [|lia].
      split; [done|]. by rewrite Hit, take_ge by lia.
    + intros Hmore Hroom. destruct (N.ltb_spec (capacity_ v) n); [lia|].
      split; [done|]. by rewrite Hit, take_ge by lia.
    + intros Hless. destruct (N.ltb_spec (capacity_ v) n); [lia|].
      split; [done|]. rewrite Hit.
      replace (N.to_nat n - N.to_nat (size_ v))%nat with O by lia.
      by rewrite app_nil_r.
  - intros k j Hjk Hks.
    destruct (Resize_items k v Hfit Hwf) as (v1 & Hre1 & Hsize1 & Hcap1 & Hit1 & Hwf1);
      [lia|].
    destruct (Resize_items j v1 Hfit Hwf1) as (v2 & Hre2 & Hsize2 & Hcap2 & Hit2 & Hwf2).
    { pose proof (wf_size v1 Hwf1). lia. }
    exists v1, v2. do 3 (split; [done|]). rewrite Hit2, Hit1, Hsize1.
    replace (N.to_nat k - N.to_nat (size_ v))%nat with O by lia.
    replace (N.to_nat j - N.to_nat k)%nat with O by lia.
    rewrite !app_nil_r, take_take. f_equal. lia.
Qed.

(** C7.  Every vector reachable from any constructor by any sequence of
    [PushBack], [PopBack], [Insert], [Erase], [Resize], [Reserve],
    [Clear] and [swap], each called with its precondition, satisfies
    [0 <= size <= capacity]. *)
Theorem size_within_capacity (v : SimpleVector) :
  reachable v -> 0 <= GetSize v /\ GetSize v <= GetCapacity v.
Proof.
  intros Hv%reachable_sized. unfold GetSize, GetCapacity. split; [lia|].
  by apply sized_le.
Qed.

(** C8.  On a well-formed vector, for a position within [[begin, end]],
    when the allocation of a grown buffer succeeds, [Insert(pos, v)]
    (either overload; [v] an object outside the buffer or, for the
    overload taking [const Type&], an element of the vector) followed by
    [Erase] at the returned position gives back the original size and the
    original element sequence. *)
Theorem Insert_then_Erase (pos : nat) (element : reference T) (v : SimpleVector) :
  alloc_limit < SIZE_MODULUS ->
  wf v ->
  (begin_ v <= pos <= end_ v)%nat ->
  (size_ v = capacity_ v -> N.max 1 (capacity_ v * 2) <= alloc_limit) ->
  names_element element v ->
  exists it v1 v2,
    Insert pos element v = Ok it v1 /\
    (is_temporary element -> Insert_move pos element v = Ok it v1) /\
    it = pos /\
    Erase it v1 = Ok it v2 /\
    GetSize v2 = GetSize v /\
    items v2 = items v /\
    live v2 = live v.
Proof.
  intros Hfit Hwf [_ Hpos] Halloc Hel. pose proof (live_length v Hwf) as Hlen.
  pose proof (items_length v Hwf) as Hilen.
  assert (exists x,
            match element with
            | Outside y => y = x
            | Slot i =>
                items v !! (if (size_ v <? capacity_ v) && (pos <? i)%nat
                            then (i - 1)%nat else i) = Some x
            end) as [x Hx].
  { destruct element as [y|i]; [by exists y|]. cbn in Hel. unfold end_ in Hel.
    apply lookup_lt_is_Some_2. destruct (_ && _); lia. }
  destruct (Insert_reference_ok pos element x v Hfit Hwf Hpos Halloc Hel Hx)
    as (v1 & Hins & Hsize1 & _ & Hlive1 & Hwf1).
  destruct (Erase_ok pos v1 Hwf1) as (v2 & Her & Hsize2 & _ & Hlive2 & Hwf2).
  { unfold end_ in *. lia. }
  exists pos, v1, v2. split; [done|]. split.
  { intros Htemp. destruct element as [y|i]; [|done]. by rewrite Insert_move_eq. }
  do 2 (split; [done|]).
  assert (live v2 = live v) as Hlive.
  { rewrite Hlive2, Hlive1. unfold end_ in Hpos.
    rewrite take_app_length' by (rewrite length_take; lia).
    rewrite (cons_middle (Some x)), app_assoc.
    rewrite drop_app_length' by (rewrite length_app, length_take; simpl; lia).
    apply take_drop. }
  unfold GetSize. split; [lia|]. split; [|done].
  unfold items. by rewrite Hlive.
Qed.

(** C9.  For any two vectors a program can build: [operator==] holds
    exactly when the sizes match and all corresponding elements compare
    equal in order; [operator<] is the lexicographic comparison of the
    element sequences with element-wise less-than; and [a != b] is
    [!(a == b)], [a > b] is [b < a], [a <= b] is [a < b || a == b],
    [a >= b] is [b < a || b == a]. *)
Theorem comparison_operators (eqT ltT : T -> T -> bool) (a b : SimpleVector) :
  alloc_limit < SIZE_MODULUS ->
  reachable a -> reachable b ->
  exists e l e' l' : bool,
    op_eq eqT a b = ROk e /\ op_lt ltT a b = ROk l /\
    op_eq eqT b a = ROk e' /\ op_lt ltT b a = ROk l' /\
    (e = true <-> spec_equal eqT (items a) (items b)) /\
    (l = true <-> spec_lex_less ltT (items a) (items b)) /\
    (e' = true <-> spec_equal eqT (items b) (items a)) /\
    (l' = true <-> spec_lex_less ltT (items b) (items a)) /\
    op_ne eqT a b = ROk (negb e) /\
    op_gt ltT a b = ROk l' /\
    op_le eqT ltT a b = ROk (l || e) /\
    op_ge eqT ltT a b = ROk (l' || e').
Proof.
  intros Hfit Ha Hb.
  apply (reachable_wf_or_unbacked a Hfit) in Ha.
  apply (reachable_wf_or_unbacked b Hfit) in Hb.
  destruct (op_eq_spec eqT a b Ha Hb) as (e & He & Hes).
  destruct (op_lt_spec ltT a b Ha Hb) as (l & Hl & Hls).
  destruct (op_eq_spec eqT b a Hb Ha) as (e' & He' & Hes').
  destruct (op_lt_spec ltT b a Hb Ha) as (l' & Hl' & Hls').
  exists e, l, e', l'. do 8 (split; [done|]).
  unfold op_ne, op_gt, op_le, op_ge. rewrite He, Hl, He', Hl'.
  cbn [fmap result_fmap mbind result_bind].
  by destruct l, l'.
Qed.

Lemma Insert_end_PushBack (element : reference T) (v : SimpleVector) :
  is_temporary element \/ size_ v < capacity_ v ->
  Insert (end_ v) element v = mseq (PushBack element) (fun _ => mreturn (end_ v)) v.
Proof.
  intros Hsafe. unfold Insert, PushBack. unfold_method. unfold end_.
  rewrite distance_ok, Nat.sub_diag by lia.
  destruct (N.leb_spec (capacity_ v) (size_ v)) as [Hfull|Hroom].
  - destruct element as [x|i]; [|destruct Hsafe as [[]|?]; lia].
    cbn [read_reference].
    destruct (ArrayPtr.create _ _) as [temp| |]; [|done..].
    destruct (std_fill _ _ _ _) as [filled| |]; [|done..].
    destruct (std_copy _ _ _ _ _) as [copied| |]; [|done..].
    vsimpl. destruct (store _ _ _) as [placed| |] eqn:Es; [done| |done].
    by apply store_no_throw in Es.
  - cbn [std_copy_backward].
    destruct (read_reference _ _) as [c| |]; [|done..].
    destruct (store _ _ _) as [placed| |]; done.
Qed.

(** C10 (the code departs from the claim).  On a well-formed vector,
    when the allocation of a grown buffer succeeds, [Insert(v.end(), x)]
    returns an iterator to the new last element, which is [x], after the
    elements the vector had.  [PushBack(x)] has the same outcome (same
    size, capacity and elements) when [x] is an object outside the buffer
    and when the vector is not full.  When the vector is full and [x] is
    one of its own elements, [PushBack(x)] reads [x] in the buffer it has
    just deleted, which is undefined behaviour, where [Insert] appends
    it. *)
Theorem Insert_at_end_is_PushBack (element : reference T) (x : T) (v : SimpleVector) :
  alloc_limit < SIZE_MODULUS ->
  wf v ->
  (size_ v = capacity_ v -> N.max 1 (capacity_ v * 2) <= alloc_limit) ->
  referent element v = Some x ->
  (exists it v',
     Insert (end_ v) element v = Ok it v' /\
     S it = end_ v' /\ index (N.of_nat it) v' = Ok (Some x) v' /\
     items v' = items v ++ [x] /\
     (is_temporary element \/ size_ v < capacity_ v ->
      PushBack element v = Ok tt v')) /\
  (is_temporary element \/ size_ v < capacity_ v ->
   Insert (end_ v) element v = mseq (PushBack element) (fun _ => mreturn (end_ v)) v) /\
  (~ is_temporary element -> size_ v = capacity_ v ->
   PushBack element v = Undefined).
Proof.
  intros Hfit Hwf Halloc Hx. pose proof (live_length v Hwf) as Hlen.
  split; [|split].
  - destruct (Insert_reference_ok (end_ v) element x v Hfit Hwf)
      as (v' & Hins & Hsize & _ & Hlive & _); [lia|done|by eapply referent_names| |].
    { destruct element as [y|i]; [by injection Hx|]. cbn in Hx.
      pose proof (lookup_lt_Some _ _ _ Hx) as Hi.
      rewrite (items_length v Hwf) in Hi. unfold end_.
      destruct (Nat.ltb_spec (N.to_nat (size_ v)) i); [lia|].
      by rewrite andb_false_r. }
    unfold end_ in Hlive. rewrite take_ge, drop_ge in Hlive by lia.
    exists (end_ v), v'. split; [done|]. unfold end_. split; [lia|]. split; [|split].
    + apply index_live. rewrite Nat2N.id, Hlive.
      rewrite lookup_app_r by lia. by rewrite Hlen, Nat.sub_diag.
    + apply items_of_live. by rewrite Hlive, (live_items v Hwf), fmap_app.
    + intros Hsafe. rewrite (Insert_end_PushBack element v Hsafe) in Hins.
      unfold mseq, mreturn in Hins.
      destruct (PushBack element v) as [[] w|e w|]; [|done..].
      by injection Hins as ->.
  - apply Insert_end_PushBack.
  - intros Hown Hfull. destruct element as [y|i]; [by destruct Hown|].
    assert (increased (capacity_ v) <= alloc_limit) as Hinc.
    { specialize (Halloc Hfull). rewrite increased_max; [done|]. lia. }
    destruct (PushBack_Slot_full i v) as (_ & _ & Hundef); [lia|].
    by destruct (Hundef Hinc) as [-> _].
Qed.

(** * Further properties of the code *)

(** ** Constructors *)

Lemma SimpleVector_fill_returns (n : N) (value : T) :
  n <= alloc_limit -> exists v, SimpleVector_fill n value = ROk v.
Proof.
  intros Hn. unfold SimpleVector_fill.
  destruct (N.eq_dec n 0) as [->|Hpos]; [by eexists|].
  rewrite create_ok by lia. cbn [mbind result_bind]. vsimpl.
  destruct (std_fill_block (N.to_nat n) (Some (replicate (N.to_nat n) None)) 0 value)
    as (filled & -> & _); [simpl; rewrite length_replicate; lia|].
  by eexists.
Qed.

Lemma SimpleVector_fill_throws (n : N) (value : T) :
  alloc_limit < n -> SimpleVector_fill n value = RThrow bad_alloc.
Proof.
  intros Hn. unfold SimpleVector_fill. by rewrite create_throws by lia.
Qed.

(** X1.  The constructors [SimpleVector(size)] and
    [SimpleVector(size, value)]: when the allocator grants [size]
    elements the vector has [GetSize() == GetCapacity() == size] and every
    element equals [value] ([Type()] for the first constructor); this
    includes [size == 0], where nothing is allocated.  When it does not,
    the constructor throws [std::bad_alloc]. *)
Theorem constructor_fill (n : N) (value : T) :
  n < SIZE_MODULUS ->
  (n <= alloc_limit ->
   exists v, SimpleVector_fill n value = ROk v /\
     GetSize v = n /\ GetCapacity v = n /\
     items v = replicate (N.to_nat n) value /\ wf v /\
     (n = 0 -> Get (data_ v) = None)) /\
  (alloc_limit < n -> SimpleVector_fill n value = RThrow bad_alloc) /\
  SimpleVector_count n = SimpleVector_fill n Type_.
Proof.
  intros Hfit. split; [|split; [apply SimpleVector_fill_throws|done]].
  intros Hn. destruct (SimpleVector_fill_returns n value Hn) as (v & Hv).
  exists v. split; [done|].
  assert (n = 0 -> Get (data_ v) = None) as Hnull.
  { intros ->. simpl in Hv. by injection Hv as <-. }
  pose proof Hv as Hv'.
  apply SimpleVector_fill_wf in Hv as (Hwf & Hsize & Hcells); [|done].
  pose proof (wf_block v Hwf) as Hb. rewrite Hcells, length_replicate in Hb.
  unfold GetSize, GetCapacity. split; [done|]. split; [lia|]. split; [|done].
  apply items_of_live. unfold live.
  rewrite Hcells, Hsize, take_ge by (rewrite length_replicate; lia).
  by rewrite fmap_replicate.
Qed.

Lemma SimpleVector_init_returns (init : list T) :
  N.of_nat (length init) <= alloc_limit -> exists v, SimpleVector_init init = ROk v.
Proof.
  intros Hn. unfold SimpleVector_init.
  destruct init as [|x init]; [by eexists|].
  remember (x :: init) as l eqn:El.
  assert (0 < N.of_nat (length l)) as Hpos by (subst l; simpl; lia).
  clear El. rewrite create_ok by lia. cbn [mbind result_bind]. vsimpl.
  rewrite Nat2N.id.
  destruct (std_copy_block (length l) (Some (Some <$> l)) 0
              (Some (replicate (length l) None)) 0) as (copied & -> & _).
  { simpl. rewrite length_fmap. lia. }
  { simpl. rewrite length_replicate. lia. }
  by eexists.
Qed.

(** X2.  The constructor from an initializer list: when the allocator
    grants as many elements as the list has, the vector holds the
    elements of the list in order, with size and capacity the length of
    the list. *)
Theorem constructor_init (init : list T) :
  N.of_nat (length init) < SIZE_MODULUS ->
  N.of_nat (length init) <= alloc_limit ->
  exists v, SimpleVector_init init = ROk v /\
    items v = init /\
    GetSize v = N.of_nat (length init) /\ GetCapacity v = N.of_nat (length init) /\
    wf v.
Proof.
  intros Hfit Hn. destruct (SimpleVector_init_returns init Hn) as (v & Hv).
  exists v. split; [done|]. pose proof Hv as Hv'.
  apply SimpleVector_init_wf in Hv as (Hwf & Hitems); [|done].
  split; [done|]. split; [|split; [|done]].
  - unfold SimpleVector_init in Hv'.
    destruct (ArrayPtr.create _ _); [|done..]. cbn [mbind result_bind] in Hv'.
    destruct (std_copy _ _ _ _ _); [|done..]. by injection Hv' as <-.
  - unfold SimpleVector_init in Hv'.
    destruct (ArrayPtr.create _ _); [|done..]. cbn [mbind result_bind] in Hv'.
    destruct (std_copy _ _ _ _ _); [|done..]. by injection Hv' as <-.
Qed.

Lemma SimpleVector_copy_returns (other : SimpleVector) :
  wf other \/ unbacked other -> size_ other <= alloc_limit ->
  exists v, SimpleVector_copy other = ROk v.
Proof.
  intros Ho Hn. unfold SimpleVector_copy, end_, begin_.
  rewrite Nat.sub_0_r, N2Nat.id.
  assert (size_ other < SIZE_MODULUS) as Hsize.
  { destruct Ho as [[Hs Hc _ _]|(-> & _)]; [lia|done]. }
  assert (N.to_nat (size_ other) <= block_len (Get (data_ other)))%nat as Hsrc.
  { destruct Ho as [[Hs _ Hb _]|(-> & _)]; [|simpl; lia].
    rewrite (block_len_cells other). lia. }
  destruct (SimpleVector_fill_returns (size_ other) Type_ Hn) as (temp & Ht).
  change (SimpleVector_count (size_ other)) with (SimpleVector_fill (size_ other) Type_).
  rewrite Ht. cbn [mbind result_bind].
  apply SimpleVector_fill_wf in Ht as (Htemp & Hts & Htc); [|done].
  destruct (std_copy_block (N.to_nat (size_ other)) (Get (data_ other)) 0
              (Get (data_ temp)) 0) as (copied & -> & _).
  { lia. }
  { rewrite (block_len_cells temp), Htc, length_replicate. lia. }
  by eexists.
Qed.

(** X3.  The copy constructor: the copy holds the elements of the
    source in order, and its capacity is the size of the source, so spare
    capacity of the source is not carried over. *)
Theorem constructor_copy (other : SimpleVector) :
  wf other -> size_ other <= alloc_limit ->
  exists v, SimpleVector_copy other = ROk v /\
    items v = items other /\
    GetSize v = GetSize other /\ GetCapacity v = GetSize other /\
    wf v.
Proof.
  intros Ho Hn.
  destruct (SimpleVector_copy_returns other (or_introl Ho) Hn) as (v & Hv).
  exists v. split; [done|]. pose proof Hv as Hv'.
  apply SimpleVector_copy_wf in Hv as (Hwf & Hlive); [|by left].
  split; [unfold items; by rewrite Hlive|].
  assert (size_ v = size_ other /\ capacity_ v = size_ other) as [Hs Hc].
  { unfold SimpleVector_copy, end_, begin_ in Hv'.
    rewrite Nat.sub_0_r, N2Nat.id in Hv'.
    destruct (SimpleVector_count _) as [temp| |] eqn:Et; [|done..].
    cbn [mbind result_bind] in Hv'.
    destruct (std_copy _ _ _ _ _); [|done..]. injection Hv' as <-.
    unfold swap. vsimpl.
    apply SimpleVector_fill_wf in Et as (Htemp & Hts & Htc); [|destruct Ho; lia].
    pose proof (wf_block temp Htemp) as Hb. rewrite Htc, length_replicate in Hb.
    split; [done|lia]. }
  done.
Qed.

(** ** Element access *)

(** X4.  On a well-formed vector both accessors return the element of
    the sequence at the given index: for an index below the size [At] and
    [operator[]] give that element and leave the vector as it is. *)
Theorem At_returns_element (v : SimpleVector) (i : N) (x : T) :
  wf v -> items v !! N.to_nat i = Some x ->
  At i v = Ok (Some x) v /\ index i v = Ok (Some x) v /\ i < GetSize v.
Proof.
  intros Hwf Hi.
  assert (live v !! N.to_nat i = Some (Some x)) as Hlive
    by (by rewrite (live_items v Hwf), list_lookup_fmap, Hi).
  assert (i < size_ v) as Hlt.
  { apply lookup_lt_Some in Hi. rewrite (items_length v Hwf) in Hi. lia. }
  split; [|split; [by apply index_live|done]].
  unfold At. unfold_method.
  destruct (N.leb_spec (size_ v) i); [lia|].
  pose proof (index_live v i (Some x) Hlive) as Hidx.
  unfold index, mseq, this, lift in Hidx. exact Hidx.
Qed.

(** ** [Reserve], [PopBack], [Clear] *)

(** X5.  [Reserve(n)] on a well-formed vector: with [n <= capacity] the
    vector is left exactly as it is; otherwise, the allocation
    succeeding, the capacity becomes exactly [n] while size and elements
    stay the same. *)
Theorem Reserve_keeps_elements (n : N) (v : SimpleVector) :
  alloc_limit < SIZE_MODULUS ->
  wf v ->
  (capacity_ v < n -> n <= alloc_limit) ->
  exists v', Reserve n v = Ok tt v' /\
    GetSize v' = GetSize v /\ items v' = items v /\
    (n <= GetCapacity v -> v' = v) /\
    (GetCapacity v < n -> GetCapacity v' = n) /\
    wf v'.
Proof.
  intros Hfit Hwf Halloc.
  destruct (Reserve_ok n v Hfit Hwf Halloc) as (v' & Hres & Hsize & Hcap & Hlive & Hwf').
  exists v'. unfold GetSize, GetCapacity. split; [done|]. split; [done|].
  split; [unfold items; by rewrite Hlive|]. split; [|split; [|done]].
  - intros Hle. unfold Reserve in Hres. unfold mseq, this, lift, assign, mreturn in Hres.
    destruct (N.leb_spec n (capacity_ v)); [|lia]. by injection Hres as <-.
  - intros Hlt. lia.
Qed.

(** X6.  [PopBack()] on a well-formed, non-empty vector drops the last
    element and changes nothing else: the other elements, the capacity and
    the buffer are as before. *)
Theorem PopBack_drops_last (v : SimpleVector) :
  wf v -> 0 < size_ v ->
  exists v', PopBack v = Ok tt v' /\
    GetSize v' = GetSize v - 1 /\ GetCapacity v' = GetCapacity v /\
    items v' = take (N.to_nat (GetSize v) - 1) (items v) /\
    cells v' = cells v /\ wf v'.
Proof.
  intros Hwf Hpos.
  destruct (PopBack_ok v Hwf Hpos) as (v' & Hpop & Hsize & Hcap & Hlive & Hwf').
  exists v'. unfold GetSize, GetCapacity. do 3 (split; [done|]).
  split; [|split; [|done]].
  - apply items_of_live. by rewrite Hlive, (live_items v Hwf), fmap_take.
  - unfold PopBack in Hpop. unfold mseq, this, lift, assign, mreturn in Hpop. by injection Hpop as <-.
Qed.

(** X7.  [PushBack(x)] followed by [PopBack()] gives back the original
    size and elements (the capacity may have grown), for [x] an object
    outside the buffer, and for [x] an element of the vector while the
    vector is not full. *)
Theorem PushBack_then_PopBack (element : reference T) (v : SimpleVector) :
  alloc_limit < SIZE_MODULUS ->
  wf v ->
  (size_ v = capacity_ v -> N.max 1 (capacity_ v * 2) <= alloc_limit) ->
  names_element element v ->
  is_temporary element \/ size_ v < capacity_ v ->
  exists v1 v2, PushBack element v = Ok tt v1 /\ PopBack v1 = Ok tt v2 /\
    GetSize v2 = GetSize v /\ items v2 = items v /\ wf v2.
Proof.
  intros Hfit Hwf Halloc Hel Hsafe. pose proof (live_length v Hwf) as Hlen.
  assert (exists x, referent element v = Some x) as [x Hx].
  { destruct element as [y|i]; [by exists y|]. cbn in *. unfold end_ in Hel.
    apply lookup_lt_is_Some_2. rewrite (items_length v Hwf). lia. }
  destruct (PushBack_reference_ok element x v Hfit Hwf Halloc Hx Hsafe)
    as (v1 & Hpush & Hsize1 & _ & Hlive1 & Hwf1).
  destruct (PopBack_ok v1 Hwf1) as (v2 & Hpop & Hsize2 & _ & Hlive2 & Hwf2); [lia|].
  exists v1, v2. unfold GetSize. do 2 (split; [done|]). split; [lia|].
  split; [|done]. unfold items. rewrite Hlive2, Hlive1, Hsize1.
  by rewrite take_app_length' by lia.
Qed.

(** X8.  [PopBack()] does not check for an empty vector: called with
    size 0 it returns normally and the size wraps to [SIZE_MAX]
    ([2^64 - 1]), above the capacity.  The vector no longer reports
    itself empty, and [At(i)] past the buffer, instead of throwing
    [std::out_of_range], reads outside the buffer. *)
Theorem PopBack_on_empty_wraps (v : SimpleVector) :
  size_ v = 0 ->
  exists v', PopBack v = Ok tt v' /\
    GetSize v' = SIZE_MODULUS - 1 /\ IsEmpty v' = false /\
    GetCapacity v' = GetCapacity v /\ cells v' = cells v /\
    (GetCapacity v < SIZE_MODULUS - 1 -> GetCapacity v' < GetSize v') /\
    (forall i, i < SIZE_MODULUS - 1 -> (length (cells v) <= N.to_nat i)%nat ->
       At i v' = Undefined).
Proof.
  intros Hsize. unfold PopBack. unfold_method. rewrite Hsize.
  eexists. split; [reflexivity|]. unfold GetSize, GetCapacity, IsEmpty, cells. vsimpl.
  change (decr 0) with (SIZE_MODULUS - 1).
  do 4 (split; [done|]). split; [done|].
  intros i Hi Hout. unfold At. unfold_method. vsimpl.
  destruct (N.leb_spec (SIZE_MODULUS - 1) i); [lia|].
  destruct (Get (data_ v)) as [b|]; simpl in *; [|done].
  by rewrite (lookup_ge_None_2 b (N.to_nat i)) by done.
Qed.

(** X9.  [Clear()] sets the size to 0 and keeps capacity and buffer, on
    every vector; afterwards the vector reports itself empty and [At]
    throws [std::out_of_range] for every index.  On a well-formed vector
    with capacity the next [PushBack] reuses the buffer: the capacity is
    unchanged, whatever the allocator would grant. *)
Theorem Clear_keeps_capacity (x : T) (v : SimpleVector) :
  alloc_limit < SIZE_MODULUS ->
  wf v ->
  exists v', Clear v = Ok tt v' /\
    GetSize v' = 0 /\ IsEmpty v' = true /\ items v' = [] /\
    GetCapacity v' = GetCapacity v /\ cells v' = cells v /\ wf v' /\
    (forall i, At i v' = Throw out_of_range v') /\
    (0 < GetCapacity v ->
     exists v'', PushBack (Outside x) v' = Ok tt v'' /\
       GetCapacity v'' = GetCapacity v /\ items v'' = [x]).
Proof.
  intros Hfit Hwf.
  destruct (Clear_ok v Hwf) as (v' & Hclear & Hsize & Hcap & Hcells & Hwf').
  exists v'. unfold GetSize, GetCapacity, IsEmpty. split; [done|].
  assert (live v' = []) as Hlive.
  { unfold live. rewrite Hsize. change (N.to_nat 0) with O. apply take_0. }
  split; [done|]. split; [by rewrite Hsize|]. split; [unfold items; by rewrite Hlive|].
  do 3 (split; [done|]). split.
  - intros i. unfold At. unfold_method. rewrite Hsize.
    by destruct (N.leb_spec 0 i); [|lia].
  - intros Hpos.
    destruct (PushBack_ok x v' Hfit Hwf') as (v'' & Hpush & _ & Hcap'' & Hlive'' & _);
      [lia|].
    exists v''. split; [done|]. split.
    + rewrite Hcap''. destruct (N.eqb_spec (size_ v') (capacity_ v')); [lia|done].
    + unfold items. by rewrite Hlive'', Hlive.
Qed.

(** ** [Erase] and [Insert] *)

(** X10.  [Erase(pos)] on a well-formed vector, for a position in
    [[begin, end)]: the element at [pos] is removed, the elements before
    it and after it keep their order, the size drops by one, the capacity
    is unchanged, and the iterator returned is [pos]. *)
Theorem Erase_removes (pos : nat) (v : SimpleVector) :
  wf v ->
  (begin_ v <= pos < end_ v)%nat ->
  exists v', Erase pos v = Ok pos v' /\
    items v' = take pos (items v) ++ drop (S pos) (items v) /\
    GetSize v' = GetSize v - 1 /\ GetCapacity v' = GetCapacity v /\
    wf v'.
Proof.
  intros Hwf [_ Hpos].
  destruct (Erase_ok pos v Hwf Hpos) as (v' & Her & Hsize & Hcap & Hlive & Hwf').
  exists v'. split; [done|]. split; [|done].
  apply items_of_live.
  by rewrite Hlive, (live_items v Hwf), fmap_app, fmap_take, fmap_drop.
Qed.

(** X11.  [Insert(pos, element)] on a well-formed vector, for a position
    in [[begin, end]], the allocation of a grown buffer succeeding, puts
    at [pos] the value [x] that [element] has when the code reads it: the
    elements before [pos] are unchanged, those from [pos] on follow [x]
    in their order, the size grows by one, the capacity doubles (1 from
    0) exactly when the vector was full, and the iterator returned is
    [pos].  For an object outside the buffer [x] is its value, and both
    overloads agree.  For the element at index [i] of the vector itself,
    [x] is that element when the vector reallocates or [i <= pos]; when
    the vector shifts in place and [pos < i], the shift has already moved
    the element and [x] is the element at index [i - 1]. *)
Theorem Insert_places (pos : nat) (element : reference T) (x : T) (v : SimpleVector) :
  alloc_limit < SIZE_MODULUS ->
  wf v ->
  (begin_ v <= pos <= end_ v)%nat ->
  (size_ v = capacity_ v -> N.max 1 (capacity_ v * 2) <= alloc_limit) ->
  names_element element v ->
  match element with
  | Outside y => y = x
  | Slot i =>
      items v !! (if (size_ v <? capacity_ v) && (pos <? i)%nat then (i - 1)%nat else i)
        = Some x
  end ->
  exists v', Insert pos element v = Ok pos v' /\
    (is_temporary element -> Insert_move pos element v = Ok pos v') /\
    items v' = take pos (items v) ++ x :: drop pos (items v) /\
    At (N.of_nat pos) v' = Ok (Some x) v' /\
    GetSize v' = GetSize v + 1 /\
    GetCapacity v' =
      (if GetSize v =? GetCapacity v then N.max 1 (GetCapacity v * 2)
       else GetCapacity v) /\
    wf v'.
Proof.
  intros Hfit Hwf [_ Hpos] Halloc Hel Hx. pose proof (live_length v Hwf) as Hlen.
  destruct (Insert_reference_ok pos element x v Hfit Hwf Hpos Halloc Hel Hx)
    as (v' & Hins & Hsize & Hcap & Hlive & Hwf').
  exists v'. split; [done|]. split.
  { intros Htemp. destruct element as [y|i]; [|done]. by rewrite Insert_move_eq. }
  assert (items v' = take pos (items v) ++ x :: drop pos (items v)) as Hitems.
  { apply items_of_live.
    by rewrite Hlive, (live_items v Hwf), fmap_app, fmap_cons, fmap_take, fmap_drop. }
  split; [done|]. split; [|done].
  unfold end_ in Hpos. unfold At. unfold_method.
  destruct (N.leb_spec (size_ v') (N.of_nat pos)); [lia|].
  pose proof (index_live v' (N.of_nat pos) (Some x)) as Hidx.
  unfold index, mseq, this, lift in Hidx. apply Hidx.
  rewrite Nat2N.id, Hlive.
  rewrite lookup_app_r by (rewrite length_take; lia).
  rewrite length_take, Hlen. by replace (pos - pos `min` N.to_nat (size_ v))%nat with O by lia.
Qed.

(** X12.  [Erase(pos)] followed by [Insert(pos, x)], [x] an object
    outside the buffer holding the value of the erased element, gives
    back the original elements, without reallocating: the capacity is
    unchanged, whatever the allocator would grant. *)
Theorem Erase_then_Insert (pos : nat) (x : T) (v : SimpleVector) :
  alloc_limit < SIZE_MODULUS ->
  wf v ->
  items v !! pos = Some x ->
  exists v1 v2, Erase pos v = Ok pos v1 /\ Insert pos (Outside x) v1 = Ok pos v2 /\
    items v2 = items v /\ GetSize v2 = GetSize v /\
    GetCapacity v2 = GetCapacity v /\ wf v2.
Proof.
  intros Hfit Hwf Hx. pose proof (live_length v Hwf) as Hlen.
  pose proof (wf_size v Hwf) as Hsc.
  assert (pos < N.to_nat (size_ v))%nat as Hpos.
  { apply lookup_lt_Some in Hx. by rewrite (items_length v Hwf) in Hx. }
  assert (live v !! pos = Some (Some x)) as Hlx
    by (by rewrite (live_items v Hwf), list_lookup_fmap, Hx).
  destruct (Erase_ok pos v Hwf Hpos) as (v1 & Her & Hsize1 & Hcap1 & Hlive1 & Hwf1).
  destruct (Insert_ok pos x v1 Hfit Hwf1) as (v2 & Hins & Hsize2 & Hcap2 & Hlive2 & Hwf2).
  { unfold end_. lia. }
  { lia. }
  exists v1, v2. unfold GetSize, GetCapacity. do 2 (split; [done|]).
  assert (live v2 = live v) as Hlive.
  { rewrite Hlive2, Hlive1.
    rewrite take_app_length' by (rewrite length_take; lia).
    rewrite drop_app_length' by (rewrite length_take; lia).
    by apply take_drop_middle. }
  split; [unfold items; by rewrite Hlive|]. split; [lia|]. split; [|done].
  rewrite Hcap2. destruct (N.eqb_spec (size_ v1) (capacity_ v1)); [lia|done].
Qed.

(** ** Overloads and exceptions *)

(** X13.  Called with an object outside the buffer, the overloads
    taking [Type&&] behave exactly as those taking [const Type&], on
    every vector and for every position: same returned iterator, same
    resulting vector, same failure. *)
Theorem rvalue_overloads_agree (pos : nat) (x : T) (v : SimpleVector) :
  PushBack_move (Outside x) v = PushBack (Outside x) v /\
  Insert_move pos (Outside x) v = Insert pos (Outside x) v.
Proof. split; [apply PushBack_move_eq|apply Insert_move_eq]. Qed.

(** X15.  When the allocator refuses the buffer an operation needs, the
    operation throws [std::bad_alloc] and the vector is unchanged:
    [PushBack] and [Insert] on a full vector whose doubled capacity
    (1 from 0) is refused, whatever their argument refers to, [Resize]
    and [Reserve] beyond the capacity with a refused size. *)
Theorem refused_allocation_throws (pos : nat) (element : reference T) (n : N)
  (v : SimpleVector) :
  capacity_ v <= size_ v ->
  capacity_ v * 2 < SIZE_MODULUS ->
  alloc_limit < N.max 1 (capacity_ v * 2) ->
  PushBack element v = Throw bad_alloc v /\ Insert pos element v = Throw bad_alloc v /\
  (N.max 1 (capacity_ v * 2) <= n ->
   Resize n v = Throw bad_alloc v /\ Reserve n v = Throw bad_alloc v).
Proof.
  intros Hfull Hsmall Hno.
  assert (ArrayPtr.create new_array (increased (capacity_ v)) = RThrow bad_alloc) as Hc.
  { rewrite increased_max by done. apply create_throws; lia. }
  split; [|split].
  - unfold PushBack. unfold_method.
    destruct (N.leb_spec (capacity_ v) (size_ v)); [|lia]. by rewrite Hc.
  - unfold Insert. unfold_method.
    destruct (N.leb_spec (capacity_ v) (size_ v)); [|lia]. by rewrite Hc.
  - intros Hn. split.
    + unfold Resize. unfold_method.
      destruct (N.ltb_spec (capacity_ v) n); [|lia].
      by rewrite create_throws by lia.
    + unfold Reserve. unfold_method.
      destruct (N.leb_spec n (capacity_ v)); [lia|].
      by rewrite create_throws by lia.
Qed.

(** ** Repeated [PushBack] *)

Lemma PushBack_all_cons (x : T) (xs : list T) (v v1 : SimpleVector) :
  PushBack (Outside x) v = Ok tt v1 -> PushBack_all (x :: xs) v = PushBack_all xs v1.
Proof. intros Hpush. cbn [PushBack_all]. unfold mseq. by rewrite Hpush. Qed.

Lemma items_snoc (v v1 : SimpleVector) (x : T) :
  wf v -> live v1 = live v ++ [Some x] -> items v1 = items v ++ [x].
Proof.
  intros Hwf Hlive. apply items_of_live. by rewrite Hlive, (live_items v Hwf), fmap_app.
Qed.

Lemma PushBack_all_within_capacity (xs : list T) (v : SimpleVector) :
  alloc_limit < SIZE_MODULUS ->
  wf v ->
  size_ v + N.of_nat (length xs) <= capacity_ v ->
  exists v', PushBack_all xs v = Ok tt v' /\
    capacity_ v' = capacity_ v /\ items v' = items v ++ xs /\
    size_ v' = size_ v + N.of_nat (length xs) /\ wf v'.
Proof.
  intros Hfit. revert v. induction xs as [|x xs IH]; intros v Hwf Hroom.
  - exists v. simpl. rewrite app_nil_r. split; [done|]. split; [done|].
    split; [done|]. split; [lia|done].
  - cbn [length] in Hroom.
    destruct (PushBack_ok x v Hfit Hwf) as (v1 & Hpush & Hsize1 & Hcap1 & Hlive1 & Hwf1);
      [lia|].
    assert (capacity_ v1 = capacity_ v) as Hc1.
    { rewrite Hcap1. destruct (N.eqb_spec (size_ v) (capacity_ v)); [lia|done]. }
    destruct (IH v1 Hwf1) as (v' & Hall & Hcap & Hitems & Hsize & Hwf'); [lia|].
    exists v'. rewrite (PushBack_all_cons x xs v v1 Hpush). split; [done|].
    split; [lia|]. split; [|split; [cbn [length]; lia|done]].
    by rewrite Hitems, (items_snoc v v1 x Hwf Hlive1), <- app_assoc.
Qed.

Lemma PushBack_all_doubles (xs : list T) (v : SimpleVector) :
  alloc_limit < SIZE_MODULUS ->
  wf v ->
  doubled v ->
  (xs <> [] -> 2 * (size_ v + N.of_nat (length xs)) <= alloc_limit) ->
  exists v', PushBack_all xs v = Ok tt v' /\
    wf v' /\ doubled v' /\ items v' = items v ++ xs /\
    size_ v' = size_ v + N.of_nat (length xs).
Proof.
  intros Hfit. revert v. induction xs as [|x xs IH]; intros v Hwf Hd Halloc.
  - exists v. simpl. rewrite app_nil_r. split; [done|]. split; [done|].
    split; [done|]. split; [done|lia].
  - specialize (Halloc ltac:(done)). cbn [length] in Halloc.
    pose proof (wf_size v Hwf) as Hsc.
    destruct (PushBack_ok x v Hfit Hwf) as (v1 & Hpush & Hsize1 & Hcap1 & Hlive1 & Hwf1);
      [lia|].
    assert (doubled v1) as Hd1.
    { right. destruct Hd as [[Hs Hc]|(k & Hk & Hlt)].
      - exists 0. rewrite Hcap1, Hsize1, Hs, Hc. simpl. lia.
      - destruct (N.eqb_spec (size_ v) (capacity_ v)) as [Heq|Hne].
        + exists (N.succ k). rewrite Hcap1, Hsize1, N.pow_succ_r', <- Hk. lia.
        + exists k. rewrite Hcap1, Hsize1. lia. }
    destruct (IH v1 Hwf1 Hd1) as (v' & Hall & Hwf' & Hd' & Hitems & Hsize); [lia|].
    exists v'. rewrite (PushBack_all_cons x xs v v1 Hpush).
    do 3 (split; [done|]). split; [|cbn [length]; lia].
    by rewrite Hitems, (items_snoc v v1 x Hwf Hlive1), <- app_assoc.
Qed.

(** X16.  Pushing the elements of a non-empty list one by one into a
    default-constructed vector, the allocator granting twice the length
    of the list: the vector holds the list, and its capacity is a power
    of two, at least the size and less than twice the size (each
    reallocation doubles, from 1). *)
Theorem PushBack_from_empty_doubles (xs : list T) :
  alloc_limit < SIZE_MODULUS ->
  xs <> [] ->
  2 * N.of_nat (length xs) <= alloc_limit ->
  exists v, PushBack_all xs SimpleVector_default = Ok tt v /\
    items v = xs /\ GetSize v = N.of_nat (length xs) /\
    (exists k : N, GetCapacity v = 2 ^ k) /\
    GetSize v <= GetCapacity v /\ GetCapacity v < 2 * GetSize v /\
    wf v.
Proof.
  intros Hfit Hne Halloc.
  destruct (PushBack_all_doubles xs SimpleVector_default Hfit empty_wf)
    as (v & Hall & Hwf & Hd & Hitems & Hsize).
  { by left. }
  { intros _. simpl. lia. }
  exists v. unfold GetSize, GetCapacity. split; [done|]. split; [done|].
  simpl in Hsize. split; [lia|].
  pose proof (wf_size v Hwf).
  destruct Hd as [[Hs Hc]|(k & Hk & Hlt)].
  - destruct xs; [done|]. simpl in Hsize. lia.
  - split; [by exists k|]. split; [done|]. split; [done|done].
Qed.

(** X17.  While the size stays within the capacity, [PushBack] never
    reallocates: pushing a list that fits into the spare capacity (for
    instance after [Reserve]) leaves the capacity as it is and appends
    the list, whatever the allocator would grant. *)
Theorem PushBack_within_capacity (xs : list T) (v : SimpleVector) :
  alloc_limit < SIZE_MODULUS ->
  wf v ->
  GetSize v + N.of_nat (length xs) <= GetCapacity v ->
  exists v', PushBack_all xs v = Ok tt v' /\
    GetCapacity v' = GetCapacity v /\ items v' = items v ++ xs /\
    GetSize v' = GetSize v + N.of_nat (length xs) /\ wf v'.
Proof. apply PushBack_all_within_capacity. Qed.

(** ** Comparisons *)

(** X18.  Comparison looks at the elements only, not at the capacity:
    two well-formed vectors with the same element sequence (a vector and
    its copy, a vector before and after [Reserve]) compare equal, and
    neither is less than the other, provided every element is equal to
    itself and not less than itself. *)
Theorem same_elements_compare_equal (eqT ltT : T -> T -> bool) (a b : SimpleVector) :
  wf a -> wf b ->
  items a = items b ->
  (forall x, x ∈ items a -> eqT x x = true /\ ltT x x = false) ->
  op_eq eqT a b = ROk true /\ op_ne eqT a b = ROk false /\
  op_lt ltT a b = ROk false /\ op_gt ltT a b = ROk false /\
  op_le eqT ltT a b = ROk true /\ op_ge eqT ltT a b = ROk true.
Proof.
  intros Ha Hb Hitems Hrefl.
  assert (forall l : list T, (forall x, x ∈ l -> eqT x x = true /\ ltT x x = false) ->
            spec_equal eqT l l /\ ~ spec_lex_less ltT l l) as Hspec.
  { intros l Hl. split.
    - split; [done|]. intros i x y Hx Hy. rewrite Hx in Hy. injection Hy as <-.
      apply Hl. by eapply list_elem_of_lookup_2.
    - intros (k & _ & [[Hk Hlt]|(x & y & Hx & Hy & Hxy)]); [lia|].
      rewrite Hx in Hy. injection Hy as <-.
      destruct (Hl x) as [_ Hirr]; [by eapply list_elem_of_lookup_2|]. congruence. }
  destruct (Hspec (items a) Hrefl) as [Heq Hnlt].
  destruct (op_eq_spec eqT a b (or_introl Ha) (or_introl Hb)) as (e & He & Hes).
  destruct (op_lt_spec ltT a b (or_introl Ha) (or_introl Hb)) as (l & Hl & Hls).
  destruct (op_eq_spec eqT b a (or_introl Hb) (or_introl Ha)) as (e' & He' & Hes').
  destruct (op_lt_spec ltT b a (or_introl Hb) (or_introl Ha)) as (l' & Hl' & Hls').
  rewrite <- Hitems in *.
  assert (e = true) as -> by (by apply Hes).
  assert (e' = true) as -> by (by apply Hes').
  assert (l = false) as -> by (destruct l; [by destruct Hnlt; apply Hls|done]).
  assert (l' = false) as -> by (destruct l'; [by destruct Hnlt; apply Hls'|done]).
  unfold op_ne, op_gt, op_le, op_ge. rewrite He, Hl, He', Hl'. done.
Qed.

Lemma spec_lex_less_asymmetric (ltT : T -> T -> bool) (l1 l2 : list T) :
  (forall x y, ltT x y = true -> ltT y x = false) ->
  spec_lex_less ltT l1 l2 -> spec_lex_less ltT l2 l1 -> False.
Proof.
  intros Hasym (k1 & Hag1 & Hk1) (k2 & Hag2 & Hk2).
  destruct (Nat.lt_trichotomy k1 k2) as [Hlt|[->|Hlt]].
  - destruct Hk1 as [[Hlen1 Hlen2]|(x & y & Hx & Hy & Hxy)].
    + destruct Hk2 as [[Hl2 Hl1]|(y & x & _ & Hx & _)]; [lia|].
      apply lookup_lt_Some in Hx. lia.
    + destruct (Hag2 k1 y x Hlt Hy Hx) as [_ ?]. congruence.
  - destruct Hk1 as [[Hlen1 Hlen2]|(x & y & Hx & Hy & Hxy)].
    + destruct Hk2 as [[Hl2 Hl1]|(y & x & _ & Hx & _)]; [lia|].
      apply lookup_lt_Some in Hx. lia.
    + destruct Hk2 as [[Hl2 Hl1]|(y' & x' & Hy' & Hx' & Hyx)].
      * apply lookup_lt_Some in Hy. lia.
      * rewrite Hx in Hx'. rewrite Hy in Hy'. injection Hx' as <-. injection Hy' as <-.
        apply Hasym in Hxy. congruence.
  - destruct Hk2 as [[Hlen2 Hlen1]|(y & x & Hy & Hx & Hyx)].
    + destruct Hk1 as [[Hl1 Hl2]|(x & y & _ & Hy & _)]; [lia|].
      apply lookup_lt_Some in Hy. lia.
    + destruct (Hag1 k2 x y Hlt Hx Hy) as [_ ?]. congruence.
Qed.

(** X19.  When the element type's [operator<] is asymmetric, so is the
    vectors': for two well-formed vectors with [a < b], [b < a] is false,
    hence [a > b] is false, and [a <= b] is true. *)
Theorem less_than_asymmetric (eqT ltT : T -> T -> bool) (a b : SimpleVector) :
  wf a -> wf b ->
  (forall x y, ltT x y = true -> ltT y x = false) ->
  op_lt ltT a b = ROk true ->
  op_lt ltT b a = ROk false /\ op_gt ltT a b = ROk false /\
  op_le eqT ltT a b = ROk true.
Proof.
  intros Ha Hb Hasym Hab.
  destruct (op_lt_spec ltT a b (or_introl Ha) (or_introl Hb)) as (l & Hl & Hls).
  destruct (op_lt_spec ltT b a (or_introl Hb) (or_introl Ha)) as (l' & Hl' & Hls').
  rewrite Hab in Hl. injection Hl as <-.
  assert (l' = false) as ->.
  { destruct l'; [|done]. exfalso.
    eapply (spec_lex_less_asymmetric ltT (items a) (items b)); [done|by apply Hls|by apply Hls']. }
  unfold op_gt, op_le. rewrite Hl', Hab. done.
Qed.

(** ** What holds of every vector a program can build *)

(** X20.  On every vector a program can build, with whatever
    constructor and operations, each index below the size can be read:
    [At] and [operator[]] return an initialised element there, and the
    element sequence has exactly [GetSize()] elements. *)
Theorem constructible_elements_readable (v : SimpleVector) (i : N) :
  alloc_limit < SIZE_MODULUS ->
  reachable v ->
  i < GetSize v ->
  N.to_nat (GetSize v) = length (items v) /\
  exists x, items v !! N.to_nat i = Some x /\
    At i v = Ok (Some x) v /\ index i v = Ok (Some x) v.
Proof.
  intros Hfit Hv Hi. unfold GetSize in *.
  destruct (reachable_wf_or_unbacked v Hfit Hv) as [Hwf|(Hz & _)]; [|lia].
  pose proof (items_length v Hwf) as Hlen. split; [done|].
  destruct (lookup_lt_is_Some_2 (items v) (N.to_nat i)) as [x Hx]; [lia|].
  exists x. split; [done|].
  assert (live v !! N.to_nat i = Some (Some x)) as Hlive
    by (by rewrite (live_items v Hwf), list_lookup_fmap, Hx).
  pose proof (index_live v i (Some x) Hlive) as Hidx.
  split; [|done]. unfold At. unfold_method.
  destruct (N.leb_spec (size_ v) i); [lia|].
  unfold index, mseq, this, lift in Hidx. exact Hidx.
Qed.

(** X21.  The representation invariant (size within capacity, a
    buffer of exactly [capacity] slots, initialised elements) is kept by
    every operation called with its precondition on a well-formed vector,
    also when the call throws.  When the allocation the operation needs
    is granted the call does return, without undefined behaviour, except
    for [PushBack] of an element of the vector itself when the vector is
    full: that call reads the element in the buffer it has deleted and
    has no defined result. *)
Theorem operations_keep_well_formed (o : operation) (v : SimpleVector) :
  alloc_limit < SIZE_MODULUS ->
  wf v -> precondition o v ->
  (forall v', perform o v = Some v' -> wf v') /\
  (allocation_succeeds o v -> ~ reads_deleted_buffer o v ->
   exists v', perform o v = Some v' /\ wf v') /\
  (allocation_succeeds o v -> reads_deleted_buffer o v -> perform o v = None).
Proof.
  intros Hfit Hwf Hpre. split; [|split].
  - intros v'. by apply perform_wf.
  - by apply perform_returns.
  - intros Halloc Hdel. pose proof (wf_size v Hwf) as Hsc.
    destruct o as [[x|i]|[x|i]| |pos x|pos x|pos|n|n| ];
      cbn [reads_deleted_buffer precondition is_temporary] in *; try done.
    cbn [allocation_succeeds perform] in *.
    assert (increased (capacity_ v) <= alloc_limit) as Hinc.
    { specialize (Halloc ltac:(lia)). rewrite increased_max; [done|]. lia. }
    destruct (PushBack_Slot_full i v Hdel) as (_ & _ & Hundef).
    by destruct (Hundef Hinc) as [-> _].
Qed.

(** ** Assignment of vectors *)

(** X22.  Move assignment between two different vectors: the
    destination takes over size, capacity and buffer of the source, the
    source is left empty (size 0, capacity 0, no buffer) and well formed,
    no other vector changes; destination and source end as the move
    constructor leaves the new object and its argument.  Assigning a
    vector to itself changes nothing. *)
Theorem move_assign_empties_source (st : gmap nat SimpleVector) (a b : nat)
  (va vb : SimpleVector) :
  st !! a = Some va -> st !! b = Some vb -> a <> b ->
  (exists st' va' vb', SimpleVector_move_assign a b st = ROk st' /\
     st' !! a = Some va' /\ st' !! b = Some vb' /\
     GetSize va' = GetSize vb /\ GetCapacity va' = GetCapacity vb /\
     cells va' = cells vb /\ items va' = items vb /\ (wf vb -> wf va') /\
     GetSize vb' = 0 /\ GetCapacity vb' = 0 /\ Get (data_ vb') = None /\ wf vb' /\
     SimpleVector_move vb = (va', vb') /\
     forall c, c <> a -> c <> b -> st' !! c = st !! c) /\
  SimpleVector_move_assign a a st = ROk st.
Proof.
  intros Ha Hb Hab. unfold SimpleVector_move_assign. rewrite Ha, Hb.
  rewrite (decide_True (P := a = a)) by done.
  rewrite (decide_False (P := a = b)) by done.
  split; [|done]. eexists. eexists. eexists. split; [reflexivity|].
  split; [by rewrite lookup_insert_eq|].
  split; [by rewrite lookup_insert_ne, lookup_insert_eq by done|].
  unfold GetSize, GetCapacity, cells, items, live, cells. vsimpl.
  do 4 (split; [done|]). split; [by apply wf_same|].
  do 3 (split; [done|]). split; [apply empty_wf|].
  split; [by destruct vb as [sb cb [pb]]|].
  intros c Hca Hcb. by rewrite !lookup_insert_ne by done.
Qed.

(** X23.  Copy assignment between two different vectors, the source well
    formed: when the allocator grants the size of the source, the
    destination holds the elements of the source with capacity equal to
    that size, and the source and every other vector are unchanged; when
    it does not, [std::bad_alloc] is thrown.  Assigning a vector to itself
    changes nothing. *)
Theorem copy_assign_copies (st : gmap nat SimpleVector) (a b : nat)
  (va vb : SimpleVector) :
  st !! a = Some va -> st !! b = Some vb -> a <> b -> wf vb ->
  (size_ vb <= alloc_limit ->
   exists st' va', SimpleVector_copy_assign a b st = ROk st' /\
     st' !! a = Some va' /\
     items va' = items vb /\ GetSize va' = GetSize vb /\
     GetCapacity va' = GetSize vb /\ wf va' /\
     forall c, c <> a -> st' !! c = st !! c) /\
  (alloc_limit < size_ vb -> SimpleVector_copy_assign a b st = RThrow bad_alloc) /\
  SimpleVector_copy_assign a a st = ROk st.
Proof.
  intros Ha Hb Hab Hwf. unfold SimpleVector_copy_assign. rewrite Ha, Hb.
  rewrite (decide_True (P := a = a)) by done.
  rewrite (decide_False (P := a = b)) by done.
  split; [|split; [|done]].
  - intros Hn.
    destruct (SimpleVector_copy_returns vb (or_introl Hwf) Hn) as (temp & Ht).
    rewrite Ht. cbn [mbind result_bind].
    pose proof Ht as Ht'.
    apply SimpleVector_copy_wf in Ht as (Hwft & Hlive); [|by left].
    assert (size_ temp = size_ vb /\ capacity_ temp = size_ vb) as [Hs Hc].
    { unfold SimpleVector_copy, end_, begin_ in Ht'.
      rewrite Nat.sub_0_r, N2Nat.id in Ht'.
      destruct (SimpleVector_count _) as [t0| |] eqn:Et; [|done..].
      cbn [mbind result_bind] in Ht'.
      destruct (std_copy _ _ _ _ _); [|done..]. injection Ht' as <-.
      unfold swap. vsimpl.
      apply SimpleVector_fill_wf in Et as (Htemp & Hts & Htc); [|destruct Hwf; lia].
      pose proof (wf_block t0 Htemp) as Hbk. rewrite Htc, length_replicate in Hbk.
      split; [done|lia]. }
    eexists. eexists. split; [reflexivity|].
    split; [by rewrite lookup_insert_eq|].
    assert (wf (fst (swap va temp))) as Hwf'.
    { apply (wf_same temp); [done..|]. done. }
    assert (live (fst (swap va temp)) = live temp) as Hl' by done.
    split; [unfold items; by rewrite Hl', Hlive|].
    unfold GetSize, GetCapacity, swap. vsimpl. do 3 (split; [done|]).
    intros c Hca. by rewrite lookup_insert_ne by done.
  - intros Hno. unfold SimpleVector_copy, end_, begin_.
    rewrite Nat.sub_0_r, N2Nat.id.
    change (SimpleVector_count (size_ vb)) with (SimpleVector_fill (size_ vb) Type_).
    by rewrite SimpleVector_fill_throws by done.
Qed.

(** ** Calls outside the contract *)

Lemma load_past_block (p : ptr T) (i : nat) :
  (block_len p <= i)%nat -> load p i = RUndef.
Proof.
  destruct p as [b|]; simpl; [|done]. intros Hi.
  by rewrite (lookup_ge_None_2 b i) by lia.
Qed.

Lemma std_copy_within (n : nat) (src : ptr T) (first : nat) (dst : ptr T) (d_first : nat)
  (r : ptr T) :
  std_copy n src first dst d_first = ROk r ->
  n = O \/ (first + n <= block_len src)%nat.
Proof.
  revert first dst d_first. induction n as [|n IH]; intros first dst d_first; [by left|].
  cbn [std_copy]. destruct (load src first) as [c| |] eqn:El; [|done..].
  cbn [mbind result_bind]. destruct (store dst d_first c) as [dst'| |]; [|done..].
  cbn [mbind result_bind]. intros Hr. right.
  apply load_inv in El as (b & -> & Hb). apply lookup_lt_Some in Hb.
  apply IH in Hr as [->|Hr]; simpl in *; lia.
Qed.

(** X26.  Positions and indices are not checked.  On a well-formed
    vector [Erase] at [end()] or beyond (so every [Erase] on an empty
    vector) and [Insert] beyond [end()] have undefined behaviour;
    [operator[]] at the capacity or beyond reads outside the buffer, and
    between the size and the capacity it returns whatever the slot holds
    without complaint, where [At] throws [std::out_of_range]. *)
Theorem positions_are_unchecked (element : reference T) (v : SimpleVector) :
  wf v ->
  (forall pos, (end_ v <= pos)%nat -> Erase pos v = Undefined) /\
  (forall pos, (end_ v < pos)%nat ->
     (capacity_ v <= size_ v -> increased (capacity_ v) <= alloc_limit) ->
     Insert pos element v = Undefined) /\
  (forall i, GetCapacity v <= i -> index i v = Undefined) /\
  (forall i, GetSize v <= i -> i < GetCapacity v ->
     exists c, cells v !! N.to_nat i = Some c /\
       index i v = Ok c v /\ At i v = Throw out_of_range v).
Proof.
  intros Hwf. pose proof (wf_size v Hwf) as Hsc. pose proof (wf_block v Hwf) as Hbk.
  unfold GetSize, GetCapacity, end_. split; [|split; [|split]].
  - intros pos Hpos. unfold Erase. unfold_method.
    destruct (N.eqb_spec (size_ v) 0); [done|].
    unfold distance, end_. rewrite decide_False by lia. done.
  - intros pos Hpos Halloc. unfold Insert. unfold_method.
    destruct (N.leb_spec (capacity_ v) (size_ v)) as [Hfull|Hroom].
    + specialize (Halloc Hfull).
      destruct (ArrayPtr.create _ _) as [temp| |] eqn:Ec; [| |done].
      2:{ exfalso. unfold ArrayPtr.create, new_array in Ec.
          destruct (_ =? 0); [done|].
          by destruct (N.leb_spec (increased (capacity_ v)) alloc_limit); [|lia]. }
      destruct (std_fill _ _ _ _) as [filled| |] eqn:Ef;
        [|exfalso; eauto with no_throw|done].
      destruct (std_copy _ _ _ _ _) as [head| |] eqn:Eh;
        [|exfalso; eauto with no_throw|done].
      exfalso. apply std_copy_within in Eh as [->|Eh]; [lia|].
      rewrite block_len_cells in Eh. lia.
    + unfold distance, end_. rewrite decide_False by lia. done.
  - intros i Hi. unfold index. unfold_method.
    rewrite load_past_block; [done|]. rewrite block_len_cells. lia.
  - intros i Hlo Hhi.
    destruct (lookup_lt_is_Some_2 (cells v) (N.to_nat i)) as [c Hc]; [lia|].
    exists c. split; [done|]. split.
    + unfold index. unfold_method. by rewrite (load_block _ _ c).
    + unfold At. unfold_method. by destruct (N.leb_spec (size_ v) i); [|lia].
Qed.

(** ** Moving an element of the vector into the vector *)

(** X27.  [v.PushBack(std::move(v[i]))] on a well-formed vector that is
    not full: the value of the element at [i] is stored at the end, the
    size grows by one, the capacity is unchanged, and the slot of the
    element at [i] is left moved-from; no other slot changes. *)
Theorem PushBack_move_of_own_element (i : nat) (x : T) (v : SimpleVector) :
  wf v -> size_ v < capacity_ v -> items v !! i = Some x ->
  exists v', PushBack_move (Slot i) v = Ok tt v' /\
    GetSize v' = GetSize v + 1 /\ GetCapacity v' = GetCapacity v /\
    cells v' = <[i := None]> (<[N.to_nat (size_ v) := Some x]> (cells v)) /\
    At (size_ v) v' = Ok (Some x) v' /\
    At (N.of_nat i) v' = Ok None v'.
Proof.
  intros Hwf Hroom Hx.
  pose proof (wf_block v Hwf) as Hbk. pose proof (wf_fits v Hwf) as Hfits.
  pose proof (cells_of_items v i x Hwf Hx) as Hcell.
  assert (i < N.to_nat (size_ v))%nat as Hi.
  { apply lookup_lt_Some in Hx. by rewrite (items_length v Hwf) in Hx. }
  unfold cells in *.
  destruct (Get (data_ v)) as [b|] eqn:Hb; [|done]. cbn [block_of] in *.
  assert (PushBack_move (Slot i) v =
          Ok tt {| size_ := size_ v + 1; capacity_ := capacity_ v;
                   data_ := ArrayPtr.mk
                     (Some (<[i := None]> (<[N.to_nat (size_ v) := Some x]> b))) |})
    as Hpush.
  { unfold PushBack_move. unfold_method.
    destruct (N.leb_spec (capacity_ v) (size_ v)); [lia|].
    rewrite Hb. cbn [load]. rewrite Hcell.
    rewrite store_Some by lia. cbn [moved_from].
    rewrite store_Some by (rewrite length_insert; lia).
    by rewrite incr_small by lia. }
  eexists. split; [exact Hpush|].
  unfold GetSize, GetCapacity, At. unfold_method. vsimpl. cbn [block_of load].
  do 3 (split; [done|]). split.
  - destruct (N.leb_spec (size_ v + 1) (size_ v)); [lia|].
    rewrite list_lookup_insert_ne by lia.
    by rewrite list_lookup_insert_eq by lia.
  - destruct (N.leb_spec (size_ v + 1) (N.of_nat i)); [lia|].
    rewrite Nat2N.id. by rewrite list_lookup_insert_eq by (rewrite length_insert; lia).
Qed.

End SimpleVector.

(** C6 (the code departs from the claim).  The copy assignment of
    [ArrayPtr] cannot be instantiated: its body assigns to
    [other.raw_ptr_] through a reference to const, so a program that
    copy-assigns one [ArrayPtr] to another, or to itself, is ill-formed
    and there is no behaviour to speak of.  The move assignment, whose
    body is the same, does what the claim says: for two distinct objects
    [a] and [b], [a = std::move(b)] leaves [a] holding the raw pointer [b]
    held and leaves [b] null, every other object as it was; assigning an
    object to itself by move changes nothing. *)
Theorem copy_assign_ill_formed {H : Type} (st : gmap nat (ArrayPtr.t H)) (a b : nat)
  (pa pb : ArrayPtr.t H) :
  st !! a = Some pa -> st !! b = Some pb -> a <> b ->
  ArrayPtr.copy_assign (H := H) = IllFormed /\
  (exists st', ArrayPtr.move_assign a b st = Some st' /\
     st' !! a = Some pb /\
     st' !! b = Some ArrayPtr.null /\
     forall c, c <> a -> c <> b -> st' !! c = st !! c) /\
  ArrayPtr.move_assign a a st = Some st.
Proof.
  intros Ha Hb Hab. split; [reflexivity|].
  unfold ArrayPtr.move_assign, ArrayPtr.exchange_null. rewrite Ha, Hb.
  rewrite (decide_True (P := a = a)) by done.
  rewrite (decide_False (P := a = b)) by done.
  split; [|done]. eexists. split; [reflexivity|].
  split; [|split].
  - rewrite lookup_insert_eq. by destruct pb.
  - rewrite lookup_insert_ne, lookup_insert_eq by done. done.
  - intros c Hca Hcb. by rewrite !lookup_insert_ne by done.
Qed.

(** ** Ownership of the blocks held by [ArrayPtr] objects *)

Lemma holds_insert {H : Type} (st : gmap nat (ArrayPtr.t H)) (a c : nat)
  (q : option H) (p : H) :
  holds (<[a := ArrayPtr.mk q]> st) c p <->
  (c = a /\ q = Some p) \/ (c <> a /\ holds st c p).
Proof.
  unfold holds. destruct (decide (c = a)) as [->|Hne].
  - rewrite lookup_insert_eq. cbn. split.
    + intros Heq. left. split; [done|congruence].
    + intros [[_ ->]|[? _]]; done.
  - rewrite lookup_insert_ne by done. split.
    + intros Hc. by right.
    + intros [[? _]|[_ Hc]]; done.
Qed.

Lemma holds_lookup {H : Type} (st : gmap nat (ArrayPtr.t H)) (a : nat)
  (x : ArrayPtr.t H) (p : H) :
  st !! a = Some x -> ArrayPtr.raw_ptr_ x = Some p -> holds st a p.
Proof. intros Ha Hp. unfold holds, ArrayPtr.Get. rewrite Ha. cbn. by rewrite Hp. Qed.

Lemma exclusive_empty {H : Type} : exclusive (∅ : gmap nat (ArrayPtr.t H)).
Proof. intros a b p Ha. unfold holds in Ha. by rewrite lookup_empty in Ha. Qed.

Lemma exclusive_insert_fresh {H : Type} (st : gmap nat (ArrayPtr.t H)) (a : nat) (p : H) :
  exclusive st -> (forall c, ~ holds st c p) ->
  exclusive (<[a := ArrayPtr.mk (Some p)]> st).
Proof.
  intros Hex Hfresh c d q Hc Hd.
  apply holds_insert in Hc as [[Hca Hq]|[Hca Hc]];
    apply holds_insert in Hd as [[Hda Hq']|[Hda Hd]].
  - congruence.
  - injection Hq as <-. by destruct (Hfresh d).
  - injection Hq' as <-. by destruct (Hfresh c).
  - by apply (Hex c d q).
Qed.

Lemma assign_exclusive {H : Type} (st st' : gmap nat (ArrayPtr.t H)) (a b : nat) :
  exclusive st -> ArrayPtr.move_assign a b st = Some st' -> exclusive st'.
Proof.
  intros Hex. unfold ArrayPtr.move_assign, ArrayPtr.exchange_null.
  destruct (st !! a) as [xa|] eqn:Ha; [|done].
  destruct (st !! b) as [xb|] eqn:Hb; [|done].
  destruct (decide (a = b)) as [->|Hab]; [by intros [= <-]|].
  intros [= <-]. intros c d p Hc Hd.
  apply holds_insert in Hc as [[-> Hp]|[Hca Hc]];
    apply holds_insert in Hd as [[-> Hp']|[Hda Hd]]; [done| | |].
  - apply holds_insert in Hd as [[_ ?]|[Hdb Hd]]; [done|].
    destruct Hdb. apply (Hex d b p Hd). by eapply holds_lookup.
  - apply holds_insert in Hc as [[_ ?]|[Hcb Hc]]; [done|].
    destruct Hcb. apply (Hex c b p Hc). by eapply holds_lookup.
  - apply holds_insert in Hc as [[_ ?]|[_ Hc]]; [done|].
    apply holds_insert in Hd as [[_ ?]|[_ Hd]]; [done|].
    by apply (Hex c d p).
Qed.

(** X24.  Exclusive ownership is kept: in a store of [ArrayPtr] objects
    where no two objects hold the same block, none of move assignment,
    copy assignment, [swap] and [Release] makes two objects hold the same
    block; and after [Release] no object holds the block that was handed
    to the caller. *)
Theorem ownership_stays_exclusive {H : Type} (st : gmap nat (ArrayPtr.t H)) (a b : nat) :
  exclusive st ->
  (forall st', ArrayPtr.move_assign a b st = Some st' -> exclusive st') /\
  (forall body st', ArrayPtr.copy_assign = WellFormed body ->
     body a b st = Some st' -> exclusive st') /\
  (forall st', swap_at a b st = Some st' -> exclusive st') /\
  (forall r st', release_at a st = Some (r, st') ->
     exclusive st' /\ forall p c, r = Some p -> ~ holds st' c p).
Proof.
  intros Hex. split; [|split; [|split]].
  - intros st'. by apply assign_exclusive.
  - intros body st' Hbody. discriminate Hbody.
  - intros st'. unfold swap_at.
    destruct (st !! a) as [xa|] eqn:Ha; [|done].
    destruct (st !! b) as [xb|] eqn:Hb; [|done].
    intros [= <-].
    assert (forall c p, holds (<[b := ArrayPtr.mk (ArrayPtr.raw_ptr_ xa)]>
                                 (<[a := ArrayPtr.mk (ArrayPtr.raw_ptr_ xb)]> st)) c p ->
              exists c0, holds st c0 p /\
                ((c = b /\ c0 = a) \/ (c = a /\ c <> b /\ c0 = b) \/
                 (c <> a /\ c <> b /\ c0 = c))) as Hcases.
    { intros c p Hc. apply holds_insert in Hc as [[Hcb Hp]|[Hcb Hc]].
      - exists a. split; [by eapply holds_lookup|]. by left.
      - apply holds_insert in Hc as [[Hca Hp]|[Hca Hc]].
        + exists b. split; [by eapply holds_lookup|]. right. by left.
        + exists c. split; [done|]. right. by right. }
    intros c d p Hc Hd.
    apply Hcases in Hc as (c0 & Hc & Hcc).
    apply Hcases in Hd as (d0 & Hd & Hdd).
    pose proof (Hex c0 d0 p Hc Hd) as Heq.
    clear - Hcc Hdd Heq. intuition congruence.
  - intros r st'. unfold release_at.
    destruct (st !! a) as [xa|] eqn:Ha; [|done].
    intros [= <- <-]. split.
    + intros c d p Hc Hd.
      apply holds_insert in Hc as [[_ ?]|[_ Hc]]; [done|].
      apply holds_insert in Hd as [[_ ?]|[_ Hd]]; [done|].
      by apply (Hex c d p).
    + intros p c Hp Hc.
      apply holds_insert in Hc as [[_ ?]|[Hca Hc]]; [done|].
      destruct Hca. apply (Hex c a p Hc). by eapply holds_lookup.
Qed.

(** X25.  Move assignment drops the block of the destination: after
    [a = std::move(b)] on two different objects of a store with exclusive
    ownership, the block that [a] held is held by no object; the operator
    overwrites the pointer without passing it to [delete[]] or to anyone
    else. *)
Theorem assignment_orphans_block {H : Type} (st : gmap nat (ArrayPtr.t H)) (a b : nat)
  (p : H) :
  exclusive st -> holds st a p -> a <> b -> is_Some (st !! b) ->
  exists st', ArrayPtr.move_assign a b st = Some st' /\
    forall c, ~ holds st' c p.
Proof.
  intros Hex Hp Hab [xb Hb].
  assert (is_Some (st !! a)) as [xa Ha].
  { unfold holds in Hp. destruct (st !! a); [by eexists|done]. }
  unfold ArrayPtr.move_assign, ArrayPtr.exchange_null.
  rewrite Ha, Hb.
  rewrite (decide_False (P := a = b)) by done.
  eexists. split; [reflexivity|]. intros c Hc.
  apply holds_insert in Hc as [[-> Hq]|[Hca Hc]].
  - apply Hab. apply (Hex a b p Hp). by eapply holds_lookup.
  - apply holds_insert in Hc as [[_ ?]|[_ Hc]]; [done|].
    apply Hca. by apply (Hex c a p).
Qed.

(** ** What an operation needs of the allocator *)

(** The operations consult the allocator only through the outcome of the
    one allocation they make. *)
Lemma create_limit {T : Type} (limit limit' n : N) :
  (n <= limit)%N -> (n <= limit')%N ->
  ArrayPtr.create (new_array (T := T) limit) n = ArrayPtr.create (new_array limit') n.
Proof.
  intros Hl Hl'. unfold ArrayPtr.create, new_array.
  destruct (n =? 0)%N; [done|].
  by destruct (N.leb_spec n limit), (N.leb_spec n limit'); try lia.
Qed.

Lemma SimpleVector_init_limit {T : Type} (limit limit' : N) (init : list T) :
  (N.of_nat (length init) <= limit)%N -> (N.of_nat (length init) <= limit')%N ->
  SimpleVector_init limit init = SimpleVector_init limit' init.
Proof.
  intros Hl Hl'. unfold SimpleVector_init. by rewrite (create_limit limit limit').
Qed.

Lemma PushBack_limit {T : Type} (Type_ : T) (limit limit' : N) (x : T)
  (v : SimpleVector) :
  ((capacity_ v <= size_ v)%N ->
   (increased (capacity_ v) <= limit)%N /\ (increased (capacity_ v) <= limit')%N) ->
  PushBack Type_ limit (Outside x) v = PushBack Type_ limit' (Outside x) v.
Proof.
  intros Hl. unfold PushBack. unfold_method.
  destruct (N.leb_spec (capacity_ v) (size_ v)) as [Hfull|_]; [|done].
  destruct (Hl Hfull). by rewrite (create_limit limit limit').
Qed.

Lemma Insert_limit {T : Type} (Type_ : T) (limit limit' : N) (pos : nat) (x : T)
  (v : SimpleVector) :
  ((capacity_ v <= size_ v)%N ->
   (increased (capacity_ v) <= limit)%N /\ (increased (capacity_ v) <= limit')%N) ->
  Insert Type_ limit pos (Outside x) v = Insert Type_ limit' pos (Outside x) v.
Proof.
  intros Hl. unfold Insert. unfold_method.
  destruct (N.leb_spec (capacity_ v) (size_ v)) as [Hfull|_]; [|done].
  destruct (Hl Hfull). by rewrite (create_limit limit limit').
Qed.

(** ** The scenario of the specification, on [int] elements *)

Open Scope Z_scope.

(** ** Concrete vectors *)

(** [{1, 2, 3}] with no spare capacity, and [{5, 6}] with two spare
    slots. *)
Definition full3 : @SimpleVector Z :=
  {| size_ := 3; capacity_ := 3;
     data_ := ArrayPtr.mk (Some [Some 1; Some 2; Some 3]) |}.

Definition roomy : @SimpleVector Z :=
  {| size_ := 2; capacity_ := 4;
     data_ := ArrayPtr.mk (Some [Some 5; Some 6; None; None]) |}.

(** [{5, 6}] with no spare capacity. *)
Definition snug : @SimpleVector Z :=
  {| size_ := 2; capacity_ := 2; data_ := ArrayPtr.mk (Some [Some 5; Some 6]) |}.

(** Two vectors at the addresses 1 and 2. *)
Definition two_vectors : gmap nat (@SimpleVector Z) :=
  <[1%nat := full3]> (<[2%nat := roomy]> ∅).

(** Two [ArrayPtr] objects at the addresses 1 and 2, holding the blocks
    at 10 and 20. *)
Definition two_owners : gmap nat (ArrayPtr.t nat) :=
  <[1%nat := ArrayPtr.mk (Some 10%nat)]> (<[2%nat := ArrayPtr.mk (Some 20%nat)]> ∅).

(** The default-constructed vector after [PushBack(7)] and then
    [PushBack(8)]. *)
Definition pushed7 : @SimpleVector Z :=
  {| size_ := 1; capacity_ := 1; data_ := ArrayPtr.mk (Some [Some 7]) |}.

Definition pushed78 : @SimpleVector Z :=
  {| size_ := 2; capacity_ := 2; data_ := ArrayPtr.mk (Some [Some 7; Some 8]) |}.

(** The states the scenario goes through after [full3]. *)
Definition pushed4 : @SimpleVector Z :=
  {| size_ := 4; capacity_ := 6;
     data_ := ArrayPtr.mk (Some [Some 1; Some 2; Some 3; Some 4; Some 0; Some 0]) |}.

Definition erased1 : @SimpleVector Z :=
  {| size_ := 3; capacity_ := 6;
     data_ := ArrayPtr.mk (Some [Some 1; Some 3; Some 4; None; Some 0; Some 0]) |}.

Definition inserted0 : @SimpleVector Z :=
  {| size_ := 4; capacity_ := 6;
     data_ := ArrayPtr.mk (Some [Some 0; Some 1; Some 3; Some 4; Some 0; Some 0]) |}.

(** C2 (amended).  Starting from the vector built from [{1, 2, 3}], of
    size 3 and capacity 3: [PushBack(4)] gives size 4, capacity 6 (twice
    the old capacity) and content [1, 2, 3, 4]; then [Erase(begin() + 1)]
    gives content [1, 3, 4] and size 3; then [Insert(begin(), 0)] gives
    content [0, 1, 3, 4] and size 4. *)
Theorem scenario_push_erase_insert (alloc_limit : N) :
  (6 <= alloc_limit)%N ->
  exists (v0 v1 v2 v3 : @SimpleVector Z) (it1 it2 : nat),
    SimpleVector_init alloc_limit [1; 2; 3] = ROk v0 /\
    GetSize v0 = 3%N /\ GetCapacity v0 = 3%N /\ items v0 = [1; 2; 3] /\
    PushBack 0 alloc_limit (Outside 4) v0 = Ok tt v1 /\
    GetSize v1 = 4%N /\ GetCapacity v1 = 6%N /\ items v1 = [1; 2; 3; 4] /\
    Erase (begin_ v1 + 1) v1 = Ok it1 v2 /\
    items v2 = [1; 3; 4] /\ GetSize v2 = 3%N /\
    Insert 0 alloc_limit (begin_ v2) (Outside 0) v2 = Ok it2 v3 /\
    items v3 = [0; 1; 3; 4] /\ GetSize v3 = 4%N.
Proof.
  intros Hlimit. exists full3, pushed4, erased1, inserted0, 1%nat, 0%nat.
  split.
  { rewrite (SimpleVector_init_limit alloc_limit 6) by (cbn; lia).
    vm_compute. reflexivity. }
  do 3 (split; [reflexivity|]).
  split.
  { rewrite (PushBack_limit 0 alloc_limit 6) by (intros _; change (increased _) with 6%N; lia).
    vm_compute. reflexivity. }
  do 3 (split; [reflexivity|]).
  split; [vm_compute; reflexivity|].
  do 2 (split; [reflexivity|]).
  split.
  { rewrite (Insert_limit 0 alloc_limit 6) by (intros Hfull; exfalso; apply Hfull; reflexivity).
    vm_compute. reflexivity. }
  split; reflexivity.
Qed.

(** C2 (as the specification states it).  No allocator lets the
    [PushBack(4)] of the scenario end with capacity 8: the capacity after
    it is 6. *)
Lemma scenario_capacity_8_refuted :
  ~ (exists (alloc_limit : N) (v0 v1 : @SimpleVector Z),
       SimpleVector_init alloc_limit [1; 2; 3] = ROk v0 /\
       GetSize v0 = 3%N /\ GetCapacity v0 = 3%N /\
       PushBack 0 alloc_limit (Outside 4) v0 = Ok tt v1 /\
       GetSize v1 = 4%N /\ GetCapacity v1 = 8%N /\ items v1 = [1; 2; 3; 4]).
Proof.
  intros (alloc_limit & v0 & v1 & Hinit & _ & _ & Hpush & _ & Hcap & _).
  destruct (N.le_gt_cases 6 alloc_limit) as [Hlimit|Hlimit].
  - rewrite (SimpleVector_init_limit alloc_limit 6) in Hinit by (cbn; lia).
    vm_compute in Hinit. injection Hinit as <-.
    rewrite (PushBack_limit 0 alloc_limit 6) in Hpush by (intros _; change (increased _) with 6%N; lia).
    vm_compute in Hpush. injection Hpush as <-. vm_compute in Hcap. done.
  - unfold SimpleVector_init, ArrayPtr.create, new_array in Hinit.
    change (N.of_nat (length [1; 2; 3])) with 3%N in Hinit.
    change (3 =? 0)%N with false in Hinit. cbn iota in Hinit.
    destruct (N.leb_spec 3 alloc_limit) as [H3|H3]; [|done].
    change (ROk (replicate (N.to_nat 3) None) ≫= _)
      with (ROk (ArrayPtr.mk (Some (replicate 3 (@None Z))))) in Hinit.
    vm_compute in Hinit. injection Hinit as <-.
    unfold PushBack, mseq, this, lift, assign, mreturn, ArrayPtr.create, new_array
      in Hpush.
    change (capacity_ _ <=? size_ _)%N with true in Hpush. cbn iota zeta in Hpush.
    change (increased _) with 6%N in Hpush.
    change (6 =? 0)%N with false in Hpush. cbn iota in Hpush.
    destruct (N.leb_spec 6 alloc_limit) as [?|_]; [lia|].
    done.
Qed.

(** Well-formedness of a vector given by its fields. *)
Ltac wf_by_computation :=
  split; [ cbn; lia | reflexivity | reflexivity | repeat constructor; eexists; reflexivity ].

(** ** The theorems at concrete vectors *)

(** [SimpleVector<int> v(Reserve(5)); v.PushBack(7);] *)
Lemma reserve_constructor_allocates_nothing_witness :
  exists v : @SimpleVector Z,
    SimpleVector_reserve 0 100 (Reserve_proxy 5) = ROk v /\
    GetCapacity v = 5%N /\ cells v = [] /\
    PushBack 0 100 (Outside 7) v = Undefined.
Proof.
  destruct (reserve_constructor_allocates_nothing 0 100%N 5%N 7)
    as [(v & Hv & _ & Hc & _ & Hcells & Hpush) _]; [lia|].
  exists v. split; [exact Hv|]. split; [exact Hc|]. split; [exact Hcells|].
  exact (proj1 (Hpush (Outside 7))).
Defined.

(** The scenario with an allocator granting up to 100 elements. *)
Lemma scenario_push_erase_insert_witness :
  exists v0 v1 : @SimpleVector Z,
    SimpleVector_init 100 [1; 2; 3] = ROk v0 /\
    PushBack 0 100 (Outside 4) v0 = Ok tt v1 /\ GetCapacity v1 = 6%N.
Proof.
  destruct (scenario_push_erase_insert 100%N)
    as (v0 & v1 & _ & _ & _ & _ & H0 & _ & _ & _ & H1 & _ & Hc & _); [lia|].
  exists v0, v1. split; [exact H0|]. split; [exact H1 | exact Hc].
Defined.

(** [v.PushBack(v[0])] and [v.Insert(v.end(), v[0])] on the full vector
    [{1, 2, 3}]. *)
Lemma PushBack_appends_witness :
  PushBack 0 100 (Slot 0) full3 = Undefined /\
  PushBack_move 0 100 (Slot 0) full3 = Undefined /\
  exists v', Insert 0 100 3 (Slot 0) full3 = Ok 3%nat v' /\ items v' = [1; 2; 3; 1].
Proof.
  destruct (PushBack_appends 0 100%N (Slot 0) 1 full3) as [_ Hown];
    [reflexivity | wf_by_computation | intros _; vm_compute; discriminate
    | reflexivity |].
  destruct Hown as (Hp & Hm & v' & Hi & Hitems & _); [intros [] | reflexivity |].
  split; [exact Hp|]. split; [exact Hm|]. exists v'. split; [exact Hi | exact Hitems].
Defined.

(** [Resize(5)] on the full vector [{1, 2, 3}]. *)
Lemma Resize_sets_size_witness :
  exists v', Resize 0 100 5 full3 = Ok tt v' /\
    GetSize v' = 5%N /\ GetCapacity v' = 5%N /\ items v' = [1; 2; 3; 0; 0].
Proof.
  destruct (Resize_sets_size 0 100%N 5%N full3)
    as [(v' & Hr & Hs & Hgrow & _) _];
    [reflexivity | wf_by_computation | intros _; lia |].
  destruct Hgrow as [Hc Hi]; [reflexivity|].
  exists v'. split; [exact Hr|]. split; [exact Hs|]. split; [exact Hc | exact Hi].
Defined.

(** Two [ArrayPtr] objects at addresses 1 and 2, holding the blocks at 10
    and 20. *)
Lemma copy_assign_ill_formed_witness :
  ArrayPtr.copy_assign (H := nat) = IllFormed /\
  exists st', ArrayPtr.move_assign 1 2 two_owners = Some st' /\
    st' !! 1%nat = Some (ArrayPtr.mk (Some 20%nat)) /\
    st' !! 2%nat = Some ArrayPtr.null.
Proof.
  destruct (copy_assign_ill_formed two_owners 1%nat 2%nat
              (ArrayPtr.mk (Some 10%nat)) (ArrayPtr.mk (Some 20%nat)))
    as (Hill & (st' & Hm & Ha & Hb & _) & _); [reflexivity | reflexivity | lia |].
  split; [exact Hill|]. exists st'. split; [exact Hm|]. split; [exact Ha | exact Hb].
Defined.

(** The default-constructed vector after two calls of [PushBack]. *)
Lemma size_within_capacity_witness :
  (0 <= GetSize pushed78)%N /\ (GetSize pushed78 <= GetCapacity pushed78)%N.
Proof.
  apply (size_within_capacity 0 100%N).
  apply (reach_operation 0 100%N (OpPushBack (Outside 8)) pushed7); [|exact I|reflexivity].
  apply (reach_operation 0 100%N (OpPushBack (Outside 7)) SimpleVector_default);
    [apply reach_default|exact I|reflexivity].
Defined.

(** [Insert(begin() + 1, 9)] on [{1, 2, 3}], then [Erase] at the returned
    position. *)
Lemma Insert_then_Erase_witness :
  exists it v1 v2, Insert 0 100 1 (Outside 9) full3 = Ok it v1 /\
    items v1 = [1; 9; 2; 3] /\
    Erase it v1 = Ok it v2 /\ items v2 = [1; 2; 3] /\ GetSize v2 = 3%N.
Proof.
  destruct (Insert_then_Erase 0 100%N 1%nat (Outside 9) full3)
    as (it & v1 & v2 & Hi & _ & Hit & He & Hs & Hitems & _);
    [reflexivity | wf_by_computation | vm_compute; lia
    | intros _; vm_compute; discriminate | exact I |].
  exists it, v1, v2. split; [exact Hi|]. split.
  { vm_compute in Hi. injection Hi as _ <-. reflexivity. }
  split; [exact He|]. split; [exact Hitems | exact Hs].
Defined.

(** [{1, 2, 3}], built from the list, against [{5, 6}], built from the
    list and given capacity 4 by [Reserve(4)]. *)
Lemma comparison_operators_witness :
  op_eq Z.eqb full3 roomy = ROk false /\ op_lt Z.ltb full3 roomy = ROk true /\
  op_ge Z.eqb Z.ltb full3 roomy = ROk false /\
  spec_lex_less Z.ltb (items full3) (items roomy).
Proof.
  destruct (comparison_operators 0 100%N Z.eqb Z.ltb full3 roomy)
    as (e & l & e' & l' & He & Hl & _ & _ & _ & Hls & _).
  - reflexivity.
  - apply (reach_init 0 100%N [1; 2; 3]); reflexivity.
  - apply (reach_operation 0 100%N (OpReserve 4)
             {| size_ := 2; capacity_ := 2;
                data_ := ArrayPtr.mk (Some [Some 5; Some 6]) |});
      [|reflexivity|reflexivity].
    apply (reach_init 0 100%N [5; 6]); reflexivity.
  - split; [reflexivity|]. split; [reflexivity|]. split; [reflexivity|].
    apply Hls. vm_compute in Hl. by injection Hl as <-.
Defined.

(** [v.Insert(v.end(), v[0])] and [v.PushBack(v[0])] on the full vector
    [{1, 2, 3}]. *)
Lemma Insert_at_end_is_PushBack_witness :
  (exists it v', Insert 0 100 (end_ full3) (Slot 0) full3 = Ok it v' /\
     S it = end_ v' /\ items v' = [1; 2; 3; 1]) /\
  PushBack 0 100 (Slot 0) full3 = Undefined.
Proof.
  destruct (Insert_at_end_is_PushBack 0 100%N (Slot 0) 1 full3)
    as ((it & v' & Hi & Hit & _ & Hitems & _) & _ & Hown);
    [reflexivity | wf_by_computation | intros _; vm_compute; discriminate
    | reflexivity |].
  split; [|apply Hown; [intros [] | reflexivity]].
  exists it, v'. split; [exact Hi|]. split; [exact Hit | exact Hitems].
Defined.

(** ** The further properties at concrete vectors *)

(** [SimpleVector<int> v(2, 7)]. *)
Lemma constructor_fill_witness :
  exists v, SimpleVector_fill 100 2 7 = ROk v /\ GetSize v = 2%N /\ items v = [7; 7].
Proof.
  destruct (constructor_fill 0 100%N 2%N 7) as [Hok _]; [reflexivity|].
  destruct Hok as (v & Hv & Hs & _ & Hi & _); [lia|].
  exists v. split; [exact Hv|]. split; [exact Hs | exact Hi].
Defined.

(** [SimpleVector<int> v{1, 2, 3}]. *)
Lemma constructor_init_witness :
  exists v, SimpleVector_init 100 [1; 2; 3] = ROk v /\
    items v = [1; 2; 3] /\ GetCapacity v = 3%N.
Proof.
  destruct (constructor_init 100%N [1; 2; 3]) as (v & Hv & Hi & _ & Hc & _);
    [reflexivity | vm_compute; discriminate |].
  exists v. split; [exact Hv|]. split; [exact Hi | exact Hc].
Defined.

(** A copy of [{5, 6}] with capacity 4. *)
Lemma constructor_copy_witness :
  exists v, SimpleVector_copy 0 100 roomy = ROk v /\
    items v = [5; 6] /\ GetCapacity v = 2%N.
Proof.
  destruct (constructor_copy 0 100%N roomy) as (v & Hv & Hi & _ & Hc & _);
    [wf_by_computation | vm_compute; discriminate |].
  exists v. split; [exact Hv|]. split; [exact Hi | exact Hc].
Defined.

(** [v.At(1)] and [v[1]] on [{1, 2, 3}]. *)
Lemma At_returns_element_witness :
  At 1 full3 = Ok (Some 2) full3 /\ index 1 full3 = Ok (Some 2) full3.
Proof.
  destruct (At_returns_element full3 1%N 2) as (Ha & Hi & _);
    [wf_by_computation | reflexivity |].
  split; [exact Ha | exact Hi].
Defined.

(** [Reserve(10)] on [{1, 2, 3}]. *)
Lemma Reserve_keeps_elements_witness :
  exists v', Reserve 0 100 10 full3 = Ok tt v' /\
    items v' = [1; 2; 3] /\ GetCapacity v' = 10%N.
Proof.
  destruct (Reserve_keeps_elements 0 100%N 10%N full3) as (v' & Hr & _ & Hi & _ & Hc & _);
    [reflexivity | wf_by_computation | intros _; lia |].
  exists v'. split; [exact Hr|]. split; [exact Hi | apply Hc; reflexivity].
Defined.

(** [PopBack()] on [{1, 2, 3}]. *)
Lemma PopBack_drops_last_witness :
  exists v', PopBack full3 = Ok tt v' /\ items v' = [1; 2] /\ GetCapacity v' = 3%N.
Proof.
  destruct (PopBack_drops_last full3) as (v' & Hp & _ & Hc & Hi & _);
    [wf_by_computation | reflexivity |].
  exists v'. split; [exact Hp|]. split; [exact Hi | exact Hc].
Defined.

(** [PushBack(4)] then [PopBack()] on [{1, 2, 3}]. *)
Lemma PushBack_then_PopBack_witness :
  exists v1 v2, PushBack 0 100 (Outside 4) full3 = Ok tt v1 /\ PopBack v1 = Ok tt v2 /\
    items v2 = [1; 2; 3].
Proof.
  destruct (PushBack_then_PopBack 0 100%N (Outside 4) full3)
    as (v1 & v2 & Hp & Hq & _ & Hi & _);
    [reflexivity | wf_by_computation | intros _; vm_compute; discriminate
    | exact I | left; exact I |].
  exists v1, v2. split; [exact Hp|]. split; [exact Hq | exact Hi].
Defined.

(** [PopBack()] on a default-constructed vector. *)
Lemma PopBack_on_empty_wraps_witness :
  exists v', PopBack (@SimpleVector_default Z) = Ok tt v' /\
    GetSize v' = 18446744073709551615%N /\ IsEmpty v' = false.
Proof.
  destruct (PopBack_on_empty_wraps (@SimpleVector_default Z))
    as (v' & Hp & Hs & He & _); [reflexivity|].
  exists v'. split; [exact Hp|]. split; [exact Hs | exact He].
Defined.

(** [Clear()] on [{1, 2, 3}], then [PushBack(9)]. *)
Lemma Clear_keeps_capacity_witness :
  exists v' v'', Clear full3 = Ok tt v' /\ GetSize v' = 0%N /\
    PushBack 0 100 (Outside 9) v' = Ok tt v'' /\ GetCapacity v'' = 3%N /\ items v'' = [9].
Proof.
  destruct (Clear_keeps_capacity 0 100%N 9 full3)
    as (v' & Hc & Hs & _ & _ & _ & _ & _ & _ & Hpush);
    [reflexivity | wf_by_computation |].
  destruct Hpush as (v'' & Hp & Hcap & Hi); [reflexivity|].
  exists v', v''. split; [exact Hc|]. split; [exact Hs|]. split; [exact Hp|].
  split; [exact Hcap | exact Hi].
Defined.

(** [Erase(begin() + 1)] on [{1, 2, 3}]. *)
Lemma Erase_removes_witness :
  exists v', Erase 1 full3 = Ok 1%nat v' /\ items v' = [1; 3] /\ GetSize v' = 2%N.
Proof.
  destruct (Erase_removes 1%nat full3) as (v' & He & Hi & Hs & _);
    [wf_by_computation | vm_compute; lia |].
  exists v'. split; [exact He|]. split; [exact Hi | exact Hs].
Defined.

(** [v.Insert(v.begin(), v[1])] on [{5, 6}] with capacity 4: the shift
    has put 5 in the slot of [v[1]] when the argument is read. *)
Lemma Insert_places_witness :
  exists v', Insert 0 100 0 (Slot 1) roomy = Ok 0%nat v' /\
    items v' = [5; 5; 6] /\ GetCapacity v' = 4%N.
Proof.
  destruct (Insert_places 0 100%N 0%nat (Slot 1) 5 roomy)
    as (v' & Hi & _ & Hit & _ & _ & Hc & _);
    [reflexivity | wf_by_computation | vm_compute; lia
    | intros Hfull; vm_compute in Hfull; discriminate Hfull
    | vm_compute; lia | reflexivity |].
  exists v'. split; [exact Hi|]. split; [exact Hit | exact Hc].
Defined.

(** [Erase(begin() + 1)] on [{1, 2, 3}], then [Insert(begin() + 1, 2)]. *)
Lemma Erase_then_Insert_witness :
  exists v1 v2, Erase 1 full3 = Ok 1%nat v1 /\ Insert 0 100 1 (Outside 2) v1 = Ok 1%nat v2 /\
    items v2 = [1; 2; 3] /\ GetCapacity v2 = 3%N.
Proof.
  destruct (Erase_then_Insert 0 100%N 1%nat 2 full3)
    as (v1 & v2 & He & Hi & Hit & _ & Hc & _);
    [reflexivity | wf_by_computation | reflexivity |].
  exists v1, v2. split; [exact He|]. split; [exact Hi|]. split; [exact Hit | exact Hc].
Defined.

(** The full vector [{1, 2, 3}] with an allocator that grants at most two
    elements. *)
Lemma refused_allocation_throws_witness :
  PushBack 0 2 (Outside 4) full3 = Throw bad_alloc full3 /\
  Insert 0 2 0 (Outside 4) full3 = Throw bad_alloc full3 /\
  Resize 0 2 10 full3 = Throw bad_alloc full3 /\
  Reserve 0 2 10 full3 = Throw bad_alloc full3.
Proof.
  destruct (refused_allocation_throws 0 2%N 0%nat (Outside 4) 10%N full3)
    as (Hp & Hi & Hr);
    [vm_compute; discriminate | reflexivity | reflexivity |].
  destruct Hr as [Hr Hv]; [vm_compute; discriminate|].
  split; [exact Hp|]. split; [exact Hi|]. split; [exact Hr | exact Hv].
Defined.

(** [PushBack(1)], [PushBack(2)], [PushBack(3)] into an empty vector. *)
Lemma PushBack_from_empty_doubles_witness :
  exists v, PushBack_all 0 100 [1; 2; 3] SimpleVector_default = Ok tt v /\
    items v = [1; 2; 3] /\ GetSize v = 3%N /\
    (GetSize v <= GetCapacity v)%N /\ (GetCapacity v < 2 * GetSize v)%N.
Proof.
  destruct (PushBack_from_empty_doubles 0 100%N [1; 2; 3])
    as (v & Hp & Hi & Hs & _ & Hlo & Hhi & _);
    [reflexivity | discriminate | vm_compute; discriminate |].
  exists v. split; [exact Hp|]. split; [exact Hi|]. split; [exact Hs|].
  split; [exact Hlo | exact Hhi].
Defined.

(** [PushBack(7)], [PushBack(8)] into [{5, 6}] of capacity 4. *)
Lemma PushBack_within_capacity_witness :
  exists v', PushBack_all 0 100 [7; 8] roomy = Ok tt v' /\
    GetCapacity v' = 4%N /\ items v' = [5; 6; 7; 8].
Proof.
  destruct (PushBack_within_capacity 0 100%N [7; 8] roomy) as (v' & Hp & Hc & Hi & _);
    [reflexivity | wf_by_computation | vm_compute; discriminate |].
  exists v'. split; [exact Hp|]. split; [exact Hc | exact Hi].
Defined.

(** [{5, 6}] of capacity 4 against [{5, 6}] of capacity 2. *)
Lemma same_elements_compare_equal_witness :
  op_eq Z.eqb roomy snug = ROk true /\ op_lt Z.ltb roomy snug = ROk false /\
  op_ge Z.eqb Z.ltb roomy snug = ROk true.
Proof.
  destruct (same_elements_compare_equal Z.eqb Z.ltb roomy snug)
    as (He & _ & Hl & _ & _ & Hg);
    [wf_by_computation | wf_by_computation | reflexivity
    | intros x _; split; [apply Z.eqb_refl | apply Z.ltb_irrefl] |].
  split; [exact He|]. split; [exact Hl | exact Hg].
Defined.

(** [{1, 2, 3}] against [{5, 6}]. *)
Lemma less_than_asymmetric_witness :
  op_lt Z.ltb roomy full3 = ROk false /\ op_le Z.eqb Z.ltb full3 roomy = ROk true.
Proof.
  destruct (less_than_asymmetric Z.eqb Z.ltb full3 roomy) as (Hl & _ & Hle);
    [wf_by_computation | wf_by_computation
    | intros x y Hxy; apply Z.ltb_lt in Hxy; apply Z.ltb_ge; lia
    | reflexivity |].
  split; [exact Hl | exact Hle].
Defined.

(** The default-constructed vector after [PushBack(7)] and [PushBack(8)],
    read at index 1. *)
Lemma constructible_elements_readable_witness :
  exists x, items pushed78 !! 1%nat = Some x /\
    At 1 pushed78 = Ok (Some x) pushed78.
Proof.
  destruct (constructible_elements_readable 0 100%N pushed78 1%N)
    as (_ & x & Hx & Ha & _).
  - reflexivity.
  - apply (reach_operation 0 100%N (OpPushBack (Outside 8)) pushed7); [|exact I|reflexivity].
    apply (reach_operation 0 100%N (OpPushBack (Outside 7)) SimpleVector_default);
      [apply reach_default|exact I|reflexivity].
  - reflexivity.
  - exists x. split; [exact Hx | exact Ha].
Defined.

(** [PushBack(4)] on [{1, 2, 3}]. *)
Lemma operations_keep_well_formed_witness :
  exists v', perform 0 100 (OpPushBack (Outside 4)) full3 = Some v' /\ wf v'.
Proof.
  destruct (operations_keep_well_formed 0 100%N (OpPushBack (Outside 4)) full3)
    as (_ & Hret & _); [reflexivity | wf_by_computation | exact I |].
  apply Hret; [intros _; vm_compute; discriminate | intros []].
Defined.

(** Two vectors at addresses 1 and 2: [{1, 2, 3}] and [{5, 6}]. *)
Lemma move_assign_empties_source_witness :
  exists st' va' vb', SimpleVector_move_assign 1 2 two_vectors = ROk st' /\
    st' !! 1%nat = Some va' /\ st' !! 2%nat = Some vb' /\
    items va' = [5; 6] /\ GetCapacity va' = 4%N /\ GetSize vb' = 0%N.
Proof.
  destruct (move_assign_empties_source two_vectors 1%nat 2%nat full3 roomy)
    as [(st' & va' & vb' & Hm & Ha & Hb & _ & Hc & _ & Hi & _ & Hs & _) _];
    [reflexivity | reflexivity | lia |].
  exists st', va', vb'. split; [exact Hm|]. split; [exact Ha|]. split; [exact Hb|].
  split; [exact Hi|]. split; [exact Hc | exact Hs].
Defined.

Lemma copy_assign_copies_witness :
  exists st' va', SimpleVector_copy_assign 0 100 1 2 two_vectors = ROk st' /\
    st' !! 1%nat = Some va' /\ items va' = [5; 6] /\ GetCapacity va' = 2%N /\
    st' !! 2%nat = Some roomy.
Proof.
  destruct (copy_assign_copies 0 100%N two_vectors 1%nat 2%nat full3 roomy)
    as [Hcopy _]; [reflexivity | reflexivity | lia | wf_by_computation |].
  destruct Hcopy as (st' & va' & Hc & Ha & Hi & _ & Hcap & _ & Hrest);
    [vm_compute; discriminate|].
  exists st', va'. split; [exact Hc|]. split; [exact Ha|]. split; [exact Hi|].
  split; [exact Hcap|]. rewrite Hrest by lia. reflexivity.
Defined.

(** [Erase(end())] on [{5, 6}] of capacity 4, and its slot 3. *)
Lemma positions_are_unchecked_witness :
  Erase 2 roomy = Undefined /\ Insert 0 100 3 (Outside 9) roomy = Undefined /\
  index 4 roomy = Undefined /\
  exists c, index 3 roomy = Ok c roomy /\ At 3 roomy = Throw out_of_range roomy.
Proof.
  destruct (positions_are_unchecked 0 100%N (Outside 9) roomy)
    as (He & Hins & Hout & Hin);
    [wf_by_computation|].
  split; [apply He; vm_compute; lia|].
  split; [apply Hins; [vm_compute; lia | intros Hfull; vm_compute in Hfull; by destruct Hfull]|].
  split; [apply Hout; vm_compute; discriminate|].
  destruct (Hin 3%N) as (c & _ & Hi & Ha); [vm_compute; discriminate | reflexivity |].
  exists c. split; [exact Hi | exact Ha].
Defined.

(** Two [ArrayPtr] objects at addresses 1 and 2, holding the blocks at 10
    and 20. *)
Lemma two_owners_exclusive : exclusive two_owners.
Proof.
  unfold two_owners. apply exclusive_insert_fresh.
  - apply exclusive_insert_fresh; [apply exclusive_empty|].
    intros c Hc. unfold holds in Hc. by rewrite lookup_empty in Hc.
  - intros c Hc. apply holds_insert in Hc as [[_ [=]]|[_ Hc]].
    unfold holds in Hc. by rewrite lookup_empty in Hc.
Qed.

Lemma ownership_stays_exclusive_witness :
  exists st', swap_at 1 2 two_owners = Some st' /\ exclusive st'.
Proof.
  destruct (ownership_stays_exclusive two_owners 1%nat 2%nat two_owners_exclusive)
    as (_ & _ & Hswap & _).
  exists (<[2%nat := ArrayPtr.mk (Some 10%nat)]>
            (<[1%nat := ArrayPtr.mk (Some 20%nat)]> two_owners)).
  split; [reflexivity|]. apply Hswap. reflexivity.
Defined.

Lemma assignment_orphans_block_witness :
  exists st', ArrayPtr.move_assign 1 2 two_owners = Some st' /\
    ~ holds st' 1%nat 10%nat /\ ~ holds st' 2%nat 10%nat.
Proof.
  destruct (assignment_orphans_block two_owners 1%nat 2%nat 10%nat)
    as (st' & Hm & Hnone);
    [exact two_owners_exclusive | reflexivity | lia | by eexists |].
  exists st'. split; [exact Hm|]. split; apply Hnone.
Defined.

(** [v.PushBack(std::move(v[0]))] on [{5, 6}] with capacity 4. *)
Lemma PushBack_move_of_own_element_witness :
  exists v', PushBack_move 0 100 (Slot 0) roomy = Ok tt v' /\
    cells v' = [None; Some 6; Some 5; None] /\ GetSize v' = 3%N.
Proof.
  destruct (PushBack_move_of_own_element 0 100%N 0%nat 5 roomy)
    as (v' & Hp & Hs & _ & Hc & _);
    [wf_by_computation | reflexivity | reflexivity |].
  exists v'. split; [exact Hp|]. split; [exact Hc | exact Hs].
Defined.
